(** * PintOS file system: the inode layer (src/filesys/inode.c)

    A shallow embedding of the block-mapping layer: address translation,
    growth, release, the open-inode table and the byte-level read and write
    paths.

    Numbers.  [off_t] and [int] values are read as [Z]: signed overflow is
    undefined in C, and [/] and [%] on them are [Z.quot] and [Z.rem].
    [size_t] values are kept in [0, 2^32) by [to_size_t] where the code
    converts or subtracts.  Sector numbers are [Z]; in a sector image they
    are 32-bit little-endian words.

    State.  The sector device, the free map and the kernel heap are external
    to inode.c; they are components of an explicit [world], together with the
    live [struct inode] objects, the [open_inodes] list and a log of the
    requests made.  Every operation threads the world through a small
    state-and-fault monad: a call returns a value and a world, or stops on a
    failed assertion or on an access that C leaves undefined. *)

From Stdlib Require Import ZArith List Lia Bool.
Import ListNotations.
Open Scope Z_scope.

(** ** Constants of inode.c and of the block layer *)

Abbreviation block_sector_t := Z (only parsing).
Abbreviation off_t := Z (only parsing).

Definition BLOCK_SECTOR_SIZE : Z := 512.
Definition INODE_MAGIC : Z := 1229868868. (* 0x494e4f44 *)
Definition NUM_INDIRECT_PTRS : Z := 128.
Definition NUM_DBL_INDIRECT_PTRS : Z := 16384.

(** [(block_sector_t) -1]: what [byte_to_sector] returns when the inode holds
    no data for the position. *)
Definition NOT_FOUND : block_sector_t := 4294967295.

(** Conversion of a signed value to [size_t] (32 bits on the target). *)
Definition to_size_t (z : Z) : Z := z mod 4294967296.

(** ** Sector images

    A sector is 512 bytes; a byte is a [Z] in [0, 256). *)

Definition image := list Z.

Definition zeros : image := repeat 0 512%nat.

(** [struct indirect_block_ptr]: 128 sector numbers, stored as 32-bit
    little-endian words (the target is 80x86). *)
Definition word_bytes (v : Z) : list Z :=
  [v mod 256; (v / 256) mod 256; (v / 65536) mod 256; (v / 16777216) mod 256].

Definition image_word (img : image) (i : nat) : Z :=
  nth (4 * i) img 0 + 256 * nth (4 * i + 1) img 0
  + 65536 * nth (4 * i + 2) img 0 + 16777216 * nth (4 * i + 3) img 0.

Definition block_ptrs_of_image (img : image) : list block_sector_t :=
  map (image_word img) (seq 0 128).

Definition image_of_block_ptrs (ptrs : list block_sector_t) : image :=
  flat_map word_bytes ptrs.

(** ** Records *)

(** Modelled from the spec: [struct inode_disk] (filesys/inode.h is absent).
    The record has the length, the magic tag, the directory flag, the direct
    pointers and the two indirection pointers; the field names are those
    inode.c uses.  [direct_blocks] has NUM_DIRECT_BLOCKS entries. *)
Record inode_disk := mk_inode_disk {
  length : off_t;
  magic : Z;
  dir : bool;
  direct_blocks : list block_sector_t;
  indirect_block : block_sector_t;
  doubly_indirect_block : block_sector_t
}.

(** Modelled from the spec: [struct inode], the in-memory handle
    (filesys/inode.h is absent), with the fields inode.c uses.  The list
    element [elem] is the handle's position in [open_inodes]. *)
Record inode := mk_inode {
  sector : block_sector_t;
  open_cnt : Z;
  deny_write_cnt : Z;
  removed : bool;
  data : inode_disk
}.

Definition set_length (d : inode_disk) (l : off_t) : inode_disk :=
  mk_inode_disk l (magic d) (dir d) (direct_blocks d) (indirect_block d)
    (doubly_indirect_block d).
Definition set_direct_blocks (d : inode_disk) (b : list block_sector_t) :=
  mk_inode_disk (length d) (magic d) (dir d) b (indirect_block d)
    (doubly_indirect_block d).
Definition set_indirect_block (d : inode_disk) (s : block_sector_t) :=
  mk_inode_disk (length d) (magic d) (dir d) (direct_blocks d) s
    (doubly_indirect_block d).
Definition set_doubly_indirect_block (d : inode_disk) (s : block_sector_t) :=
  mk_inode_disk (length d) (magic d) (dir d) (direct_blocks d)
    (indirect_block d) s.

Definition set_open_cnt (i : inode) (n : Z) : inode :=
  mk_inode (sector i) n (deny_write_cnt i) (removed i) (data i).
Definition set_deny_write_cnt (i : inode) (n : Z) : inode :=
  mk_inode (sector i) (open_cnt i) n (removed i) (data i).
Definition set_removed (i : inode) (b : bool) : inode :=
  mk_inode (sector i) (open_cnt i) (deny_write_cnt i) b (data i).
Definition set_data (i : inode) (d : inode_disk) : inode :=
  mk_inode (sector i) (open_cnt i) (deny_write_cnt i) (removed i) d.

(** ** The world around inode.c *)

(** What the module asks of its collaborators, in the order it asks. *)
Inductive event :=
| EvRead (s : block_sector_t)
| EvWrite (s : block_sector_t) (img : image)
| EvAllocate (got : option block_sector_t)
| EvRelease (s : block_sector_t).

Record world := mk_world {
  disk : block_sector_t -> image;        (* fs_device *)
  free_map : list block_sector_t;        (* sectors still available *)
  heap_left : nat;                       (* objects malloc can still give *)
  next_ptr : Z;                          (* next fresh handle address *)
  inodes : Z -> option inode;            (* live handles, by address *)
  open_inodes : list Z;                  (* static struct list open_inodes *)
  trace : list event                     (* oldest first *)
}.

Definition with_disk (w : world) (d : block_sector_t -> image) : world :=
  mk_world d (free_map w) (heap_left w) (next_ptr w) (inodes w)
    (open_inodes w) (trace w).
Definition with_free_map (w : world) (f : list block_sector_t) : world :=
  mk_world (disk w) f (heap_left w) (next_ptr w) (inodes w)
    (open_inodes w) (trace w).
Definition with_heap_left (w : world) (n : nat) : world :=
  mk_world (disk w) (free_map w) n (next_ptr w) (inodes w)
    (open_inodes w) (trace w).
Definition with_next_ptr (w : world) (p : Z) : world :=
  mk_world (disk w) (free_map w) (heap_left w) p (inodes w)
    (open_inodes w) (trace w).
Definition with_inodes (w : world) (m : Z -> option inode) : world :=
  mk_world (disk w) (free_map w) (heap_left w) (next_ptr w) m
    (open_inodes w) (trace w).
Definition with_open_inodes (w : world) (l : list Z) : world :=
  mk_world (disk w) (free_map w) (heap_left w) (next_ptr w) (inodes w)
    l (trace w).
Definition log (e : event) (w : world) : world :=
  mk_world (disk w) (free_map w) (heap_left w) (next_ptr w) (inodes w)
    (open_inodes w) (trace w ++ [e]).

Definition upd {A : Type} (f : Z -> A) (k : Z) (v : A) : Z -> A :=
  fun k' => if k' =? k then v else f k'.

(** ** The monad: state passing, with the two ways a kernel call can stop *)

Inductive fault :=
| AssertionFailed      (* ASSERT (...) does not hold: kernel panic *)
| MemoryFault.         (* access outside an object, or through NULL or a
                          freed pointer: undefined behaviour *)

Inductive outcome (A : Type) :=
| Ok (a : A) (w : world)
| Crash (f : fault).
Arguments Ok {A} a w.
Arguments Crash {A} f.

Definition M (A : Type) := world -> outcome A.

Definition ret {A} (a : A) : M A := fun w => Ok a w.
Definition crash {A} (f : fault) : M A := fun _ => Crash f.
Definition bind {A B} (m : M A) (k : A -> M B) : M B :=
  fun w => match m w with
           | Ok a w' => k a w'
           | Crash f => Crash f
           end.

Notation "x <- m ;; k" := (bind m (fun x => k))
  (at level 61, m at next level, right associativity).
Notation "m ;;; k" := (bind m (fun _ => k))
  (at level 61, right associativity).

Definition ASSERT (b : bool) : M unit :=
  if b then ret tt else crash AssertionFailed.

(** C array indexing: outside the array the access is undefined. *)
Definition array_get (a : list Z) (i : Z) : M Z :=
  if (0 <=? i) && (i <? Z.of_nat (List.length a))
  then ret (nth (Z.to_nat i) a 0)
  else crash MemoryFault.

Fixpoint list_set (a : list Z) (i : nat) (v : Z) : list Z :=
  match a, i with
  | [], _ => []
  | _ :: t, O => v :: t
  | h :: t, S i' => h :: list_set t i' v
  end.

Definition array_set (a : list Z) (i : Z) (v : Z) : M (list Z) :=
  if (0 <=? i) && (i <? Z.of_nat (List.length a))
  then ret (list_set a (Z.to_nat i) v)
  else crash MemoryFault.

(** ** Collaborators *)

(** Modelled from the spec: the sector device (devices/block.c is absent).
    [block_read] and [block_write] move one whole 512-byte sector and always
    succeed. *)
Definition block_read (s : block_sector_t) : M image :=
  fun w => Ok (disk w s) (log (EvRead s) w).

Definition block_write (s : block_sector_t) (img : image) : M unit :=
  fun w => Ok tt (log (EvWrite s img) (with_disk w (upd (disk w) s img))).

(** Modelled from the spec: the free-space allocator (filesys/free-map.c is
    absent).  [free_map_allocate (1, &x)] either stores a sector in [x] and
    returns true, or returns false and leaves [x] alone;
    [free_map_release (s, 1)] makes [s] available again.  The available
    sectors are kept in a list, handed out from its head. *)
Definition free_map_allocate : M (option block_sector_t) :=
  fun w => match free_map w with
           | [] => Ok None (log (EvAllocate None) w)
           | s :: rest =>
               Ok (Some s) (log (EvAllocate (Some s)) (with_free_map w rest))
           end.

Definition free_map_release (s : block_sector_t) : M unit :=
  fun w => Ok tt (log (EvRelease s) (with_free_map w (s :: free_map w))).

(** Modelled from the spec: the kernel heap (threads/malloc.c is absent).
    [malloc] gives an object or NULL; the world carries how many objects are
    left.  [malloc_buf] stands for a scratch object whose address is not
    observed ([true]: not NULL). *)
Definition malloc_buf : M bool :=
  fun w => match heap_left w with
           | O => Ok false w
           | S n => Ok true (with_heap_left w n)
           end.

Definition free_buf (nonnull : bool) : M unit :=
  fun w => if nonnull then Ok tt (with_heap_left w (S (heap_left w)))
           else Ok tt w.

(** [malloc (sizeof (struct inode))]: a fresh address, or 0 for NULL. *)
Definition malloc_inode : M Z :=
  fun w => match heap_left w with
           | O => Ok 0 w
           | S n => Ok (next_ptr w)
                      (with_next_ptr (with_heap_left w n) (next_ptr w + 1))
           end.

Definition free_inode (p : Z) : M unit :=
  fun w => match inodes w p with
           | None => Crash MemoryFault
           | Some _ =>
               Ok tt (with_heap_left (with_inodes w (upd (inodes w) p None))
                        (S (heap_left w)))
           end.

(** [*p] for a handle pointer [p]. *)
Definition deref (p : Z) : M inode :=
  fun w => match inodes w p with
           | Some i => Ok i w
           | None => Crash MemoryFault
           end.

(** Initialisation of the object [malloc] has just given. *)
Definition store (p : Z) (i : inode) : M unit :=
  fun w => Ok tt (with_inodes w (upd (inodes w) p (Some i))).

(** An assignment to fields of [*p]. *)
Definition update (p : Z) (f : inode -> inode) : M unit :=
  fun w => match inodes w p with
           | Some i => Ok tt (with_inodes w (upd (inodes w) p (Some (f i))))
           | None => Crash MemoryFault
           end.

(** A block read into [struct indirect_block_ptr *buf]. *)
Definition block_read_ptrs (buf_nonnull : bool) (s : block_sector_t)
  : M (list block_sector_t) :=
  if buf_nonnull then img <- block_read s ;; ret (block_ptrs_of_image img)
  else crash MemoryFault.

(** A loop either falls through with its variables, or the function
    returns from inside it. *)
Inductive loop_exit (R S : Type) :=
| Returned (r : R)
| Fell (s : S).
Arguments Returned {R S} r.
Arguments Fell {R S} s.

(** ** inode.c *)

Section Inode.

(** NUM_DIRECT_BLOCKS is defined in inode.h, with [struct inode_disk]. *)
Variable NUM_DIRECT_BLOCKS : Z.

(** The 512 bytes of a [struct inode_disk] as [block_write] and [block_read]
    move them; the layout is that of inode.h. *)
Variable inode_disk_image : inode_disk -> image.
Variable inode_disk_load : image -> inode_disk.

(** DIV_ROUND_UP (size, BLOCK_SECTOR_SIZE), converted to [size_t]. *)
Definition bytes_to_sectors (size : off_t) : Z :=
  to_size_t (Z.quot (size + BLOCK_SECTOR_SIZE - 1) BLOCK_SECTOR_SIZE).

Definition byte_to_sector (inode : Z) (pos : off_t) : M block_sector_t :=
  let indirect_idx := NUM_DIRECT_BLOCKS + NUM_INDIRECT_PTRS in
  let double_indirect_idx := indirect_idx + NUM_DBL_INDIRECT_PTRS in
  ASSERT (negb (inode =? 0)) ;;;
  i <- deref inode ;;
  if pos <? length (data i) then
    let pos := Z.quot pos BLOCK_SECTOR_SIZE in
    let disk_inode := data i in
    if pos <? NUM_DIRECT_BLOCKS then
      array_get (direct_blocks disk_inode) pos
    else
      buf <- malloc_buf ;;
      if pos <? indirect_idx then
        ptrs <- block_read_ptrs buf (indirect_block disk_inode) ;;
        r <- array_get ptrs (pos - NUM_DIRECT_BLOCKS) ;;
        free_buf buf ;;;
        ret r
      else if pos <? double_indirect_idx then
        outer <- block_read_ptrs buf (doubly_indirect_block disk_inode) ;;
        child <- array_get outer (Z.quot (pos - indirect_idx) NUM_INDIRECT_PTRS) ;;
        inner <- block_read_ptrs buf child ;;
        r <- array_get inner (pos - Z.rem indirect_idx NUM_INDIRECT_PTRS) ;;
        free_buf buf ;;;
        ret r
      else
        free_buf buf ;;;
        ret NOT_FOUND
  else
    ret NOT_FOUND.


(** *** Growth: [inode_alloc_iblock] and [inode_alloc] *)

(** [a - b] and [a--] on [size_t]. *)
Definition size_sub (a b : Z) : Z := to_size_t (a - b).

(** The [for] loop of [inode_alloc_iblock]: [n] iterations are left,
    [child] is the recursive call at [height - 1], [slot] is [*sector].
    Falls through with the remaining [sector_size]. *)
Fixpoint alloc_entries (child : block_sector_t -> Z -> M (bool * block_sector_t))
    (height_is_1 : bool) (slot : block_sector_t) (unit_ : Z)
    (n : nat) (index : Z) (ptrs : list block_sector_t) (sector_size : Z)
  : M (loop_exit bool Z) :=
  match n with
  | O => ret (Fell sector_size)
  | S n' =>
      let size := if sector_size <? unit_ then sector_size else unit_ in
      if height_is_1 then
        cur <- array_get ptrs index ;;
        let allocate_new := cur =? 0 in
        if allocate_new then
          got <- free_map_allocate ;;
          match got with
          | Some s =>
              ptrs' <- array_set ptrs index s ;;
              block_write s zeros ;;;
              block_write slot (image_of_block_ptrs ptrs') ;;;
              alloc_entries child height_is_1 slot unit_ n' (index + 1) ptrs'
                (size_sub sector_size size)
          | None => ret (Returned false)
          end
        else
          block_write slot (image_of_block_ptrs ptrs) ;;;
          alloc_entries child height_is_1 slot unit_ n' (index + 1) ptrs
            (size_sub sector_size size)
      else
        cur <- array_get ptrs index ;;
        r <- child cur size ;;
        let '(ok, cur') := r in
        if ok then
          ptrs' <- array_set ptrs index cur' ;;
          block_write slot (image_of_block_ptrs ptrs') ;;;
          alloc_entries child height_is_1 slot unit_ n' (index + 1) ptrs'
            (size_sub sector_size size)
        else ret (Returned false)
  end.

(** The [while (height > 0)] loop of [inode_alloc_iblock], entered with the
    current [unit].  Returns the function's result and the final [*sector]. *)
Fixpoint alloc_iblock_while (height : nat) (unit_ : Z) (slot : block_sector_t)
    (sector_size : Z) : M (bool * block_sector_t) :=
  match height with
  | O => ret (true, slot)
  | S h =>
      slot' <- (if slot =? 0 then
                  got <- free_map_allocate ;;
                  let s := match got with Some s => s | None => slot end in
                  block_write s zeros ;;;
                  ret s
                else ret slot) ;;
      ptrs <- block_read_ptrs true slot' ;;
      let unit' := if Nat.eqb height 2 then NUM_INDIRECT_PTRS else unit_ in
      let limit := sector_size / unit' in
      r <- alloc_entries (alloc_iblock_while h 1) (Nat.eqb height 1) slot' unit'
             (Z.to_nat limit) 0 ptrs sector_size ;;
      match r with
      | Returned b => ret (b, slot')
      | Fell sector_size' => alloc_iblock_while h unit' slot' sector_size'
      end
  end.

(** [inode_alloc_iblock (&slot, sector_size, height)]: the result and the
    value left in [slot]. *)
Definition inode_alloc_iblock (slot : block_sector_t) (sector_size : Z)
    (height : nat) : M (bool * block_sector_t) :=
  alloc_iblock_while height 1 slot sector_size.

(** The [while (index < limit)] loop of [inode_alloc]. *)
Fixpoint alloc_direct (n : nat) (index : Z) (d : inode_disk) (sector_size : Z)
  : M (loop_exit (bool * inode_disk) (inode_disk * Z)) :=
  match n with
  | O => ret (Fell (d, sector_size))
  | S n' =>
      cur <- array_get (direct_blocks d) index ;;
      if cur =? 0 then
        got <- free_map_allocate ;;
        match got with
        | Some s =>
            blocks <- array_set (direct_blocks d) index s ;;
            let d' := set_direct_blocks d blocks in
            block_write s zeros ;;;
            let sector_size' := size_sub sector_size 1 in
            if sector_size' <=? 0 then ret (Returned (true, d'))
            else alloc_direct n' (index + 1) d' sector_size'
        | None => ret (Returned (false, d))
        end
      else alloc_direct n' (index + 1) d sector_size
  end.

(** [inode_alloc (disk_inode, length)]: the result and the record as the
    call leaves it (the record is updated in place, also when the call
    fails). *)
Definition inode_alloc (d : inode_disk) (len : off_t) : M (bool * inode_disk) :=
  let sector_size := bytes_to_sectors len in
  let limit := if sector_size <? NUM_DIRECT_BLOCKS then sector_size
               else NUM_DIRECT_BLOCKS in
  r <- alloc_direct (Z.to_nat limit) 0 d sector_size ;;
  match r with
  | Returned res => ret res
  | Fell (d, sector_size) =>
      let indirect_limit := if sector_size <? NUM_INDIRECT_PTRS then sector_size
                            else NUM_INDIRECT_PTRS in
      r1 <- (if 0 <? indirect_limit then
               r <- inode_alloc_iblock (indirect_block d) indirect_limit 1 ;;
               ret (fst r, set_indirect_block d (snd r))
             else ret (true, d)) ;;
      let '(ok, d) := r1 in
      if negb ok then ret (false, d)
      else
        let sector_size := size_sub sector_size indirect_limit in
        if sector_size <=? 0 then ret (true, d)
        else
          let dbl_indirect_limit :=
            if sector_size <? NUM_DBL_INDIRECT_PTRS then sector_size
            else NUM_DBL_INDIRECT_PTRS in
          r2 <- (if 0 <? dbl_indirect_limit then
                   r <- inode_alloc_iblock (doubly_indirect_block d)
                          dbl_indirect_limit 2 ;;
                   ret (fst r, set_doubly_indirect_block d (snd r))
                 else ret (true, d)) ;;
          let '(ok, d) := r2 in
          if negb ok then ret (false, d)
          else
            let sector_size := size_sub sector_size dbl_indirect_limit in
            ret (sector_size <=? 0, d)
  end.

(** *** Release: [inode_dealloc_iblock] and [inode_dealloc] *)

(** The [for] loop inside the [while] of [inode_dealloc_iblock]. *)
Fixpoint dealloc_entries (child : block_sector_t -> Z -> M unit) (unit_ : Z)
    (n : nat) (index : Z) (ptrs : list block_sector_t) (sector_size : Z)
  : M Z :=
  match n with
  | O => ret sector_size
  | S n' =>
      let size := if sector_size <? unit_ then sector_size else unit_ in
      cur <- array_get ptrs index ;;
      child cur size ;;;
      dealloc_entries child unit_ n' (index + 1) ptrs
        (size_sub sector_size size)
  end.

(** One turn of [while (height > 1)]: yields [unit] and [sector_size] as the
    turn leaves them. *)
Definition dealloc_level (child : block_sector_t -> Z -> M unit)
    (entry : block_sector_t) (unit_ : Z) (sector_size : Z) (height : nat)
  : M (Z * Z) :=
  ptrs <- block_read_ptrs true entry ;;
  let unit_ := if Nat.eqb height 2 then NUM_INDIRECT_PTRS else unit_ in
  let limit := sector_size / unit_ in
  sector_size' <- dealloc_entries child unit_ (Z.to_nat limit) 0 ptrs
                    sector_size ;;
  free_map_release entry ;;;
  ret (unit_, sector_size').

(** The last [for] loop of [inode_dealloc_iblock]. *)
Fixpoint release_entries (n : nat) (index : Z) (ptrs : list block_sector_t)
  : M unit :=
  match n with
  | O => ret tt
  | S n' =>
      cur <- array_get ptrs index ;;
      free_map_release cur ;;;
      release_entries n' (index + 1) ptrs
  end.

(** What follows the [while] loop. *)
Definition dealloc_iblock_tail (entry : block_sector_t) (unit_ : Z)
    (sector_size : Z) : M unit :=
  ptrs <- block_read_ptrs true entry ;;
  let limit := sector_size / unit_ in
  release_entries (Z.to_nat limit) 0 ptrs ;;;
  free_map_release entry.

(** [inode_dealloc_iblock (entry, sector_size, height)], together with the
    turns of its [while (height > 1)] loop that follow the first one. *)
Fixpoint inode_dealloc_iblock (entry : block_sector_t) (sector_size : Z)
    (height : nat) {struct height} : M unit :=
  match height with
  | 1%nat => free_map_release entry
  | O => dealloc_iblock_tail entry 1 sector_size
  | S h =>
      r <- dealloc_level (fun e s => inode_dealloc_iblock e s h)
             entry 1 sector_size height ;;
      r' <- dealloc_iblock_while entry (fst r) (snd r) h ;;
      dealloc_iblock_tail entry (fst r') (snd r')
  end
with dealloc_iblock_while (entry : block_sector_t) (unit_ : Z)
    (sector_size : Z) (height : nat) {struct height} : M (Z * Z) :=
  match height with
  | O | 1%nat => ret (unit_, sector_size)
  | S h =>
      r <- dealloc_level (fun e s => inode_dealloc_iblock e s h)
             entry unit_ sector_size height ;;
      dealloc_iblock_while entry (fst r) (snd r) h
  end.

(** The [while (index < limit)] loop of [inode_dealloc]. *)
Fixpoint dealloc_direct (n : nat) (index : Z) (d : inode_disk)
    (sector_size : Z) : M Z :=
  match n with
  | O => ret sector_size
  | S n' =>
      cur <- array_get (direct_blocks d) index ;;
      free_map_release cur ;;;
      dealloc_direct n' (index + 1) d (size_sub sector_size 1)
  end.

Definition inode_dealloc (d : inode_disk) : M bool :=
  let sector_size := bytes_to_sectors (length d) in
  let file_length := length d in
  if file_length <? 0 then ret false
  else
    let limit := if sector_size <? NUM_DIRECT_BLOCKS then sector_size
                 else NUM_DIRECT_BLOCKS in
    sector_size <- dealloc_direct (Z.to_nat limit) 0 d sector_size ;;
    let indirect_limit := if sector_size <? NUM_INDIRECT_PTRS then sector_size
                          else NUM_INDIRECT_PTRS in
    (if 0 <? indirect_limit
     then inode_dealloc_iblock (indirect_block d) indirect_limit 1
     else ret tt) ;;;
    let sector_size := size_sub sector_size indirect_limit in
    let dbl_indirect_limit :=
      if sector_size <? NUM_DBL_INDIRECT_PTRS then sector_size
      else NUM_DBL_INDIRECT_PTRS in
    (if 0 <? dbl_indirect_limit
     then inode_dealloc_iblock (doubly_indirect_block d) dbl_indirect_limit 2
     else ret tt) ;;;
    ret true.


(** *** The open-inode table *)

(** [inode_init]: [list_init (&open_inodes)]. *)
Definition inode_init : M unit :=
  fun w => Ok tt (with_open_inodes w []).

Definition list_push_front (p : Z) : M unit :=
  fun w => Ok tt (with_open_inodes w (p :: open_inodes w)).

Definition list_remove (p : Z) : M unit :=
  fun w => Ok tt (with_open_inodes w (remove Z.eq_dec p (open_inodes w))).

(** A record with every byte zero, as [calloc] gives it. *)
Definition zero_inode_disk : inode_disk :=
  mk_inode_disk 0 0 false (repeat 0 (Z.to_nat NUM_DIRECT_BLOCKS)) 0 0.

(** [inode_create (sector, length, is_dir)].  The second assertion of the
    source compares two compile-time constants and is not repeated here. *)
Definition inode_create (sector : block_sector_t) (len : off_t) (is_dir : bool)
  : M bool :=
  ASSERT (0 <=? len) ;;;
  got <- malloc_buf ;;
  if got then
    let disk_inode :=
      mk_inode_disk len INODE_MAGIC is_dir (direct_blocks zero_inode_disk) 0 0 in
    r <- inode_alloc disk_inode (length disk_inode) ;;
    let '(ok, disk_inode) := r in
    success <- (if ok then
                  block_write sector (inode_disk_image disk_inode) ;;;
                  ret true
                else ret false) ;;
    free_buf got ;;;
    ret success
  else ret false.

(** [inode_reopen (inode)]. *)
Definition inode_reopen (inode : Z) : M Z :=
  (if negb (inode =? 0) then
     update inode (fun i => set_open_cnt i (open_cnt i + 1))
   else ret tt) ;;;
  ret inode.

(** The search loop of [inode_open] over [open_inodes]. *)
Fixpoint find_open (l : list Z) (sec : block_sector_t) : M (option Z) :=
  match l with
  | [] => ret None
  | p :: rest =>
      i <- deref p ;;
      if sector i =? sec then ret (Some p) else find_open rest sec
  end.

(** [inode_open (sector)]: the handle, or 0 for a null pointer. *)
Definition inode_open (sec : block_sector_t) : M Z :=
  l <- (fun w => Ok (open_inodes w) w) ;;
  found <- find_open l sec ;;
  match found with
  | Some p => inode_reopen p
  | None =>
      p <- malloc_inode ;;
      if p =? 0 then ret 0
      else
        list_push_front p ;;;
        img <- block_read sec ;;
        store p (mk_inode sec 1 0 false (inode_disk_load img)) ;;;
        ret p
  end.

(** [inode_get_inumber (inode)]. *)
Definition inode_get_inumber (inode : Z) : M block_sector_t :=
  i <- deref inode ;; ret (sector i).

(** [inode_close (inode)]. *)
Definition inode_close (inode : Z) : M unit :=
  if inode =? 0 then ret tt
  else
    update inode (fun i => set_open_cnt i (open_cnt i - 1)) ;;;
    i <- deref inode ;;
    if open_cnt i =? 0 then
      list_remove inode ;;;
      (if removed i then
         free_map_release (sector i) ;;;
         inode_dealloc (data i) ;;;
         ret tt
       else ret tt) ;;;
      free_inode inode
    else ret tt.

(** [inode_remove (inode)]. *)
Definition inode_remove (inode : Z) : M unit :=
  ASSERT (negb (inode =? 0)) ;;;
  update inode (fun i => set_removed i true).

(** [inode_length (inode)]. *)
Definition inode_length (inode : Z) : M off_t :=
  i <- deref inode ;; ret (length (data i)).

(** [inode_deny_write (inode)]. *)
Definition inode_deny_write (inode : Z) : M unit :=
  update inode (fun i => set_deny_write_cnt i (deny_write_cnt i + 1)) ;;;
  i <- deref inode ;;
  ASSERT (deny_write_cnt i <=? open_cnt i).

(** [inode_allow_write (inode)]. *)
Definition inode_allow_write (inode : Z) : M unit :=
  i <- deref inode ;;
  ASSERT (0 <? deny_write_cnt i) ;;;
  ASSERT (deny_write_cnt i <=? open_cnt i) ;;;
  update inode (fun i => set_deny_write_cnt i (deny_write_cnt i - 1)).

(** *** Reading and writing bytes *)

(** [len] bytes of [a] from position [from]; outside [a] the access is
    undefined. *)
Definition slice (a : list Z) (from len : Z) : M (list Z) :=
  if (0 <=? from) && (0 <=? len) && (from + len <=? Z.of_nat (List.length a))
  then ret (firstn (Z.to_nat len) (skipn (Z.to_nat from) a))
  else crash MemoryFault.

(** [memcpy (bounce + ofs, chunk, len)] on the 512-byte bounce buffer. *)
Definition splice (bounce : image) (ofs : Z) (chunk : list Z) : M image :=
  if (0 <=? ofs) && (ofs + Z.of_nat (List.length chunk) <=? BLOCK_SECTOR_SIZE)
  then ret (firstn (Z.to_nat ofs) bounce ++ chunk
            ++ skipn (Z.to_nat ofs + List.length chunk) bounce)
  else crash MemoryFault.

(** The variables of the copy loops: [bounce] tells whether the bounce
    buffer has been obtained, [moved] is [bytes_read] or [bytes_written]. *)
Record cursor := mk_cursor {
  c_size : off_t;
  c_offset : off_t;
  c_moved : off_t;
  c_bounce : bool
}.

(** The chunk computation both loops share. *)
Definition chunk_size_at (len : off_t) (size offset : off_t) : Z :=
  let sector_ofs := Z.rem offset BLOCK_SECTOR_SIZE in
  let inode_left := len - offset in
  let sector_left := BLOCK_SECTOR_SIZE - sector_ofs in
  let min_left := if inode_left <? sector_left then inode_left else sector_left in
  if size <? min_left then size else min_left.

(** The [while (size > 0)] loop of [inode_read_at]; [buffer] holds the bytes
    delivered so far, that is [buffer_[0 .. bytes_read)].  Every turn takes at
    least one byte off [size], so [size] turns are enough. *)
Fixpoint read_loop (fuel : nat) (inode : Z) (c : cursor) (buffer : list Z)
  : M (cursor * list Z) :=
  if c_size c <=? 0 then ret (c, buffer)
  else
    match fuel with
    | O => ret (c, buffer)
    | S fuel' =>
        sector_idx <- byte_to_sector inode (c_offset c) ;;
        let sector_ofs := Z.rem (c_offset c) BLOCK_SECTOR_SIZE in
        len <- inode_length inode ;;
        let chunk_size := chunk_size_at len (c_size c) (c_offset c) in
        if chunk_size <=? 0 then ret (c, buffer)
        else if (sector_ofs =? 0) && (chunk_size =? BLOCK_SECTOR_SIZE) then
          img <- block_read sector_idx ;;
          read_loop fuel' inode
            (mk_cursor (c_size c - chunk_size) (c_offset c + chunk_size)
               (c_moved c + chunk_size) (c_bounce c))
            (buffer ++ img)
        else
          got <- (if c_bounce c then ret true else malloc_buf) ;;
          if negb got then ret (c, buffer)
          else
            bounce <- block_read sector_idx ;;
            chunk <- slice bounce sector_ofs chunk_size ;;
            read_loop fuel' inode
              (mk_cursor (c_size c - chunk_size) (c_offset c + chunk_size)
                 (c_moved c + chunk_size) true)
              (buffer ++ chunk)
    end.

(** [inode_read_at (inode, buffer_, size, offset)]: the count returned and
    the bytes put in [buffer_]. *)
Definition inode_read_at (inode : Z) (size offset : off_t)
  : M (off_t * list Z) :=
  r <- read_loop (Z.to_nat size) inode (mk_cursor size offset 0 false) [] ;;
  free_buf (c_bounce (fst r)) ;;;
  ret (c_moved (fst r), snd r).

(** The [while (size > 0)] loop of [inode_write_at]. *)
Fixpoint write_loop (fuel : nat) (inode : Z) (buffer : list Z) (c : cursor)
  : M cursor :=
  if c_size c <=? 0 then ret c
  else
    match fuel with
    | O => ret c
    | S fuel' =>
        sector_idx <- byte_to_sector inode (c_offset c) ;;
        let sector_ofs := Z.rem (c_offset c) BLOCK_SECTOR_SIZE in
        len <- inode_length inode ;;
        let sector_left := BLOCK_SECTOR_SIZE - sector_ofs in
        let chunk_size := chunk_size_at len (c_size c) (c_offset c) in
        if chunk_size <=? 0 then ret c
        else if (sector_ofs =? 0) && (chunk_size =? BLOCK_SECTOR_SIZE) then
          chunk <- slice buffer (c_moved c) BLOCK_SECTOR_SIZE ;;
          block_write sector_idx chunk ;;;
          write_loop fuel' inode buffer
            (mk_cursor (c_size c - chunk_size) (c_offset c + chunk_size)
               (c_moved c + chunk_size) (c_bounce c))
        else
          got <- (if c_bounce c then ret true else malloc_buf) ;;
          if negb got then ret c
          else
            bounce <- (if (0 <? sector_ofs) || (chunk_size <? sector_left)
                       then block_read sector_idx
                       else ret zeros) ;;
            chunk <- slice buffer (c_moved c) chunk_size ;;
            bounce' <- splice bounce sector_ofs chunk ;;
            block_write sector_idx bounce' ;;;
            write_loop fuel' inode buffer
              (mk_cursor (c_size c - chunk_size) (c_offset c + chunk_size)
                 (c_moved c + chunk_size) true)
    end.

(** The growth step of [inode_write_at]: [None] when the function goes on
    to the copy loop, [Some 0] when it returns 0.  [inode_alloc] works on
    [&inode->data], so what it leaves in the record stays in the handle. *)
Definition write_grow (inode : Z) (size offset : off_t) : M (option off_t) :=
  len <- inode_length inode ;;
  if len <? offset + size then
    i <- deref inode ;;
    r <- inode_alloc (data i) (offset + size) ;;
    update inode (fun i => set_data i (snd r)) ;;;
    if fst r then
      update inode (fun i => set_data i (set_length (data i) (offset + size))) ;;;
      i <- deref inode ;;
      block_write (sector i) (inode_disk_image (data i)) ;;;
      ret None
    else ret (Some 0)
  else ret None.

(** [inode_write_at (inode, buffer_, size, offset)]. *)
Definition inode_write_at (inode : Z) (buffer : list Z) (size offset : off_t)
  : M off_t :=
  i <- deref inode ;;
  if negb (deny_write_cnt i =? 0) then ret 0
  else
    g <- write_grow inode size offset ;;
    match g with
    | Some n => ret n
    | None =>
        c <- write_loop (Z.to_nat size) inode buffer
               (mk_cursor size offset 0 false) ;;
        free_buf (c_bounce c) ;;;
        ret (c_moved c)
    end.

End Inode.

(** * Vocabulary of the statements *)

(** The world after the sectors of [l] have been released, first to last. *)
Definition released (l : list block_sector_t) (w : world) : world :=
  fold_left (fun w s => log (EvRelease s) (with_free_map w (s :: free_map w)))
    l w.

Definition preserves {A} (R : world -> world -> Prop) (m : M A) : Prop :=
  forall w a w', m w = Ok a w' -> R w w'.

(** The requests [inode_dealloc] makes, in order, for a record [d] of
    [sectors] sectors in world [w]: the direct sectors are released, then
    the indirection block, then, past the single-indirect range, the
    doubly-indirect block is read, its complete children are released, and
    the block itself is released, read again and released again. *)
Definition dealloc_requests (NUM_DIRECT_BLOCKS : Z) (w : world)
    (d : inode_disk) (sectors : Z) : list event :=
  map EvRelease (firstn (Z.to_nat sectors) (direct_blocks d))
  ++ (if NUM_DIRECT_BLOCKS <? sectors
      then [EvRelease (indirect_block d)] else [])
  ++ (if NUM_DIRECT_BLOCKS + NUM_INDIRECT_PTRS <? sectors
      then
        let e := doubly_indirect_block d in
        let children :=
          (sectors - NUM_DIRECT_BLOCKS - NUM_INDIRECT_PTRS)
          / NUM_INDIRECT_PTRS in
        EvRead e
        :: map EvRelease
             (firstn (Z.to_nat children) (block_ptrs_of_image (disk w e)))
        ++ [EvRelease e; EvRead e; EvRelease e]
      else []).

(** [same_opens w w']: the same handles are live, each with its sector and
    its open count, and the table lists them in the same order. *)
Definition same_opens (w w' : world) : Prop :=
  open_inodes w' = open_inodes w /\
  next_ptr w' = next_ptr w /\
  forall p,
    match inodes w p, inodes w' p with
    | Some i, Some i' => sector i' = sector i /\ open_cnt i' = open_cnt i
    | None, None => True
    | _, _ => False
    end.

(** [same_table w w']: the handles and the table are exactly as they were. *)
Definition same_table (w w' : world) : Prop :=
  inodes w' = inodes w /\ open_inodes w' = open_inodes w /\
  next_ptr w' = next_ptr w.

(** [reads_only w w']: the device and the handles are as they were. *)
Definition reads_only (w w' : world) : Prop :=
  disk w' = disk w /\ inodes w' = inodes w.

(** The calls a client of inode.h can make. *)
Inductive call :=
| Create (sec : block_sector_t) (len : off_t) (is_dir : bool)
| Open (sec : block_sector_t)
| Reopen (p : Z)
| Close (p : Z)
| Remove (p : Z)
| ReadAt (p : Z) (size offset : off_t)
| WriteAt (p : Z) (buffer : list Z) (size offset : off_t)
| DenyWrite (p : Z)
| AllowWrite (p : Z).

(** [same_disk w w']: every sector of the device holds what it held. *)
Definition same_disk (w w' : world) : Prop := disk w' = disk w.

(** The calls that are neither [inode_create] nor [inode_write_at]. *)
Definition leaves_device (c : call) : bool :=
  match c with
  | Create _ _ _ | WriteAt _ _ _ _ => false
  | _ => true
  end.

(** [trace_extends w w']: the log of [w'] is the log of [w] with more events
    after it. *)
Definition trace_extends (w w' : world) : Prop :=
  exists t, trace w' = trace w ++ t.

(** Assignments that keep a handle's sector and open count. *)
Definition keeps_opens (f : inode -> inode) : Prop :=
  forall i, sector (f i) = sector i /\ open_cnt (f i) = open_cnt i.

(** How a call, with the pointer it returned, counts for handle [p]. *)
Definition handle_delta (p : Z) (e : call * Z) : Z :=
  match e with
  | (Open _, r) => if r =? p then 1 else 0
  | (Reopen q, _) => if q =? p then 1 else 0
  | (Close q, _) => if q =? p then -1 else 0
  | _ => 0
  end.

(** Opens and reopens of [p] minus closes of [p] in a history. *)
Definition net_opens (p : Z) (h : list (call * Z)) : Z :=
  fold_right (fun e acc => handle_delta p e + acc) 0 h.

(** The table as every sequence of calls keeps it: handle addresses lie
    below [next_ptr], the list holds exactly the live handles, and no two
    live handles are for the same sector. *)
Definition table_ok (w : world) : Prop :=
  0 < next_ptr w /\
  (forall p, inodes w p <> None -> 0 < p < next_ptr w) /\
  (forall p, In p (open_inodes w) <-> inodes w p <> None) /\
  (forall p q i j, inodes w p = Some i -> inodes w q = Some j ->
                   sector i = sector j -> p = q).

Definition counts_ok (w : world) (h : list (call * Z)) : Prop :=
  forall p, p <> 0 ->
    match inodes w p with
    | Some i => open_cnt i = net_opens p h
    | None => net_opens p h = 0
    end.

(** ** The contents of a file, and worlds that differ in the log only *)




(** [only_logs w w']: nothing but the log differs. *)
Definition only_logs (w w' : world) : Prop :=
  disk w' = disk w /\ free_map w' = free_map w /\
  heap_left w' = heap_left w /\ next_ptr w' = next_ptr w /\
  inodes w' = inodes w /\ open_inodes w' = open_inodes w.

(** The world after the sectors of [l] have been taken from the head of the
    free map, each zero-filled as it is taken. *)
Definition taken (l : list block_sector_t) (w : world) : world :=
  fold_left
    (fun w s =>
       log (EvWrite s zeros)
         (with_disk (log (EvAllocate (Some s))
                       (with_free_map w (tl (free_map w))))
            (upd (disk w) s zeros)))
    l w.

(** A log in which every sector obtained from the free map is zero-filled
    by the very next request. *)
Fixpoint zero_filled (t : list event) : Prop :=
  match t with
  | [] => True
  | EvAllocate (Some s) :: rest =>
      (exists rest', rest = EvWrite s zeros :: rest') /\ zero_filled rest
  | _ :: rest => zero_filled rest
  end.


(** [keeps_pointers d d']: the record [d'] has the length, the tag and the
    flag of [d], as many direct pointers, and every pointer that is set in
    [d]. *)
Definition keeps_pointers (d d' : inode_disk) : Prop :=
  length d' = length d /\ magic d' = magic d /\ dir d' = dir d /\
  List.length (direct_blocks d') = List.length (direct_blocks d) /\
  (forall k, nth k (direct_blocks d) 0 <> 0 ->
             nth k (direct_blocks d') 0 = nth k (direct_blocks d) 0) /\
  (indirect_block d <> 0 -> indirect_block d' = indirect_block d) /\
  (doubly_indirect_block d <> 0 ->
   doubly_indirect_block d' = doubly_indirect_block d).

(** Every live handle is open at least once, and its deny-write count is
    not negative. *)
Definition counts_sane (w : world) : Prop :=
  forall p i, inodes w p = Some i -> 1 <= open_cnt i /\ 0 <= deny_write_cnt i.

(** ** Sequences of calls, and the two halves of a growing write *)

Section Interface.

Variable NUM_DIRECT_BLOCKS : Z.
Variable inode_disk_image : inode_disk -> image.
Variable inode_disk_load : image -> inode_disk.

(** One call, with the pointer it returns (0 where it returns none). *)
Definition do_call (c : call) : M Z :=
  match c with
  | Create sec len is_dir =>
      inode_create NUM_DIRECT_BLOCKS inode_disk_image sec len is_dir ;;; ret 0
  | Open sec => inode_open inode_disk_load sec
  | Reopen p => inode_reopen p
  | Close p => inode_close NUM_DIRECT_BLOCKS p ;;; ret 0
  | Remove p => inode_remove p ;;; ret 0
  | ReadAt p size offset =>
      inode_read_at NUM_DIRECT_BLOCKS p size offset ;;; ret 0
  | WriteAt p buffer size offset =>
      inode_write_at NUM_DIRECT_BLOCKS inode_disk_image p buffer size offset ;;;
      ret 0
  | DenyWrite p => inode_deny_write p ;;; ret 0
  | AllowWrite p => inode_allow_write p ;;; ret 0
  end.

(** A sequence of calls, with its history. *)
Fixpoint run (cs : list call) : M (list (call * Z)) :=
  match cs with
  | [] => ret []
  | c :: cs' =>
      r <- do_call c ;;
      h <- run cs' ;;
      ret ((c, r) :: h)
  end.

(** What is left of [inode_write_at] once the growth step is over. *)
Definition write_copy (p : Z) (buffer : list Z) (size offset : off_t)
  : M off_t :=
  c <- write_loop NUM_DIRECT_BLOCKS (Z.to_nat size) p buffer
         (mk_cursor size offset 0 false) ;;
  free_buf (c_bounce c) ;;;
  ret (c_moved c).

(** The world in which the copy loop starts after a successful growth: the
    handle holds the grown record with its new length, and that record has
    been written to the inode's sector. *)
Definition grown_world (w1 : world) (p : Z) (i : inode) (d : inode_disk)
    (len : off_t) : world :=
  let record := set_length d len in
  log (EvWrite (sector i) (inode_disk_image record))
    (with_disk
       (with_inodes w1
          (upd (upd (inodes w1) p (Some (set_data i d))) p
             (Some (set_data i record))))
       (upd (disk w1) (sector i) (inode_disk_image record))).

End Interface.

(** * Worked inputs *)

(** A world for the worked examples: every sector reads as zeros, sectors
    2 .. 601 are available, the heap has room for eight objects and no inode
    is open. *)
Definition example_world : world :=
  mk_world (fun _ => zeros) (map Z.of_nat (seq 2 600)) 8 1 (fun _ => None) [] [].

(** A handle at address 1 for a 200000-byte file whose record is in sector
    1, with 123 direct pointers. *)
Definition example_big_inode : inode :=
  mk_inode 1 1 0 false
    (mk_inode_disk 200000 INODE_MAGIC false (map Z.of_nat (seq 10 123)) 5 6).

Definition example_big_world : world :=
  with_open_inodes
    (with_inodes (with_next_ptr example_world 2)
       (upd (fun _ => None) 1 (Some example_big_inode)))
    [1].

(** A record for a 63488-byte file: 123 direct sectors 10 .. 132 and one
    data sector reached through the indirection block in sector 5. *)
Definition example_indirect_record : inode_disk :=
  mk_inode_disk 63488 INODE_MAGIC false (map Z.of_nat (seq 10 123)) 5 0.

(** The same world with that indirection block on the device: its first
    entry is data sector 200. *)
Definition example_indirect_world : world :=
  with_free_map
    (with_disk example_world
       (upd (disk example_world) 5 (image_of_block_ptrs (200 :: repeat 0 127))))
    [].

(** One layout of the record that fills the sector exactly, with 123 direct
    pointers: length, magic, the directory flag, the direct pointers and the
    two indirection pointers, one 32-bit word each. *)
Definition example_image (d : inode_disk) : image :=
  flat_map word_bytes
    (length d :: magic d :: (if dir d then 1 else 0)
     :: firstn 123 (direct_blocks d ++ repeat 0 123)
     ++ [indirect_block d; doubly_indirect_block d]).

Definition example_load (img : image) : inode_disk :=
  mk_inode_disk (image_word img 0) (image_word img 1)
    (negb (image_word img 2 =? 0)) (map (image_word img) (seq 3 123))
    (image_word img 126) (image_word img 127).

(** A handle at address 1 for a 1000-byte file in direct sectors 10 and
    11. *)
Definition example_small_inode : inode :=
  mk_inode 1 1 0 false
    (mk_inode_disk 1000 INODE_MAGIC false (map Z.of_nat (seq 10 123)) 0 0).

Definition example_small_world : world :=
  with_open_inodes
    (with_inodes (with_next_ptr example_world 2)
       (upd (fun _ => None) 1 (Some example_small_inode)))
    [1].

(** Two opens of sector 1, a deny-write through the second pointer, a close
    and two opens of sector 7. *)
Definition example_calls : list call :=
  [Open 1; Open 1; DenyWrite 1; Close 1; Open 7; Reopen 2].



(** The world of the 1000-byte file with its handle marked removed. *)
Definition example_removed_world : world :=
  with_inodes example_small_world
    (upd (fun _ => None) 1 (Some (set_removed example_small_inode true))).

(** The same world with the handle open twice. *)
Definition example_shared_world : world :=
  with_inodes example_small_world
    (upd (fun _ => None) 1 (Some (set_open_cnt example_small_inode 2))).

(** The world of the 200000-byte file with the length in its handle set to
    9000000, more than 123 direct, 128 indirect and 16384 doubly-indirect
    pointers address. *)
Definition example_huge_world : world :=
  with_inodes example_big_world
    (upd (fun _ => None) 1
       (Some (set_data example_big_inode
                (set_length (data example_big_inode) 9000000)))).

(** * Properties *)

(** ** Shared facts *)

Lemma block_ptrs_of_image_length (img : image) :
  List.length (block_ptrs_of_image img) = 128%nat.
Proof.
  unfold block_ptrs_of_image. now rewrite length_map, length_seq.
Qed.

Lemma array_get_in_range (a : list Z) (i : Z) (w : world) :
  0 <= i < Z.of_nat (List.length a) ->
  array_get a i w = Ok (nth (Z.to_nat i) a 0) w.
Proof.
  intros [H0 H1]. unfold array_get.
  apply Z.leb_le in H0. apply Z.ltb_lt in H1. now rewrite H0, H1.
Qed.

Lemma array_get_outside (a : list Z) (i : Z) (w : world) :
  Z.of_nat (List.length a) <= i ->
  array_get a i w = Crash MemoryFault.
Proof.
  intros H. unfold array_get.
  apply Z.ltb_ge in H. rewrite H. now rewrite andb_false_r.
Qed.

Lemma bind_Ok {A B} (m : M A) (k : A -> M B) (w w' : world) (a : A) :
  m w = Ok a w' -> bind m k w = k a w'.
Proof. intros H. unfold bind. now rewrite H. Qed.

Lemma bind_Crash {A B} (m : M A) (k : A -> M B) (w : world) (f : fault) :
  m w = Crash f -> bind m k w = Crash f.
Proof. intros H. unfold bind. now rewrite H. Qed.

Lemma array_get_middle (done tl : list Z) (x : Z) (w : world) :
  array_get (done ++ x :: tl) (Z.of_nat (List.length done)) w = Ok x w.
Proof.
  rewrite array_get_in_range.
  - rewrite Nat2Z.id, nth_middle. reflexivity.
  - rewrite length_app. cbn [List.length]. lia.
Qed.

Lemma list_set_middle (done tl : list Z) (x v : Z) :
  list_set (done ++ x :: tl) (List.length done) v = done ++ v :: tl.
Proof. induction done as [|h done IH]; simpl; congruence. Qed.

Lemma array_set_middle (done tl : list Z) (x v : Z) (w : world) :
  array_set (done ++ x :: tl) (Z.of_nat (List.length done)) v w
  = Ok (done ++ v :: tl) w.
Proof.
  unfold array_set.
  assert (H : (0 <=? Z.of_nat (List.length done))
              && (Z.of_nat (List.length done)
                  <? Z.of_nat (List.length (done ++ x :: tl))) = true).
  { apply andb_true_intro. split; [apply Z.leb_le; lia|].
    apply Z.ltb_lt. rewrite length_app. cbn [List.length]. lia. }
  rewrite H, Nat2Z.id, list_set_middle. reflexivity.
Qed.

(** ** Address translation *)

Section Translation.

Variable NUM_DIRECT_BLOCKS : Z.
Hypothesis NUM_DIRECT_BLOCKS_nonneg : 0 <= NUM_DIRECT_BLOCKS.

(** At or past the end of the data the translation reads nothing and
    answers [(block_sector_t) -1]. *)
Lemma byte_to_sector_past_end (w : world) (p : Z) (i : inode) (pos : off_t) :
  p <> 0 -> inodes w p = Some i -> length (data i) <= pos ->
  byte_to_sector NUM_DIRECT_BLOCKS p pos w = Ok NOT_FOUND w.
Proof.
  intros Hp Hi Hpos. unfold byte_to_sector, bind, ASSERT, deref.
  apply Z.eqb_neq in Hp. rewrite Hp. cbn. rewrite Hi.
  apply Z.ltb_ge in Hpos. now rewrite Hpos.
Qed.

(** The index the source forms for the inner block, [pos - (indirect_idx) %
    NUM_INDIRECT_PTRS], is never below 128 in the double-indirect range. *)
Lemma inner_index_beyond_block (idx : Z) :
  NUM_DIRECT_BLOCKS + NUM_INDIRECT_PTRS <= idx ->
  128 <= idx - Z.rem (NUM_DIRECT_BLOCKS + NUM_INDIRECT_PTRS) NUM_INDIRECT_PTRS.
Proof.
  unfold NUM_INDIRECT_PTRS. intros H.
  rewrite Z.rem_mod_nonneg by lia.
  pose proof (Z.mod_pos_bound (NUM_DIRECT_BLOCKS + 128) 128 ltac:(lia)).
  assert ((NUM_DIRECT_BLOCKS + 128) mod 128 <= NUM_DIRECT_BLOCKS).
  { replace (NUM_DIRECT_BLOCKS + 128) with (NUM_DIRECT_BLOCKS + 1 * 128) by lia.
    rewrite Z.mod_add by lia. apply Z.mod_le; lia. }
  lia.
Qed.

(** In the double-indirect range the inner block is indexed outside its
    128 entries. *)
Lemma byte_to_sector_inner_access_outside
    (w : world) (p : Z) (i : inode) (pos : off_t) :
  p <> 0 -> inodes w p = Some i ->
  pos < length (data i) ->
  NUM_DIRECT_BLOCKS + NUM_INDIRECT_PTRS <= Z.quot pos BLOCK_SECTOR_SIZE
    < NUM_DIRECT_BLOCKS + NUM_INDIRECT_PTRS + NUM_DBL_INDIRECT_PTRS ->
  byte_to_sector NUM_DIRECT_BLOCKS p pos w = Crash MemoryFault.
Proof.
  intros Hp Hi Hlen [Hlo Hhi].
  unfold byte_to_sector, bind, ASSERT, deref.
  apply Z.eqb_neq in Hp. rewrite Hp. cbn -[Z.quot Z.rem]. rewrite Hi.
  apply Z.ltb_lt in Hlen. rewrite Hlen.
  assert (H1 : (Z.quot pos BLOCK_SECTOR_SIZE <? NUM_DIRECT_BLOCKS) = false)
    by (apply Z.ltb_ge; unfold NUM_INDIRECT_PTRS in *; lia).
  assert (H2 : (Z.quot pos BLOCK_SECTOR_SIZE
                <? NUM_DIRECT_BLOCKS + NUM_INDIRECT_PTRS) = false)
    by (apply Z.ltb_ge; lia).
  assert (H3 : (Z.quot pos BLOCK_SECTOR_SIZE
                <? NUM_DIRECT_BLOCKS + NUM_INDIRECT_PTRS
                   + NUM_DBL_INDIRECT_PTRS) = true)
    by (apply Z.ltb_lt; lia).
  rewrite H1. unfold malloc_buf.
  destruct (heap_left w) as [|n]; rewrite H2, H3; [reflexivity|].
  unfold block_read_ptrs, block_read, bind, ret.
  rewrite array_get_in_range.
  2:{ rewrite block_ptrs_of_image_length.
      pose proof (Z.quot_pos (Z.quot pos BLOCK_SECTOR_SIZE
                              - (NUM_DIRECT_BLOCKS + NUM_INDIRECT_PTRS))
                    NUM_INDIRECT_PTRS ltac:(lia) ltac:(unfold NUM_INDIRECT_PTRS; lia)).
      split; [assumption|].
      apply Z.quot_lt_upper_bound; unfold NUM_INDIRECT_PTRS, NUM_DBL_INDIRECT_PTRS in *; lia. }
  rewrite array_get_outside; [reflexivity|].
  rewrite block_ptrs_of_image_length.
  pose proof (inner_index_beyond_block _ Hlo). lia.
Qed.

(** C4.  At or past [length] the translation answers NOT_FOUND.  At every
    position of the double-indirect range the code indexes the inner block
    at [pos - (indirect_idx % 128)], which is 128 or more, where the entry to
    return is the one at [(sector_index - N_DIRECT - 128) mod 128], below
    128; the access is outside the block and undefined. *)
Theorem byte_to_sector_double_indirect_faults
    (w : world) (p : Z) (i : inode) (pos : off_t) :
  p <> 0 -> inodes w p = Some i ->
  (length (data i) <= pos ->
   byte_to_sector NUM_DIRECT_BLOCKS p pos w = Ok NOT_FOUND w) /\
  (pos < length (data i) ->
   NUM_DIRECT_BLOCKS + NUM_INDIRECT_PTRS <= Z.quot pos BLOCK_SECTOR_SIZE
     < NUM_DIRECT_BLOCKS + NUM_INDIRECT_PTRS + NUM_DBL_INDIRECT_PTRS ->
   byte_to_sector NUM_DIRECT_BLOCKS p pos w = Crash MemoryFault /\
   ((Z.quot pos BLOCK_SECTOR_SIZE - NUM_DIRECT_BLOCKS - 128) mod 128 < 128) /\
   (128 <= Z.quot pos BLOCK_SECTOR_SIZE
           - Z.rem (NUM_DIRECT_BLOCKS + NUM_INDIRECT_PTRS) NUM_INDIRECT_PTRS)).
Proof.
  intros Hp Hi. split.
  - intros Hpos. now apply byte_to_sector_past_end with (i := i).
  - intros Hpos Hrange. split.
    + now apply byte_to_sector_inner_access_outside with (i := i).
    + split.
      * apply Z.mod_pos_bound. lia.
      * apply inner_index_beyond_block. lia.
Qed.

End Translation.

Lemma byte_to_sector_double_indirect_faults_witness :
  byte_to_sector 123 1 200000 example_big_world = Ok NOT_FOUND example_big_world
  /\ byte_to_sector 123 1 128512 example_big_world = Crash MemoryFault.
Proof.
  destruct (byte_to_sector_double_indirect_faults 123 ltac:(lia)
              example_big_world 1 example_big_inode 200000
              ltac:(lia) eq_refl) as [Hpast _].
  destruct (byte_to_sector_double_indirect_faults 123 ltac:(lia)
              example_big_world 1 example_big_inode 128512
              ltac:(lia) eq_refl) as [_ Hin].
  split.
  - apply Hpast. simpl. lia.
  - apply Hin.
    + simpl. lia.
    + vm_compute. intuition discriminate.
Defined.

(** ** Release of the block tree *)

Lemma size_sub_exact (a b : Z) :
  0 <= b <= a -> a < 4294967296 -> size_sub a b = a - b.
Proof.
  intros H Ha. unfold size_sub, to_size_t. apply Z.mod_small. lia.
Qed.

Lemma bytes_to_sectors_range (len : off_t) :
  0 <= bytes_to_sectors len < 4294967296.
Proof.
  unfold bytes_to_sectors, to_size_t. apply Z.mod_pos_bound. lia.
Qed.

Lemma released_trace (l : list block_sector_t) (w : world) :
  trace (released l w) = trace w ++ map EvRelease l.
Proof.
  revert w. induction l as [|s l IH]; intros w; simpl.
  - now rewrite app_nil_r.
  - unfold released in IH. rewrite IH. simpl. now rewrite <- app_assoc.
Qed.

Lemma released_free_map (l : list block_sector_t) (w : world) :
  free_map (released l w) = rev l ++ free_map w.
Proof.
  revert w. induction l as [|s l IH]; intros w; simpl.
  - reflexivity.
  - unfold released in IH. rewrite IH. simpl. now rewrite <- app_assoc.
Qed.

Lemma released_disk (l : list block_sector_t) (w : world) :
  disk (released l w) = disk w.
Proof.
  revert w. induction l as [|s l IH]; intros w; simpl.
  - reflexivity.
  - unfold released in IH. now rewrite IH.
Qed.

Lemma released_app (l1 l2 : list block_sector_t) (w : world) :
  released (l1 ++ l2) w = released l2 (released l1 w).
Proof. unfold released. now rewrite fold_left_app. Qed.

Section Release.

Variable NUM_DIRECT_BLOCKS : Z.

(** The direct loop releases the entries it walks, in order, and takes one
    off [sector_size] for each. *)
Lemma dealloc_direct_spec (todo : list block_sector_t) :
  forall (done tl : list block_sector_t) (d : inode_disk) (sector_size : Z)
         (w : world),
    direct_blocks d = done ++ todo ++ tl ->
    Z.of_nat (List.length todo) <= sector_size < 4294967296 ->
    dealloc_direct (List.length todo) (Z.of_nat (List.length done)) d
      sector_size w
    = Ok (sector_size - Z.of_nat (List.length todo)) (released todo w).
Proof.
  induction todo as [|s todo IH]; intros done tl d sector_size w Hd Hs.
  - simpl. unfold ret. f_equal. lia.
  - cbn [dealloc_direct List.length].
    rewrite (bind_Ok _ _ w w s).
    2:{ rewrite Hd. cbn [app]. apply array_get_middle. }
    rewrite (bind_Ok _ _ w (released [s] w) tt) by reflexivity.
    replace (Z.of_nat (List.length done) + 1)
      with (Z.of_nat (List.length (done ++ [s])))
      by (rewrite length_app; cbn [List.length]; lia).
    cbn [List.length] in Hs.
    rewrite size_sub_exact by lia.
    rewrite (IH (done ++ [s]) tl).
    + f_equal. lia.
    + rewrite Hd, <- app_assoc. reflexivity.
    + lia.
Qed.

(** The entry loop at height 2: each child is handed to the height-1 call,
    which releases the child block and returns. *)
Lemma dealloc_entries_height2 (todo : list block_sector_t) :
  forall (done tl : list block_sector_t) (sector_size : Z) (w : world),
    128 * Z.of_nat (List.length todo) <= sector_size < 4294967296 ->
    dealloc_entries (fun e s => inode_dealloc_iblock e s 1) 128
      (List.length todo) (Z.of_nat (List.length done))
      (done ++ todo ++ tl) sector_size w
    = Ok (sector_size - 128 * Z.of_nat (List.length todo)) (released todo w).
Proof.
  induction todo as [|s todo IH]; intros done tl sector_size w Hs.
  - simpl. unfold ret. f_equal. lia.
  - cbn [dealloc_entries List.length]. cbn [List.length] in Hs.
    assert (E : (sector_size <? 128) = false) by (apply Z.ltb_ge; lia).
    rewrite E.
    rewrite (bind_Ok _ _ w w s) by (cbn [app]; apply array_get_middle).
    rewrite (bind_Ok _ _ w (released [s] w) tt) by reflexivity.
    replace (Z.of_nat (List.length done) + 1)
      with (Z.of_nat (List.length (done ++ [s])))
      by (rewrite length_app; cbn [List.length]; lia).
    rewrite size_sub_exact by lia.
    replace (done ++ (s :: todo) ++ tl) with ((done ++ [s]) ++ todo ++ tl)
      by (rewrite <- app_assoc; reflexivity).
    rewrite (IH (done ++ [s]) tl) by lia.
    f_equal. lia.
Qed.

(** A height-2 call: the block [e] is read, its first [count / 128]
    children are released, then [e] is released, read again and released
    again. *)
Lemma inode_dealloc_iblock_height2 (e : block_sector_t) (count : Z)
    (w : world) :
  0 <= count <= NUM_DBL_INDIRECT_PTRS ->
  inode_dealloc_iblock e count 2 w
  = Ok tt (released [e]
             (log (EvRead e)
                (released [e]
                   (released
                      (firstn (Z.to_nat (count / 128))
                         (block_ptrs_of_image (disk w e)))
                      (log (EvRead e) w))))).
Proof.
  intros Hc. unfold NUM_DBL_INDIRECT_PTRS in Hc.
  set (ptrs := block_ptrs_of_image (disk w e)).
  set (n := Z.to_nat (count / 128)).
  assert (Hq : 0 <= count / 128 <= 128).
  { split; [apply Z.div_pos; lia|].
    apply Z.div_le_upper_bound; lia. }
  assert (Hlen : List.length (firstn n ptrs) = n).
  { rewrite length_firstn. unfold ptrs.
    rewrite block_ptrs_of_image_length. lia. }
  assert (Hmod : 0 <= count - 128 * (count / 128) < 128).
  { pose proof (Z.mod_pos_bound count 128 ltac:(lia)).
    rewrite Z.mod_eq in H by lia. lia. }
  cbn [inode_dealloc_iblock].
  assert (L : dealloc_level (fun e0 s => inode_dealloc_iblock e0 s 1) e 1
                count 2 w
              = Ok (128, count - 128 * (count / 128))
                  (released [e] (released (firstn n ptrs)
                                   (log (EvRead e) w)))).
  { unfold dealloc_level. cbn [Nat.eqb]. unfold NUM_INDIRECT_PTRS.
    unfold block_read_ptrs.
    rewrite (bind_Ok _ _ w (log (EvRead e) w) ptrs) by reflexivity.
    fold n.
    pose proof (dealloc_entries_height2 (firstn n ptrs) [] (skipn n ptrs)
                  count (log (EvRead e) w)) as Hloop.
    rewrite Hlen in Hloop. cbn [app List.length Z.of_nat] in Hloop.
    rewrite firstn_skipn in Hloop.
    rewrite (bind_Ok _ _ _ _ _ (Hloop ltac:(unfold n; lia))).
    rewrite (bind_Ok _ _ _ (released [e] (released (firstn n ptrs)
                                            (log (EvRead e) w))) tt)
      by reflexivity.
    unfold ret. do 3 f_equal. unfold n. lia. }
  rewrite (bind_Ok _ _ _ _ _ L). cbn [fst snd dealloc_iblock_while].
  rewrite (bind_Ok _ _ _ _ (128, count - 128 * (count / 128)))
    by reflexivity.
  cbn [fst snd]. unfold dealloc_iblock_tail, block_read_ptrs.
  erewrite bind_Ok by (erewrite bind_Ok by reflexivity; reflexivity).
  rewrite (Z.div_small (count - 128 * (count / 128)) 128) by lia.
  cbn [Z.to_nat release_entries].
  rewrite (bind_Ok _ _ _ _ tt) by reflexivity.
  reflexivity.
Qed.

(** C1, the code on every record of non-negative length within the
    addressable capacity.  [inode_dealloc] succeeds, changes no sector, and
    makes exactly the requests of [dealloc_requests]: it releases the direct
    sectors and the indirection block without reading that block, so the
    data sectors under it are never released; past the single-indirect range
    it releases the complete children of the doubly-indirect block, again
    without reading them, and releases the doubly-indirect block itself
    twice. *)
Theorem inode_dealloc_releases (d : inode_disk) (w : world) :
  0 <= NUM_DIRECT_BLOCKS ->
  List.length (direct_blocks d) = Z.to_nat NUM_DIRECT_BLOCKS ->
  0 <= length d ->
  bytes_to_sectors (length d)
  <= NUM_DIRECT_BLOCKS + NUM_INDIRECT_PTRS + NUM_DBL_INDIRECT_PTRS ->
  exists w',
    inode_dealloc NUM_DIRECT_BLOCKS d w = Ok true w' /\
    trace w' = trace w
               ++ dealloc_requests NUM_DIRECT_BLOCKS w d
                    (bytes_to_sectors (length d)) /\
    disk w' = disk w.
Proof.
  intros HN Hlen H0 Hcap.
  pose proof (bytes_to_sectors_range (length d)) as HT.
  set (T := bytes_to_sectors (length d)) in *.
  unfold NUM_INDIRECT_PTRS, NUM_DBL_INDIRECT_PTRS in *.
  set (limit := if T <? NUM_DIRECT_BLOCKS then T else NUM_DIRECT_BLOCKS).
  assert (Hlimit : 0 <= limit <= T /\ limit <= NUM_DIRECT_BLOCKS).
  { unfold limit. destruct (T <? NUM_DIRECT_BLOCKS) eqn:E;
      [apply Z.ltb_lt in E | apply Z.ltb_ge in E]; lia. }
  set (todo := firstn (Z.to_nat limit) (direct_blocks d)).
  assert (Htodo : List.length todo = Z.to_nat limit).
  { unfold todo. rewrite length_firstn, Hlen. lia. }
  assert (Hsame : firstn (Z.to_nat T) (direct_blocks d) = todo).
  { unfold todo, limit. destruct (T <? NUM_DIRECT_BLOCKS) eqn:E;
      [reflexivity|]. apply Z.ltb_ge in E.
    rewrite !firstn_all2 by (rewrite Hlen; lia). reflexivity. }
  set (w1 := released todo w).
  assert (Step1 : dealloc_direct (Z.to_nat limit) 0 d T w
                  = Ok (T - limit) w1).
  { pose proof (dealloc_direct_spec todo []
                  (skipn (Z.to_nat limit) (direct_blocks d)) d T w) as Hloop.
    rewrite Htodo in Hloop. cbn [app List.length Z.of_nat] in Hloop.
    rewrite Hloop.
    - f_equal. lia.
    - unfold todo. now rewrite firstn_skipn.
    - lia. }
  set (ind := if T - limit <? 128 then T - limit else 128).
  assert (Hind : 0 <= ind <= T - limit /\ ind <= 128).
  { unfold ind. destruct (T - limit <? 128) eqn:E;
      [apply Z.ltb_lt in E | apply Z.ltb_ge in E]; lia. }
  set (w2 := if NUM_DIRECT_BLOCKS <? T
             then released [indirect_block d] w1 else w1).
  assert (Step2 : (if 0 <? ind
                   then inode_dealloc_iblock (indirect_block d) ind 1
                   else ret tt) w1 = Ok tt w2).
  { unfold w2, ind, limit.
    destruct (T <? NUM_DIRECT_BLOCKS) eqn:E1;
      [apply Z.ltb_lt in E1 | apply Z.ltb_ge in E1].
    - rewrite Z.sub_diag. cbn.
      assert (E2 : (NUM_DIRECT_BLOCKS <? T) = false) by (apply Z.ltb_ge; lia).
      now rewrite E2.
    - destruct (NUM_DIRECT_BLOCKS <? T) eqn:E2;
        [apply Z.ltb_lt in E2 | apply Z.ltb_ge in E2].
      + assert (E3 : (0 <? (if T - NUM_DIRECT_BLOCKS <? 128
                            then T - NUM_DIRECT_BLOCKS else 128)) = true).
        { apply Z.ltb_lt. destruct (T - NUM_DIRECT_BLOCKS <? 128) eqn:E;
            [apply Z.ltb_lt in E | apply Z.ltb_ge in E]; lia. }
        rewrite E3. reflexivity.
      + assert (T = NUM_DIRECT_BLOCKS) by lia. subst T.
        rewrite H, Z.sub_diag. reflexivity. }
  set (c := T - limit - ind).
  assert (Hc : 0 <= c <= 16384 /\
               (NUM_DIRECT_BLOCKS + 128 <? T) = (0 <? c) /\
               (0 < c -> c = T - NUM_DIRECT_BLOCKS - 128)).
  { unfold c, ind, limit.
    destruct (T <? NUM_DIRECT_BLOCKS) eqn:E1;
      [apply Z.ltb_lt in E1 | apply Z.ltb_ge in E1].
    - rewrite Z.sub_diag. cbn. split; [lia|]. split; [|lia].
      apply Z.ltb_ge. lia.
    - destruct (T - NUM_DIRECT_BLOCKS <? 128) eqn:E2;
        [apply Z.ltb_lt in E2 | apply Z.ltb_ge in E2].
      + rewrite Z.sub_diag. split; [lia|]. split; [|lia].
        cbn. apply Z.ltb_ge. lia.
      + split; [lia|]. split; [|lia].
        destruct (0 <? T - NUM_DIRECT_BLOCKS - 128) eqn:E3;
          [apply Z.ltb_lt in E3; apply Z.ltb_lt
          | apply Z.ltb_ge in E3; apply Z.ltb_ge]; lia. }
  destruct Hc as (Hc1 & Hc2 & Hc3).
  set (e := doubly_indirect_block d) in *.
  set (w3 := if 0 <? c
             then released [e]
                    (log (EvRead e)
                       (released [e]
                          (released
                             (firstn (Z.to_nat (c / 128))
                                (block_ptrs_of_image (disk w2 e)))
                             (log (EvRead e) w2))))
             else w2).
  assert (Step3 : (if 0 <? (if c <? 16384 then c else 16384)
                   then inode_dealloc_iblock e
                          (if c <? 16384 then c else 16384) 2
                   else ret tt) w2 = Ok tt w3).
  { assert (E : (if c <? 16384 then c else 16384) = c).
    { destruct (c <? 16384) eqn:E; [reflexivity|].
      apply Z.ltb_ge in E. lia. }
    rewrite E. unfold w3. destruct (0 <? c); [|reflexivity].
    apply inode_dealloc_iblock_height2. unfold NUM_DBL_INDIRECT_PTRS. lia. }
  exists w3. split; [|split].
  - unfold inode_dealloc. fold T. fold limit.
    assert (E0 : (length d <? 0) = false) by (apply Z.ltb_ge; lia).
    rewrite E0. rewrite (bind_Ok _ _ _ _ _ Step1).
    unfold NUM_INDIRECT_PTRS, NUM_DBL_INDIRECT_PTRS. fold ind.
    rewrite (bind_Ok _ _ _ _ _ Step2).
    rewrite size_sub_exact by lia. fold c. fold e.
    rewrite (bind_Ok _ _ _ _ _ Step3). reflexivity.
  - assert (D2 : disk w2 = disk w).
    { unfold w2, w1. destruct (NUM_DIRECT_BLOCKS <? T);
        rewrite ?released_disk; reflexivity. }
    assert (T2 : trace w2 = trace w ++ map EvRelease todo
                            ++ (if NUM_DIRECT_BLOCKS <? T
                                then [EvRelease (indirect_block d)] else [])).
    { unfold w2, w1. destruct (NUM_DIRECT_BLOCKS <? T);
        rewrite !released_trace.
      - now rewrite <- app_assoc.
      - now rewrite app_nil_r. }
    unfold dealloc_requests. fold e. rewrite Hsame.
    unfold NUM_INDIRECT_PTRS. rewrite Hc2. unfold w3.
    destruct (0 <? c) eqn:Ec.
    + apply Z.ltb_lt in Ec. rewrite <- (Hc3 Ec).
      rewrite released_trace. cbn [trace log].
      rewrite !released_trace. cbn [trace log]. rewrite T2, D2.
      cbn [map]. rewrite <- !app_assoc. cbn [app]. reflexivity.
    + rewrite T2. now rewrite app_nil_r.
  - unfold w3, w2, w1.
    destruct (0 <? c); destruct (NUM_DIRECT_BLOCKS <? T);
      cbn [disk log]; rewrite ?released_disk; cbn [disk log];
      rewrite ?released_disk; cbn [disk log]; rewrite ?released_disk;
      reflexivity.
Qed.

End Release.

Lemma inode_dealloc_releases_witness :
  exists w',
    inode_dealloc 123 example_indirect_record example_indirect_world
    = Ok true w' /\
    trace w' = trace example_indirect_world
               ++ dealloc_requests 123 example_indirect_world
                    example_indirect_record
                    (bytes_to_sectors (length example_indirect_record)) /\
    disk w' = disk example_indirect_world.
Proof.
  apply (inode_dealloc_releases 123 example_indirect_record
           example_indirect_world).
  - lia.
  - reflexivity.
  - simpl. lia.
  - vm_compute. intuition discriminate.
Defined.

(** At height 2 the doubly-indirect block is released inside the loop and
    again after it, and of a full child only the child block is released:
    here block 6 has one child, block 7, whose 128 data sectors 300 .. 427
    are not released. *)
Example inode_dealloc_iblock_height2_releases_block_twice :
  match inode_dealloc_iblock 6 128 2
          (with_disk example_world
             (upd (upd (disk example_world) 6
                     (image_of_block_ptrs (7 :: repeat 0 127)))
                7 (image_of_block_ptrs (map Z.of_nat (seq 300 128)))))
  with
  | Ok _ w' =>
      trace w' = [EvRead 6; EvRelease 7; EvRelease 6; EvRead 6; EvRelease 6]
  | Crash _ => False
  end.
Proof. vm_compute. reflexivity. Qed.

(** On that input sector 200 is reachable from the record and is not given
    back to the free map. *)
Example inode_dealloc_leaf_200_not_released :
  nth 0 (block_ptrs_of_image (disk example_indirect_world 5)) 0 = 200 /\
  match inode_dealloc 123 example_indirect_record example_indirect_world with
  | Ok r w' => r = true /\ existsb (Z.eqb 200) (free_map w') = false
  | Crash _ => False
  end.
Proof. vm_compute. auto. Qed.

(** ** Growth of the block tree *)

Lemma block_ptrs_of_zeros : block_ptrs_of_image zeros = repeat 0 128%nat.
Proof. vm_compute. reflexivity. Qed.

Lemma upd_same {A} (f : Z -> A) (k : Z) (v : A) : upd f k v k = v.
Proof. unfold upd. now rewrite Z.eqb_refl. Qed.

Lemma upd_other {A} (f : Z -> A) (k k' : Z) (v : A) :
  k' <> k -> upd f k v k' = f k'.
Proof. intros H. unfold upd. apply Z.eqb_neq in H. now rewrite H. Qed.

(** At height 2 with fewer than 128 entries to cover, the outer loop runs
    [count / 128 = 0] times: the call takes the block itself from the free
    map, zero-fills it and reports success; the first outer entry, which is
    to hold the partial child, is still 0 and no child block or data sector
    was requested. *)
Lemma alloc_iblock_height2_below_128
    (w : world) (f : block_sector_t) (rest : list block_sector_t) (count : Z) :
  free_map w = f :: rest -> f <> 0 -> 0 < count < NUM_INDIRECT_PTRS ->
  exists w',
    inode_alloc_iblock 0 count 2 w = Ok (true, f) w' /\
    nth 0 (block_ptrs_of_image (disk w' f)) 0 = 0 /\
    free_map w' = rest /\
    trace w' = trace w
               ++ [EvAllocate (Some f); EvWrite f zeros; EvRead f; EvRead f].
Proof.
  intros Hf Hnz [Hc0 Hc1]. unfold NUM_INDIRECT_PTRS in Hc1.
  assert (Hlim : count / 128 = 0) by (apply Z.div_small; lia).
  apply Z.eqb_neq in Hnz.
  eexists. split.
  - unfold inode_alloc_iblock.
    cbn [alloc_iblock_while Nat.eqb]. unfold NUM_INDIRECT_PTRS.
    rewrite Hlim.
    unfold bind, free_map_allocate, block_write, block_read_ptrs, block_read,
      ret.
    repeat (cbn -[zeros block_ptrs_of_image Z.div];
            rewrite ?Hf, ?Hnz, ?Hlim).
    reflexivity.
  - cbn -[zeros block_ptrs_of_image]. rewrite upd_same, block_ptrs_of_zeros.
    repeat split. now rewrite <- !app_assoc.
Qed.

(** When the free map has nothing left and the slot of a doubly-indirect
    block is still 0, the result of [free_map_allocate] for the block itself
    is not looked at, sector 0 is zero-filled in its place, and with fewer
    than 128 entries to cover the call reports success. *)
Lemma alloc_iblock_height2_no_sector_left
    (w : world) (count : Z) :
  free_map w = [] -> 0 <= count < NUM_INDIRECT_PTRS ->
  exists w',
    inode_alloc_iblock 0 count 2 w = Ok (true, 0) w' /\
    free_map w' = [] /\
    disk w' 0 = zeros /\
    trace w' = trace w
               ++ [EvAllocate None; EvWrite 0 zeros; EvRead 0;
                   EvAllocate None; EvWrite 0 zeros; EvRead 0].
Proof.
  intros Hf [Hc0 Hc1]. unfold NUM_INDIRECT_PTRS in Hc1.
  assert (Hlim : count / 128 = 0) by (apply Z.div_small; lia).
  eexists. split.
  - unfold inode_alloc_iblock.
    cbn [alloc_iblock_while Nat.eqb]. unfold NUM_INDIRECT_PTRS.
    rewrite Hlim.
    unfold bind, free_map_allocate, block_write, block_read_ptrs, block_read,
      ret.
    repeat (cbn -[zeros block_ptrs_of_image Z.div];
            rewrite ?Hf, ?Hlim).
    reflexivity.
  - cbn -[zeros block_ptrs_of_image].
    repeat split; [assumption|]. now rewrite <- !app_assoc.
Qed.

(** *** Growth of a fresh record *)

Lemma free_map_allocate_some (w : world) (f : block_sector_t)
    (rest : list block_sector_t) :
  free_map w = f :: rest ->
  free_map_allocate w
  = Ok (Some f) (log (EvAllocate (Some f)) (with_free_map w rest)).
Proof. intros H. unfold free_map_allocate. now rewrite H. Qed.

(** The direct loop over slots that are all empty, with a sector in the free
    map for each and more sectors to place after them: it fills the slots
    from the head of the free map and falls through. *)
Lemma alloc_direct_fresh (n : nat) :
  forall (done fs rest : list block_sector_t) (d : inode_disk) (ss : Z)
         (w : world),
    direct_blocks d = done ++ repeat 0 n ->
    free_map w = fs ++ rest -> List.length fs = n ->
    Z.of_nat n < ss < 4294967296 ->
    exists w',
      alloc_direct n (Z.of_nat (List.length done)) d ss w
      = Ok (Fell (set_direct_blocks d (done ++ fs), ss - Z.of_nat n)) w' /\
      free_map w' = rest.
Proof.
  induction n as [|n IH]; intros done fs rest d ss w Hd Hf Hn Hs.
  - destruct fs; [|discriminate]. exists w. split; [|assumption].
    cbn [alloc_direct]. unfold ret. rewrite !app_nil_r in *.
    destruct d. cbn in Hd. subst. unfold set_direct_blocks. cbn.
    do 3 f_equal. lia.
  - destruct fs as [|f fs]; [discriminate|].
    cbn [List.length] in Hn. injection Hn as Hn.
    cbn [repeat] in Hd. cbn [alloc_direct]. rewrite Hd.
    rewrite (bind_Ok _ _ _ _ _ (array_get_middle done (repeat 0 n) 0 w)).
    cbn [Z.eqb].
    rewrite (bind_Ok _ _ _ _ _ (free_map_allocate_some w f (fs ++ rest) Hf)).
    erewrite bind_Ok by apply array_set_middle.
    erewrite bind_Ok by reflexivity.
    rewrite size_sub_exact by lia.
    assert (E : (ss - 1 <=? 0) = false) by (apply Z.leb_gt; lia).
    rewrite E.
    replace (Z.of_nat (List.length done) + 1)
      with (Z.of_nat (List.length (done ++ [f])))
      by (rewrite length_app; cbn [List.length]; lia).
    match goal with
    | |- exists w', alloc_direct _ _ ?D _ ?W = _ /\ _ =>
        destruct (IH (done ++ [f]) fs rest D (ss - 1) W)
          as (w' & Hrun & Hfree)
    end.
    + cbn. now rewrite <- app_assoc.
    + reflexivity.
    + assumption.
    + lia.
    + exists w'. split; [|exact Hfree]. rewrite Hrun.
      unfold set_direct_blocks. cbn. rewrite <- app_assoc. cbn.
      do 3 f_equal. lia.
Qed.

(** The entry loop at height 1 over entries that are all empty. *)
Lemma alloc_entries_fresh child (slot : block_sector_t) (n : nat) :
  forall (done tl fs rest : list block_sector_t) (ss : Z) (w : world),
    free_map w = fs ++ rest -> List.length fs = n ->
    Z.of_nat n <= ss < 4294967296 ->
    exists w',
      alloc_entries child true slot 1 n (Z.of_nat (List.length done))
        (done ++ repeat 0 n ++ tl) ss w
      = Ok (Fell (ss - Z.of_nat n)) w' /\
      free_map w' = rest.
Proof.
  induction n as [|n IH]; intros done tl fs rest ss w Hf Hn Hs.
  - destruct fs; [|discriminate]. exists w. split; [|assumption].
    cbn [alloc_entries]. unfold ret. do 2 f_equal. lia.
  - destruct fs as [|f fs]; [discriminate|].
    cbn [List.length] in Hn. injection Hn as Hn.
    cbn [repeat app alloc_entries].
    assert (E : (ss <? 1) = false) by (apply Z.ltb_ge; lia).
    rewrite E.
    rewrite (bind_Ok _ _ _ _ _
               (array_get_middle done (repeat 0 n ++ tl) 0 w)).
    cbn [Z.eqb].
    rewrite (bind_Ok _ _ _ _ _ (free_map_allocate_some w f (fs ++ rest) Hf)).
    erewrite bind_Ok by apply array_set_middle.
    erewrite bind_Ok by reflexivity.
    erewrite bind_Ok by reflexivity.
    rewrite size_sub_exact by lia.
    replace (Z.of_nat (List.length done) + 1)
      with (Z.of_nat (List.length (done ++ [f])))
      by (rewrite length_app; cbn [List.length]; lia).
    match goal with
    | |- exists w', alloc_entries _ _ _ _ _ _ _ _ ?W = _ /\ _ =>
        destruct (IH (done ++ [f]) tl fs rest (ss - 1) W)
          as (w' & Hrun & Hfree)
    end.
    + reflexivity.
    + assumption.
    + lia.
    + exists w'. split; [|exact Hfree].
      rewrite <- app_assoc in Hrun. cbn [app] in Hrun. rewrite Hrun.
      do 2 f_equal. lia.
Qed.

(** A height-1 call on an empty slot, with the block and every data sector
    to be had from the free map. *)
Lemma inode_alloc_iblock_fresh_height1
    (w : world) (b : block_sector_t) (fs rest : list block_sector_t)
    (count : Z) :
  free_map w = b :: fs ++ rest ->
  Z.of_nat (List.length fs) = count -> 0 < count <= 128 ->
  exists w',
    inode_alloc_iblock 0 count 1 w = Ok (true, b) w' /\ free_map w' = rest.
Proof.
  intros Hf Hn Hc.
  unfold inode_alloc_iblock. cbn [alloc_iblock_while Nat.eqb Z.eqb].
  rewrite (bind_Ok _ _ w
             (log (EvWrite b zeros)
                (with_disk (log (EvAllocate (Some b))
                              (with_free_map w (fs ++ rest)))
                   (upd (disk w) b zeros))) b).
  2:{ rewrite (bind_Ok _ _ _ _ _
                 (free_map_allocate_some w b (fs ++ rest) Hf)).
      reflexivity. }
  unfold block_read_ptrs.
  erewrite bind_Ok.
  2:{ erewrite bind_Ok by reflexivity. cbn [disk log with_disk].
      rewrite upd_same, block_ptrs_of_zeros. reflexivity. }
  rewrite Z.div_1_r, <- Hn, Nat2Z.id.
  replace (repeat 0 128%nat)
    with ([] ++ repeat 0 (List.length fs)
          ++ repeat 0 (128 - List.length fs)%nat).
  2:{ cbn [app]. rewrite <- repeat_app. f_equal. lia. }
  match goal with
  | |- exists w', bind (alloc_entries _ _ _ _ _ _ _ _) _ ?W = _ /\ _ =>
      destruct (alloc_entries_fresh (alloc_iblock_while 0 1) b
                  (List.length fs) [] (repeat 0 (128 - List.length fs)%nat)
                  fs rest (Z.of_nat (List.length fs)) W)
        as (w' & Hrun & Hfree)
  end.
  - reflexivity.
  - reflexivity.
  - lia.
  - exists w'. split; [|exact Hfree].
    cbn [List.length Z.of_nat] in Hrun.
    erewrite bind_Ok by exact Hrun.
    reflexivity.
Qed.

(** The direct and single-indirect ranges of a fresh record, filled from the
    head of the free map: what [inode_alloc] has done when it reaches the
    double-indirect range with [c] sectors still to place. *)
Lemma inode_alloc_fresh_reaches_double_indirect
    (NUM_DIRECT_BLOCKS : Z) (d : inode_disk) (len : off_t) (w : world)
    (direct_fs : list block_sector_t) (b : block_sector_t)
    (leaf_fs rest : list block_sector_t) (c : Z) :
  0 <= NUM_DIRECT_BLOCKS ->
  direct_blocks d = repeat 0 (Z.to_nat NUM_DIRECT_BLOCKS) ->
  indirect_block d = 0 ->
  bytes_to_sectors len = NUM_DIRECT_BLOCKS + NUM_INDIRECT_PTRS + c ->
  0 < c < NUM_INDIRECT_PTRS ->
  free_map w = direct_fs ++ b :: leaf_fs ++ rest ->
  List.length direct_fs = Z.to_nat NUM_DIRECT_BLOCKS ->
  List.length leaf_fs = 128%nat ->
  exists w2,
    free_map w2 = rest /\
    inode_alloc NUM_DIRECT_BLOCKS d len w
    = (r <- inode_alloc_iblock (doubly_indirect_block d) c 2 ;;
       let d2 := set_indirect_block (set_direct_blocks d direct_fs) b in
       if negb (fst r)
       then ret (false, set_doubly_indirect_block d2 (snd r))
       else ret (true, set_doubly_indirect_block d2 (snd r))) w2.
Proof.
  intros HN Hd Hi Hlen Hc Hf Hn1 Hn2. unfold NUM_INDIRECT_PTRS in *.
  pose proof (bytes_to_sectors_range len) as HT. rewrite Hlen in HT.
  destruct (alloc_direct_fresh (Z.to_nat NUM_DIRECT_BLOCKS) [] direct_fs
              (b :: leaf_fs ++ rest) d (NUM_DIRECT_BLOCKS + 128 + c) w)
    as (w1 & Hrun1 & Hfree1); try assumption; [lia|].
  destruct (inode_alloc_iblock_fresh_height1 w1 b leaf_fs rest 128)
    as (w2 & Hrun2 & Hfree2); try assumption; [lia | lia |].
  exists w2. split; [assumption|].
  unfold inode_alloc. rewrite Hlen.
  assert (E1 : (NUM_DIRECT_BLOCKS + 128 + c <? NUM_DIRECT_BLOCKS) = false)
    by (apply Z.ltb_ge; lia).
  rewrite E1. cbn [List.length Z.of_nat app] in Hrun1.
  rewrite (bind_Ok _ _ _ _ _ Hrun1). rewrite Z2Nat.id by lia.
  unfold NUM_INDIRECT_PTRS, NUM_DBL_INDIRECT_PTRS.
  assert (E2 : (NUM_DIRECT_BLOCKS + 128 + c - NUM_DIRECT_BLOCKS <? 128) = false)
    by (apply Z.ltb_ge; lia).
  rewrite E2. cbn [Z.ltb Z.compare].
  cbn [indirect_block set_direct_blocks]. rewrite Hi.
  erewrite bind_Ok.
  2:{ erewrite bind_Ok by exact Hrun2. reflexivity. }
  cbn [fst snd negb].
  rewrite size_sub_exact by lia.
  replace (NUM_DIRECT_BLOCKS + 128 + c - NUM_DIRECT_BLOCKS - 128) with c by lia.
  assert (E3 : (c <=? 0) = false) by (apply Z.leb_gt; lia).
  assert (E4 : (c <? 16384) = true) by (apply Z.ltb_lt; lia).
  assert (E5 : (0 <? c) = true) by (apply Z.ltb_lt; lia).
  rewrite E3, E4, E5.
  rewrite size_sub_exact by lia. rewrite Z.sub_diag.
  cbn [doubly_indirect_block set_indirect_block set_direct_blocks].
  unfold bind. destruct (inode_alloc_iblock (doubly_indirect_block d) c 2 w2)
    as [[ok s] w3|]; [|reflexivity].
  cbn [fst snd]. destruct ok; reflexivity.
Qed.

(** C2, the code on every fresh record grown to a length whose last sectors
    fall in the double-indirect range without filling a child block (here
    fewer than 128 sectors of that range).  With sectors to be had for
    everything, [inode_alloc] reports success; it has filled the direct and
    single-indirect ranges and taken the doubly-indirect block [e], whose
    first entry, where the partial child is to hang, is still 0: the sector
    indices from [N_DIRECT + 128] on have no sector behind them. *)
Theorem inode_alloc_success_without_partial_child
    (NUM_DIRECT_BLOCKS : Z) (d : inode_disk) (len : off_t) (w : world)
    (direct_fs : list block_sector_t) (b : block_sector_t)
    (leaf_fs : list block_sector_t) (e : block_sector_t)
    (rest : list block_sector_t) (c : Z) :
  0 <= NUM_DIRECT_BLOCKS ->
  direct_blocks d = repeat 0 (Z.to_nat NUM_DIRECT_BLOCKS) ->
  indirect_block d = 0 -> doubly_indirect_block d = 0 ->
  bytes_to_sectors len = NUM_DIRECT_BLOCKS + NUM_INDIRECT_PTRS + c ->
  0 < c < NUM_INDIRECT_PTRS ->
  free_map w = direct_fs ++ b :: leaf_fs ++ e :: rest ->
  List.length direct_fs = Z.to_nat NUM_DIRECT_BLOCKS ->
  List.length leaf_fs = 128%nat -> e <> 0 ->
  exists d' w',
    inode_alloc NUM_DIRECT_BLOCKS d len w = Ok (true, d') w' /\
    direct_blocks d' = direct_fs /\ indirect_block d' = b /\
    doubly_indirect_block d' = e /\
    nth 0 (block_ptrs_of_image (disk w' e)) 0 = 0 /\
    free_map w' = rest.
Proof.
  intros HN Hd Hi Hdi Hlen Hc Hf Hn1 Hn2 He.
  destruct (inode_alloc_fresh_reaches_double_indirect NUM_DIRECT_BLOCKS d len
              w direct_fs b leaf_fs (e :: rest) c)
    as (w2 & Hfree2 & Hrun); try assumption.
  destruct (alloc_iblock_height2_below_128 w2 e rest c Hfree2 He Hc)
    as (w3 & Hrun3 & Hzero & Hfree3 & _).
  exists (set_doubly_indirect_block
            (set_indirect_block (set_direct_blocks d direct_fs) b) e), w3.
  split.
  - rewrite Hrun, Hdi. now rewrite (bind_Ok _ _ _ _ _ Hrun3).
  - cbn. auto.
Qed.

Lemma inode_alloc_success_without_partial_child_witness :
  exists d' w',
    inode_alloc 123 (zero_inode_disk 123) 128513 example_world
    = Ok (true, d') w' /\
    direct_blocks d' = map Z.of_nat (seq 2 123) /\ indirect_block d' = 125 /\
    doubly_indirect_block d' = 254 /\
    nth 0 (block_ptrs_of_image (disk w' 254)) 0 = 0 /\
    free_map w' = map Z.of_nat (seq 255 347).
Proof.
  apply (inode_alloc_success_without_partial_child 123 (zero_inode_disk 123)
           128513 example_world (map Z.of_nat (seq 2 123)) 125
           (map Z.of_nat (seq 126 128)) 254 (map Z.of_nat (seq 255 347)) 1).
  - lia.
  - reflexivity.
  - reflexivity.
  - reflexivity.
  - reflexivity.
  - unfold NUM_INDIRECT_PTRS. lia.
  - reflexivity.
  - reflexivity.
  - reflexivity.
  - lia.
Defined.

Section Create.

Variable NUM_DIRECT_BLOCKS : Z.
Variable inode_disk_image : inode_disk -> image.

(** C5, the code when the free map runs out exactly at the doubly-indirect
    block.  A file is created with a length that needs fewer than 128
    sectors of the double-indirect range, and the free map holds just the
    sectors of the direct and single-indirect ranges.  The request for the
    doubly-indirect block fails; its result is not looked at, and
    [inode_create] reports success. *)
Theorem inode_create_succeeds_after_failed_allocation
    (sec : block_sector_t) (len : off_t) (is_dir : bool) (w : world)
    (direct_fs : list block_sector_t) (b : block_sector_t)
    (leaf_fs : list block_sector_t) (c : Z) :
  0 <= NUM_DIRECT_BLOCKS -> 0 <= len ->
  bytes_to_sectors len = NUM_DIRECT_BLOCKS + NUM_INDIRECT_PTRS + c ->
  0 < c < NUM_INDIRECT_PTRS ->
  free_map w = direct_fs ++ b :: leaf_fs ->
  List.length direct_fs = Z.to_nat NUM_DIRECT_BLOCKS ->
  List.length leaf_fs = 128%nat ->
  (1 <= heap_left w)%nat ->
  exists w',
    inode_create NUM_DIRECT_BLOCKS inode_disk_image sec len is_dir w
    = Ok true w' /\
    In (EvAllocate None) (trace w') /\
    free_map w' = [].
Proof.
  intros HN H0 Hlen Hc Hf Hn1 Hn2 Hheap.
  unfold inode_create.
  assert (E0 : (0 <=? len) = true) by now apply Z.leb_le.
  rewrite E0. unfold ASSERT. rewrite (bind_Ok _ _ w w tt) by reflexivity.
  unfold malloc_buf at 1. unfold bind at 1.
  destruct (heap_left w) as [|h] eqn:Eh; [lia|].
  set (d := mk_inode_disk len INODE_MAGIC is_dir
              (direct_blocks (zero_inode_disk NUM_DIRECT_BLOCKS)) 0 0).
  destruct (inode_alloc_fresh_reaches_double_indirect NUM_DIRECT_BLOCKS d len
              (with_heap_left w h) direct_fs b leaf_fs [] c)
    as (w2 & Hfree2 & Hrun); try assumption; try reflexivity.
  { cbn. now rewrite app_nil_r. }
  destruct (alloc_iblock_height2_no_sector_left w2 c Hfree2 ltac:(lia))
    as (w3 & Hrun3 & Hfree3 & _ & Htrace3).
  cbn [length d] in Hrun |- *. fold d.
  rewrite (bind_Ok _ _ _ w3 (true, set_doubly_indirect_block
                               (set_indirect_block
                                  (set_direct_blocks d direct_fs) b) 0)).
  2:{ rewrite Hrun. cbn [doubly_indirect_block d].
      now rewrite (bind_Ok _ _ _ _ _ Hrun3). }
  eexists. split; [reflexivity|]. cbn. split; [|assumption].
  rewrite Htrace3. apply in_or_app. left. apply in_or_app. right.
  now left.
Qed.

End Create.

Lemma inode_create_succeeds_after_failed_allocation_witness :
  exists w',
    inode_create 123 example_image 1 128513 false
      (with_free_map example_world (map Z.of_nat (seq 2 252)))
    = Ok true w' /\
    In (EvAllocate None) (trace w') /\
    free_map w' = [].
Proof.
  apply (inode_create_succeeds_after_failed_allocation 123 example_image
           1 128513 false
           (with_free_map example_world (map Z.of_nat (seq 2 252)))
           (map Z.of_nat (seq 2 123)) 125 (map Z.of_nat (seq 126 128)) 1).
  - lia.
  - lia.
  - reflexivity.
  - unfold NUM_INDIRECT_PTRS. lia.
  - reflexivity.
  - reflexivity.
  - reflexivity.
  - simpl. lia.
Defined.

(** A height-1 call for one entry on an empty slot takes the block and one
    data sector from the free map. *)
Lemma inode_alloc_iblock_fresh_single
    (w : world) (b c : block_sector_t) (rest : list block_sector_t) :
  free_map w = b :: c :: rest -> b <> 0 ->
  inode_alloc_iblock 0 1 1 w
  = Ok (true, b)
      (log (EvWrite b (image_of_block_ptrs (c :: repeat 0 127%nat)))
         (with_disk
            (log (EvWrite c zeros)
               (with_disk
                  (log (EvAllocate (Some c))
                     (with_free_map
                        (log (EvRead b)
                           (log (EvWrite b zeros)
                              (with_disk
                                 (log (EvAllocate (Some b))
                                    (with_free_map w (c :: rest)))
                                 (upd (disk w) b zeros))))
                        rest))
                  (upd (upd (disk w) b zeros) c zeros)))
            (upd (upd (upd (disk w) b zeros) c zeros) b
               (image_of_block_ptrs (c :: repeat 0 127%nat))))).
Proof.
  intros Hf Hb. apply Z.eqb_neq in Hb.
  unfold inode_alloc_iblock. cbn [alloc_iblock_while Nat.eqb].
  unfold bind, block_read_ptrs, block_read, free_map_allocate, block_write, ret.
  cbn -[zeros block_ptrs_of_image image_of_block_ptrs alloc_entries].
  rewrite Hf.
  cbn -[zeros block_ptrs_of_image image_of_block_ptrs alloc_entries].
  rewrite upd_same, block_ptrs_of_zeros.
  cbn -[zeros image_of_block_ptrs]. reflexivity.
Qed.

(** C3, the code when the same one-sector target is grown to twice.  The
    first call fills direct slot 0.  The second call finds the slot filled and
    therefore does not count it: with one sector still to place it moves on
    to the single-indirect range, takes an indirection block and a data
    sector from the free map and changes the record. *)
Theorem inode_alloc_second_call_allocates_again
    (NUM_DIRECT_BLOCKS : Z) (d0 : inode_disk) (tl : list block_sector_t)
    (len : off_t) (w : world) (a b c : block_sector_t)
    (rest : list block_sector_t) :
  0 < NUM_DIRECT_BLOCKS ->
  direct_blocks d0 = 0 :: tl -> indirect_block d0 = 0 ->
  bytes_to_sectors len = 1 ->
  free_map w = a :: b :: c :: rest -> a <> 0 -> b <> 0 ->
  exists d1 w1 d2 w2,
    inode_alloc NUM_DIRECT_BLOCKS d0 len w = Ok (true, d1) w1 /\
    inode_alloc NUM_DIRECT_BLOCKS d1 len w1 = Ok (true, d2) w2 /\
    direct_blocks d1 = a :: tl /\ indirect_block d1 = 0 /\
    free_map w1 = b :: c :: rest /\
    direct_blocks d2 = a :: tl /\ indirect_block d2 = b /\
    free_map w2 = rest /\
    trace w2 = trace w1
               ++ [EvAllocate (Some b); EvWrite b zeros; EvRead b;
                   EvAllocate (Some c); EvWrite c zeros;
                   EvWrite b (image_of_block_ptrs (c :: repeat 0 127%nat))].
Proof.
  intros HN Hd Hi Hlen Hf Ha Hb.
  assert (Hlim : (if 1 <? NUM_DIRECT_BLOCKS then 1 else NUM_DIRECT_BLOCKS) = 1).
  { destruct (1 <? NUM_DIRECT_BLOCKS) eqn:E; [reflexivity|].
    apply Z.ltb_ge in E. lia. }
  set (d1 := set_direct_blocks d0 (a :: tl)).
  set (w1 := log (EvWrite a zeros)
               (with_disk (log (EvAllocate (Some a))
                             (with_free_map w (b :: c :: rest)))
                  (upd (disk w) a zeros))).
  assert (Hf1 : free_map w1 = b :: c :: rest) by reflexivity.
  pose proof (inode_alloc_iblock_fresh_single w1 b c rest Hf1 Hb) as Hib.
  exists d1, w1, (set_indirect_block d1 b). eexists.
  split; [|split].
  - unfold inode_alloc. rewrite Hlen, Hlim.
    change (Z.to_nat 1) with 1%nat.
    rewrite (bind_Ok _ _ w w1 (Returned (true, d1))); [reflexivity|].
    cbn [alloc_direct].
    unfold bind, array_get, array_set, free_map_allocate, block_write, ret.
    rewrite Hd. cbn -[zeros]. rewrite Hf. reflexivity.
  - unfold inode_alloc. rewrite Hlen, Hlim.
    change (Z.to_nat 1) with 1%nat.
    rewrite (bind_Ok _ _ w1 w1 (Fell (d1, 1))).
    2:{ cbn [alloc_direct]. unfold bind, array_get, ret.
        cbn -[zeros]. apply Z.eqb_neq in Ha. now rewrite Ha. }
    cbn -[zeros bind inode_alloc_iblock image_of_block_ptrs].
    rewrite Hi.
    unfold bind at 1. unfold bind at 1. rewrite Hib.
    cbn -[zeros image_of_block_ptrs]. reflexivity.
  - cbn -[zeros image_of_block_ptrs]. rewrite Hi.
    repeat split. now rewrite <- !app_assoc.
Qed.

(** The same miscount through the interface: a 512-byte file grown to 1024
    bytes by a write needs one more sector and takes three, sectors 3, 4
    and 5: the second direct sector, an indirection block and a data sector
    under it. *)
Example growth_by_one_sector_takes_three :
  match (c <- inode_create 123 example_image 9 512 false ;;
         p <- inode_open example_load 9 ;;
         n <- inode_write_at 123 example_image p (repeat 7 512) 512 512 ;;
         i <- deref p ;;
         ret (n, i)) example_world
  with
  | Ok (n, i) w' =>
      n = 512 /\
      firstn 3 (direct_blocks (data i)) = [2; 3; 0] /\
      indirect_block (data i) = 4 /\
      nth 0 (block_ptrs_of_image (disk w' 4)) 0 = 5 /\
      free_map w' = map Z.of_nat (seq 6 596)
  | Crash _ => False
  end.
Proof. vm_compute. repeat split. Qed.

Lemma inode_alloc_second_call_allocates_again_witness :
  exists d1 w1 d2 w2,
    inode_alloc 123 (zero_inode_disk 123) 512 example_world = Ok (true, d1) w1 /\
    inode_alloc 123 d1 512 w1 = Ok (true, d2) w2 /\
    direct_blocks d1 = 2 :: repeat 0 122%nat /\ indirect_block d1 = 0 /\
    free_map w1 = 3 :: 4 :: map Z.of_nat (seq 5 597) /\
    direct_blocks d2 = 2 :: repeat 0 122%nat /\ indirect_block d2 = 3 /\
    free_map w2 = map Z.of_nat (seq 5 597) /\
    trace w2 = trace w1
               ++ [EvAllocate (Some 3); EvWrite 3 zeros; EvRead 3;
                   EvAllocate (Some 4); EvWrite 4 zeros;
                   EvWrite 3 (image_of_block_ptrs (4 :: repeat 0 127%nat))].
Proof.
  apply (inode_alloc_second_call_allocates_again 123 (zero_inode_disk 123)
           (repeat 0 122%nat) 512 example_world 2 3 4
           (map Z.of_nat (seq 5 597))).
  - lia.
  - reflexivity.
  - reflexivity.
  - reflexivity.
  - reflexivity.
  - lia.
  - lia.
Defined.

(** ** What the device-level code leaves alone

    [preserves R m]: whenever [m] finishes, the world it leaves is related by
    [R] to the world it started in.  The lemmas of this section hold for
    every preorder [R] that the device, the free map, the scratch heap and
    the event log respect. *)

Create HintDb frame.

Section Frame.

Variable R : world -> world -> Prop.
Hypothesis R_refl : forall w, R w w.
Hypothesis R_trans : forall a b c, R a b -> R b c -> R a c.
Hypothesis R_log : forall w e, R w (log e w).
Hypothesis R_disk : forall w d, R w (with_disk w d).
Hypothesis R_free_map : forall w f, R w (with_free_map w f).
Hypothesis R_heap_left : forall w n, R w (with_heap_left w n).

Variable NUM_DIRECT_BLOCKS : Z.
Variable inode_disk_image : inode_disk -> image.

Lemma preserves_ret {A} (a : A) : preserves R (ret a).
Proof. intros w a' w' H. inversion H; subst. apply R_refl. Qed.

Lemma preserves_crash {A} (f : fault) : preserves R (@crash A f).
Proof. intros w a' w' H. discriminate. Qed.

Lemma preserves_bind {A B} (m : M A) (k : A -> M B) :
  preserves R m -> (forall a, preserves R (k a)) -> preserves R (bind m k).
Proof.
  intros Hm Hk w b w' H. unfold bind in H.
  destruct (m w) as [a w1|f] eqn:E; [|discriminate].
  eapply R_trans; [eapply Hm, E | eapply Hk, H].
Qed.

Ltac frame_step :=
  match goal with
  | |- preserves _ (bind _ _) => apply preserves_bind; [ | intros ? ]
  | |- preserves _ (ret _) => apply preserves_ret
  | |- preserves _ (crash _) => apply preserves_crash
  | |- preserves _ (if ?b then _ else _) => destruct b
  | |- preserves _ (match ?x with _ => _ end) => destruct x
  | |- preserves _ _ => solve [auto with frame]
  end.
Ltac frame := repeat frame_step.

Lemma preserves_ASSERT (b : bool) : preserves R (ASSERT b).
Proof. unfold ASSERT. frame. Qed.

Lemma preserves_array_get (a : list Z) (i : Z) : preserves R (array_get a i).
Proof. unfold array_get. frame. Qed.

Lemma preserves_array_set (a : list Z) (i v : Z) :
  preserves R (array_set a i v).
Proof. unfold array_set. frame. Qed.

Lemma preserves_slice (a : list Z) (from len : Z) :
  preserves R (slice a from len).
Proof. unfold slice. frame. Qed.

Lemma preserves_splice (b : image) (ofs : Z) (chunk : list Z) :
  preserves R (splice b ofs chunk).
Proof. unfold splice. frame. Qed.

Lemma preserves_block_read (s : block_sector_t) : preserves R (block_read s).
Proof. intros w a w' H. inversion H; subst. apply R_log. Qed.

Lemma preserves_block_write (s : block_sector_t) (img : image) :
  preserves R (block_write s img).
Proof.
  intros w a w' H. inversion H; subst.
  eapply R_trans; [apply R_disk | apply R_log].
Qed.

Lemma preserves_free_map_allocate : preserves R free_map_allocate.
Proof.
  intros w a w' H. unfold free_map_allocate in H.
  destruct (free_map w); inversion H; subst.
  - apply R_log.
  - eapply R_trans; [apply R_free_map | apply R_log].
Qed.

Lemma preserves_free_map_release (s : block_sector_t) :
  preserves R (free_map_release s).
Proof.
  intros w a w' H. inversion H; subst.
  eapply R_trans; [apply R_free_map | apply R_log].
Qed.

Lemma preserves_malloc_buf : preserves R malloc_buf.
Proof.
  intros w a w' H. unfold malloc_buf in H.
  destruct (heap_left w); inversion H; subst; auto.
Qed.

Lemma preserves_free_buf (b : bool) : preserves R (free_buf b).
Proof.
  intros w a w' H. unfold free_buf in H.
  destruct b; inversion H; subst; auto.
Qed.

Lemma preserves_deref (p : Z) : preserves R (deref p).
Proof.
  intros w a w' H. unfold deref in H.
  destruct (inodes w p); inversion H; subst; auto.
Qed.

Hint Resolve preserves_ASSERT preserves_array_get preserves_array_set
  preserves_slice preserves_splice preserves_block_read preserves_block_write
  preserves_free_map_allocate preserves_free_map_release preserves_malloc_buf
  preserves_free_buf preserves_deref : frame.

Lemma preserves_block_read_ptrs (b : bool) (s : block_sector_t) :
  preserves R (block_read_ptrs b s).
Proof. unfold block_read_ptrs. frame. Qed.
Hint Resolve preserves_block_read_ptrs : frame.

Lemma preserves_inode_length (p : Z) : preserves R (inode_length p).
Proof. unfold inode_length. frame. Qed.

Lemma preserves_byte_to_sector (p : Z) (pos : off_t) :
  preserves R (byte_to_sector NUM_DIRECT_BLOCKS p pos).
Proof. unfold byte_to_sector. frame. Qed.
Hint Resolve preserves_inode_length preserves_byte_to_sector : frame.

Lemma preserves_alloc_entries child height_is_1 slot unit_ n :
  (forall s c, preserves R (child s c)) ->
  forall index ptrs sector_size,
    preserves R (alloc_entries child height_is_1 slot unit_ n index ptrs
                   sector_size).
Proof.
  intros Hchild. induction n as [|n IH]; intros index ptrs sector_size.
  - cbn [alloc_entries]. frame.
  - cbn [alloc_entries]. frame.
Qed.

Lemma preserves_alloc_iblock_while height :
  forall unit_ slot sector_size,
    preserves R (alloc_iblock_while height unit_ slot sector_size).
Proof.
  induction height as [|h IH]; intros unit_ slot sector_size.
  - cbn [alloc_iblock_while]. frame.
  - cbn [alloc_iblock_while]. frame.
    all: apply preserves_alloc_entries; intros; apply IH.
Qed.

Lemma preserves_inode_alloc_iblock slot sector_size height :
  preserves R (inode_alloc_iblock slot sector_size height).
Proof. apply preserves_alloc_iblock_while. Qed.
Hint Resolve preserves_inode_alloc_iblock : frame.

Lemma preserves_alloc_direct n :
  forall index d sector_size,
    preserves R (alloc_direct n index d sector_size).
Proof.
  induction n as [|n IH]; intros; cbn [alloc_direct]; frame.
Qed.
Hint Resolve preserves_alloc_direct : frame.

Lemma preserves_inode_alloc d len :
  preserves R (inode_alloc NUM_DIRECT_BLOCKS d len).
Proof. unfold inode_alloc. frame. Qed.
Hint Resolve preserves_inode_alloc : frame.

Lemma preserves_inode_create sec len is_dir :
  preserves R (inode_create NUM_DIRECT_BLOCKS inode_disk_image sec len is_dir).
Proof. unfold inode_create. frame. Qed.

Lemma preserves_dealloc_entries child unit_ n :
  (forall s c, preserves R (child s c)) ->
  forall index ptrs sector_size,
    preserves R (dealloc_entries child unit_ n index ptrs sector_size).
Proof.
  intros Hchild. induction n as [|n IH]; intros; cbn [dealloc_entries]; frame.
Qed.

Lemma preserves_release_entries n :
  forall index ptrs, preserves R (release_entries n index ptrs).
Proof.
  induction n as [|n IH]; intros; cbn [release_entries]; frame.
Qed.
Hint Resolve preserves_release_entries : frame.

Lemma preserves_dealloc_iblock_tail entry unit_ sector_size :
  preserves R (dealloc_iblock_tail entry unit_ sector_size).
Proof. unfold dealloc_iblock_tail. frame. Qed.
Hint Resolve preserves_dealloc_iblock_tail : frame.

Lemma preserves_dealloc_level child entry unit_ sector_size height :
  (forall s c, preserves R (child s c)) ->
  preserves R (dealloc_level child entry unit_ sector_size height).
Proof.
  intros Hchild. unfold dealloc_level. frame.
  all: apply preserves_dealloc_entries; assumption.
Qed.

Lemma preserves_dealloc_iblock_both height :
  (forall entry sector_size,
      preserves R (inode_dealloc_iblock entry sector_size height)) /\
  (forall entry unit_ sector_size,
      preserves R (dealloc_iblock_while entry unit_ sector_size height)).
Proof.
  induction height as [|h [IH1 IH2]].
  - split; intros; cbn [inode_dealloc_iblock dealloc_iblock_while]; frame.
  - split; intros.
    + cbn [inode_dealloc_iblock]. destruct h as [|h']; frame.
      apply preserves_dealloc_level. intros. apply IH1.
    + cbn [dealloc_iblock_while]. destruct h as [|h']; frame.
      apply preserves_dealloc_level. intros. apply IH1.
Qed.

Lemma preserves_inode_dealloc_iblock entry sector_size height :
  preserves R (inode_dealloc_iblock entry sector_size height).
Proof. apply preserves_dealloc_iblock_both. Qed.
Hint Resolve preserves_inode_dealloc_iblock : frame.

Lemma preserves_dealloc_direct n :
  forall index d sector_size,
    preserves R (dealloc_direct n index d sector_size).
Proof.
  induction n as [|n IH]; intros; cbn [dealloc_direct]; frame.
Qed.
Hint Resolve preserves_dealloc_direct : frame.

Lemma preserves_inode_dealloc d :
  preserves R (inode_dealloc NUM_DIRECT_BLOCKS d).
Proof. unfold inode_dealloc. frame. Qed.

Lemma preserves_read_loop fuel p :
  forall c buffer, preserves R (read_loop NUM_DIRECT_BLOCKS fuel p c buffer).
Proof.
  induction fuel as [|fuel IH]; intros; cbn [read_loop]; frame.
Qed.
Hint Resolve preserves_read_loop : frame.

Lemma preserves_inode_read_at p size offset :
  preserves R (inode_read_at NUM_DIRECT_BLOCKS p size offset).
Proof. unfold inode_read_at. frame. Qed.

Lemma preserves_write_loop fuel p buffer :
  forall c, preserves R (write_loop NUM_DIRECT_BLOCKS fuel p buffer c).
Proof.
  induction fuel as [|fuel IH]; intros; cbn [write_loop]; frame.
Qed.
Hint Resolve preserves_write_loop : frame.

(** Assignments to the fields of a handle, for the assignments [good]
    admits. *)
Variable good : (inode -> inode) -> Prop.
Hypothesis R_update :
  forall w p i f, good f -> inodes w p = Some i ->
                  R w (with_inodes w (upd (inodes w) p (Some (f i)))).
Hypothesis good_set_data : forall g, good (fun i => set_data i (g i)).

Lemma preserves_update (p : Z) (f : inode -> inode) :
  good f -> preserves R (update p f).
Proof.
  intros Hf w a w' H. unfold update in H.
  destruct (inodes w p) eqn:E; inversion H; subst. now apply R_update.
Qed.

Lemma preserves_write_grow p size offset :
  preserves R (write_grow NUM_DIRECT_BLOCKS inode_disk_image p size offset).
Proof.
  unfold write_grow. frame.
  all: apply preserves_update, good_set_data.
Qed.
Hint Resolve preserves_write_grow : frame.

Lemma preserves_inode_write_at p buffer size offset :
  preserves R
    (inode_write_at NUM_DIRECT_BLOCKS inode_disk_image p buffer size offset).
Proof. unfold inode_write_at. frame. Qed.

End Frame.

(** The same for the code that works on the table of handles, for every
    preorder that does not look at the handles, the list or the heap. *)
Section TableFrame.

Variable R : world -> world -> Prop.
Hypothesis R_refl : forall w, R w w.
Hypothesis R_trans : forall a b c, R a b -> R b c -> R a c.
Hypothesis R_log : forall w e, R w (log e w).
Hypothesis R_free_map : forall w f, R w (with_free_map w f).
Hypothesis R_heap_left : forall w n, R w (with_heap_left w n).
Hypothesis R_inodes : forall w m, R w (with_inodes w m).
Hypothesis R_open_inodes : forall w l, R w (with_open_inodes w l).
Hypothesis R_next_ptr : forall w p, R w (with_next_ptr w p).

Variable NUM_DIRECT_BLOCKS : Z.
Variable inode_disk_load : image -> inode_disk.

Lemma table_bind {A B} (m : M A) (k : A -> M B) :
  preserves R m -> (forall a, preserves R (k a)) -> preserves R (bind m k).
Proof. apply preserves_bind. exact R_trans. Qed.

Lemma table_ret {A} (a : A) : preserves R (ret a).
Proof. apply preserves_ret. exact R_refl. Qed.

Lemma table_deref (p : Z) : preserves R (deref p).
Proof. apply preserves_deref. exact R_refl. Qed.

Lemma table_ASSERT (b : bool) : preserves R (ASSERT b).
Proof. apply preserves_ASSERT. exact R_refl. Qed.

Lemma table_update (p : Z) (f : inode -> inode) : preserves R (update p f).
Proof.
  intros w a w' H. unfold update in H.
  destruct (inodes w p); inversion H; subst. apply R_inodes.
Qed.

Lemma table_store (p : Z) (i : inode) : preserves R (store p i).
Proof. intros w a w' H. inversion H; subst. apply R_inodes. Qed.

Lemma table_find_open (l : list Z) (sec : block_sector_t) :
  preserves R (find_open l sec).
Proof.
  induction l as [|p l IH]; cbn [find_open].
  - apply table_ret.
  - apply table_bind; [apply table_deref|]. intros i.
    destruct (sector i =? sec); [apply table_ret | exact IH].
Qed.

Lemma table_inode_reopen (p : Z) : preserves R (inode_reopen p).
Proof.
  unfold inode_reopen. apply table_bind; [|intros; apply table_ret].
  destruct (negb (p =? 0)); [apply table_update | apply table_ret].
Qed.

Lemma table_inode_open (sec : block_sector_t) :
  preserves R (inode_open inode_disk_load sec).
Proof.
  unfold inode_open. apply table_bind.
  { intros w a w' H. inversion H; subst. apply R_refl. }
  intros l. apply table_bind; [apply table_find_open|].
  intros [p|]; [apply table_inode_reopen|].
  apply table_bind.
  { intros w a w' H. unfold malloc_inode in H.
    destruct (heap_left w); inversion H; subst; [apply R_refl|].
    eapply R_trans; [apply R_heap_left | apply R_next_ptr]. }
  intros p. destruct (p =? 0); [apply table_ret|].
  apply table_bind.
  { intros w a w' H. inversion H; subst. apply R_open_inodes. }
  intros _. apply table_bind.
  { apply preserves_block_read. exact R_log. }
  intros img. apply table_bind; [apply table_store|].
  intros _. apply table_ret.
Qed.

Lemma table_inode_close (p : Z) :
  preserves R (inode_close NUM_DIRECT_BLOCKS p).
Proof.
  unfold inode_close. destruct (p =? 0); [apply table_ret|].
  apply table_bind; [apply table_update|]. intros _.
  apply table_bind; [apply table_deref|]. intros i.
  destruct (open_cnt i =? 0); [|apply table_ret].
  apply table_bind.
  { intros w a w' H. inversion H; subst. apply R_open_inodes. }
  intros _. apply table_bind.
  { destruct (removed i); [|apply table_ret].
    apply table_bind.
    { apply preserves_free_map_release; assumption. }
    intros _. apply table_bind; [|intros; apply table_ret].
    apply preserves_inode_dealloc; assumption. }
  intros _. intros w a w' H. unfold free_inode in H.
  destruct (inodes w p); inversion H; subst.
  eapply R_trans; [apply R_inodes | apply R_heap_left].
Qed.

Lemma table_inode_remove (p : Z) : preserves R (inode_remove p).
Proof.
  unfold inode_remove. apply table_bind; [apply table_ASSERT|].
  intros _. apply table_update.
Qed.

Lemma table_inode_deny_write (p : Z) : preserves R (inode_deny_write p).
Proof.
  unfold inode_deny_write. apply table_bind; [apply table_update|].
  intros _. apply table_bind; [apply table_deref|].
  intros i. apply table_ASSERT.
Qed.

Lemma table_inode_allow_write (p : Z) : preserves R (inode_allow_write p).
Proof.
  unfold inode_allow_write. apply table_bind; [apply table_deref|].
  intros i. apply table_bind; [apply table_ASSERT|].
  intros _. apply table_bind; [apply table_ASSERT|].
  intros _. apply table_update.
Qed.

End TableFrame.

(** ** The open-inode table *)

Lemma same_opens_refl (w : world) : same_opens w w.
Proof.
  repeat split. intros p. destruct (inodes w p); auto.
Qed.

Lemma same_opens_trans (a b c : world) :
  same_opens a b -> same_opens b c -> same_opens a c.
Proof.
  intros (H1 & H2 & H3) (K1 & K2 & K3). repeat split; try congruence.
  intros p. specialize (H3 p). specialize (K3 p).
  destruct (inodes a p), (inodes b p), (inodes c p); try tauto.
  destruct H3, K3. split; congruence.
Qed.

Lemma same_opens_log (w : world) (e : event) : same_opens w (log e w).
Proof. exact (same_opens_refl w). Qed.

Lemma same_opens_disk (w : world) d : same_opens w (with_disk w d).
Proof. exact (same_opens_refl w). Qed.

Lemma same_opens_free_map (w : world) f : same_opens w (with_free_map w f).
Proof. exact (same_opens_refl w). Qed.

Lemma same_opens_heap_left (w : world) n : same_opens w (with_heap_left w n).
Proof. exact (same_opens_refl w). Qed.

Lemma same_opens_store (w : world) (p : Z) (i i' : inode) :
  inodes w p = Some i -> sector i' = sector i -> open_cnt i' = open_cnt i ->
  same_opens w (with_inodes w (upd (inodes w) p (Some i'))).
Proof.
  intros Hp Hs Hc. repeat split. intros q. cbn. unfold upd.
  destruct (q =? p) eqn:E.
  - apply Z.eqb_eq in E. subst q. rewrite Hp. auto.
  - destruct (inodes w q); auto.
Qed.

Lemma net_opens_app (p : Z) (h1 h2 : list (call * Z)) :
  net_opens p (h1 ++ h2) = net_opens p h1 + net_opens p h2.
Proof.
  induction h1 as [|e h1 IH]; simpl; [reflexivity|]. rewrite IH. lia.
Qed.

Lemma table_ok_same_opens (w w' : world) :
  same_opens w w' -> table_ok w -> table_ok w'.
Proof.
  intros (E1 & E2 & E3) (T1 & T2 & T3 & T4).
  assert (L : forall p, inodes w' p <> None <-> inodes w p <> None).
  { intros p. specialize (E3 p).
    destruct (inodes w p), (inodes w' p); try tauto; split; congruence. }
  repeat split.
  - lia.
  - apply L, T2 in H. lia.
  - apply L, T2 in H. lia.
  - rewrite E1, L. apply T3.
  - rewrite E1, L. apply T3.
  - intros p q i j Hp Hq Hs.
    pose proof (E3 p) as Ep. pose proof (E3 q) as Eq.
    rewrite Hp in Ep. rewrite Hq in Eq.
    destruct (inodes w p) as [i0|] eqn:Hp0; [|tauto].
    destruct (inodes w q) as [j0|] eqn:Hq0; [|tauto].
    apply (T4 p q i0 j0); auto. destruct Ep, Eq. congruence.
Qed.

Lemma counts_ok_same_opens (w w' : world) (h : list (call * Z)) (e : call * Z) :
  same_opens w w' -> (forall p, p <> 0 -> handle_delta p e = 0) ->
  counts_ok w h -> counts_ok w' (h ++ [e]).
Proof.
  intros (E1 & E2 & E3) Hd C p Hp.
  specialize (C p Hp). specialize (E3 p).
  rewrite net_opens_app. simpl. rewrite (Hd p Hp).
  destruct (inodes w p), (inodes w' p); try tauto.
  - destruct E3. lia.
  - lia.
Qed.

Lemma bind_inv {A B} (m : M A) (k : A -> M B) (w w' : world) (b : B) :
  bind m k w = Ok b w' -> exists a w1, m w = Ok a w1 /\ k a w1 = Ok b w'.
Proof.
  unfold bind. destruct (m w) as [a w1|f]; [|discriminate]. eauto.
Qed.

Lemma ret_inv {A} (a b : A) (w w' : world) :
  ret a w = Ok b w' -> b = a /\ w' = w.
Proof. intros H. inversion H. auto. Qed.

Lemma deref_inv (p : Z) (w w' : world) (i : inode) :
  deref p w = Ok i w' -> inodes w p = Some i /\ w' = w.
Proof.
  unfold deref. destruct (inodes w p); intros H; inversion H; auto.
Qed.

Lemma update_inv (p : Z) (f : inode -> inode) (w w' : world) (u : unit) :
  update p f w = Ok u w' ->
  exists i, inodes w p = Some i /\
            w' = with_inodes w (upd (inodes w) p (Some (f i))).
Proof.
  unfold update. destruct (inodes w p) as [i|]; intros H; inversion H; eauto.
Qed.

Lemma ASSERT_inv (b : bool) (w w' : world) (u : unit) :
  ASSERT b w = Ok u w' -> b = true /\ w' = w.
Proof. destruct b; intros H; inversion H; auto. Qed.

Ltac minv :=
  repeat match goal with
    | H : bind _ _ _ = Ok _ _ |- _ =>
        let a := fresh "a" in let w := fresh "w" in let E := fresh "E" in
        apply bind_inv in H; destruct H as (a & w & E & H)
    | H : ret _ _ = Ok _ _ |- _ =>
        apply ret_inv in H; destruct H; subst
    | H : deref _ _ = Ok _ _ |- _ =>
        apply deref_inv in H; destruct H; subst
    | H : ASSERT _ _ = Ok _ _ |- _ =>
        apply ASSERT_inv in H; destruct H; subst
    | H : crash _ _ = Ok _ _ |- _ => discriminate H
    | H : Crash _ = Ok _ _ |- _ => discriminate H
    end.

Lemma table_ok_update (w : world) (p : Z) (i i' : inode) :
  table_ok w -> inodes w p = Some i -> sector i' = sector i ->
  table_ok (with_inodes w (upd (inodes w) p (Some i'))).
Proof.
  intros (T1 & T2 & T3 & T4) Hp Hs.
  assert (L : forall q, upd (inodes w) p (Some i') q <> None
                        <-> inodes w q <> None).
  { intros q. unfold upd. destruct (q =? p) eqn:E; [|tauto].
    apply Z.eqb_eq in E. subst q. rewrite Hp. split; congruence. }
  repeat split; cbn.
  - assumption.
  - apply L, T2 in H. lia.
  - apply L, T2 in H. lia.
  - rewrite L. apply T3.
  - rewrite L. apply T3.
  - intros q1 q2 j1 j2. unfold upd.
    destruct (q1 =? p) eqn:E1; destruct (q2 =? p) eqn:E2;
      try apply Z.eqb_eq in E1; try apply Z.eqb_eq in E2; subst;
      intros H1 H2 H3.
    + reflexivity.
    + inversion H1; subst. apply (T4 p q2 i j2); congruence.
    + inversion H2; subst. apply (T4 q1 p j1 i); congruence.
    + apply (T4 q1 q2 j1 j2); assumption.
Qed.

(** The search of [inode_open] on a table whose entries are live: it leaves
    the world as it is and finds the first handle for the sector, if any. *)
Lemma find_open_spec (w : world) (sec : block_sector_t) (l : list Z) :
  (forall p, In p l -> inodes w p <> None) ->
  exists r, find_open l sec w = Ok r w /\
    match r with
    | Some p => In p l /\ exists i, inodes w p = Some i /\ sector i = sec
    | None => forall p i, In p l -> inodes w p = Some i -> sector i <> sec
    end.
Proof.
  induction l as [|p l IH]; intros Hl.
  - exists None. split; [reflexivity|]. intros p i [].
  - cbn [find_open]. unfold bind, deref.
    destruct (inodes w p) as [i|] eqn:Hp.
    2:{ exfalso. apply (Hl p); [now left | assumption]. }
    destruct (sector i =? sec) eqn:E.
    + exists (Some p). split; [reflexivity|].
      apply Z.eqb_eq in E. split; [now left | eauto].
    + destruct IH as (r & Hr & Hspec).
      { intros q Hq. apply Hl. now right. }
      exists r. split; [assumption|].
      destruct r as [q|].
      * destruct Hspec as [Hin Hex]. split; [now right | assumption].
      * intros q j [Hq|Hq] Hj.
        -- subst q. rewrite Hp in Hj. inversion Hj; subst.
           now apply Z.eqb_neq.
        -- eapply Hspec; eauto.
Qed.

Lemma same_table_refl (w : world) : same_table w w.
Proof. repeat split. Qed.

Lemma same_table_trans (a b c : world) :
  same_table a b -> same_table b c -> same_table a c.
Proof. intros (H1 & H2 & H3) (K1 & K2 & K3). repeat split; congruence. Qed.

Lemma same_table_same_opens (w w' : world) :
  same_table w w' -> same_opens w w'.
Proof.
  intros (H1 & H2 & H3). repeat split; try assumption.
  intros p. rewrite H1. destruct (inodes w p); auto.
Qed.

Lemma table_ok_new (w w' : world) (sec : block_sector_t) (i : inode) :
  table_ok w ->
  (forall p j, inodes w p = Some j -> sector j <> sec) ->
  sector i = sec ->
  next_ptr w' = next_ptr w + 1 ->
  open_inodes w' = next_ptr w :: open_inodes w ->
  inodes w' = upd (inodes w) (next_ptr w) (Some i) ->
  table_ok w'.
Proof.
  intros (T1 & T2 & T3 & T4) Hfresh Hs En El Ei.
  assert (Hnone : inodes w (next_ptr w) = None).
  { destruct (inodes w (next_ptr w)) eqn:E; [|reflexivity].
    assert (inodes w (next_ptr w) <> None) as Hl by congruence.
    apply T2 in Hl. lia. }
  repeat split.
  - lia.
  - rewrite Ei in H. unfold upd in H. destruct (p =? next_ptr w) eqn:E.
    + apply Z.eqb_eq in E. lia.
    + apply T2 in H. lia.
  - rewrite Ei in H. unfold upd in H. destruct (p =? next_ptr w) eqn:E.
    + apply Z.eqb_eq in E. lia.
    + apply T2 in H. lia.
  - rewrite El, Ei. unfold upd. intros [Hp|Hp].
    + subst p. rewrite Z.eqb_refl. congruence.
    + destruct (p =? next_ptr w); [congruence | now apply T3].
  - rewrite El, Ei. unfold upd. destruct (p =? next_ptr w) eqn:E.
    + apply Z.eqb_eq in E. left. congruence.
    + intros H. right. now apply T3.
  - rewrite Ei. unfold upd. intros p q j1 j2.
    destruct (p =? next_ptr w) eqn:E1; destruct (q =? next_ptr w) eqn:E2;
      try apply Z.eqb_eq in E1; try apply Z.eqb_eq in E2; subst;
      intros H1 H2 H3.
    + congruence.
    + inversion H1; subst. exfalso. apply (Hfresh q j2 H2). congruence.
    + inversion H2; subst. exfalso. apply (Hfresh p j1 H1). congruence.
    + eapply T4; eauto.
Qed.

Lemma table_ok_free (w w' : world) (p : Z) :
  table_ok w ->
  next_ptr w' = next_ptr w ->
  open_inodes w' = remove Z.eq_dec p (open_inodes w) ->
  (forall q, inodes w' q = if q =? p then None else inodes w q) ->
  table_ok w'.
Proof.
  intros (T1 & T2 & T3 & T4) En El Ei.
  repeat split.
  - lia.
  - rewrite Ei in H. destruct (p0 =? p); [congruence|]. apply T2 in H. lia.
  - rewrite Ei in H. destruct (p0 =? p); [congruence|]. apply T2 in H. lia.
  - rewrite El, Ei. intros H. apply in_remove in H. destruct H as [H Hne].
    apply Z.eqb_neq in Hne. rewrite Hne. now apply T3.
  - rewrite El, Ei. destruct (p0 =? p) eqn:E; [congruence|].
    intros H. apply in_in_remove; [now apply Z.eqb_neq | now apply T3].
  - intros q1 q2 j1 j2. rewrite !Ei.
    destruct (q1 =? p); [discriminate|]. destruct (q2 =? p); [discriminate|].
    apply T4.
Qed.

Lemma inode_reopen_live (w : world) (p : Z) (i : inode) :
  p <> 0 -> inodes w p = Some i ->
  inode_reopen p w
  = Ok p (with_inodes w
            (upd (inodes w) p (Some (set_open_cnt i (open_cnt i + 1))))).
Proof.
  intros Hp Hi. apply Z.eqb_neq in Hp.
  unfold inode_reopen, bind, update, ret. rewrite Hp. cbn. now rewrite Hi.
Qed.

Section Lifecycle.

Variable NUM_DIRECT_BLOCKS : Z.
Variable inode_disk_image : inode_disk -> image.
Variable inode_disk_load : image -> inode_disk.

(** Opening a sector that has a live handle: the same address comes back,
    its count goes up by one, and nothing else in the world changes; in
    particular no sector is read. *)
Lemma inode_open_existing (w : world) (p : Z) (i : inode) :
  table_ok w -> inodes w p = Some i ->
  inode_open inode_disk_load (sector i) w
  = Ok p (with_inodes w
            (upd (inodes w) p (Some (set_open_cnt i (open_cnt i + 1))))).
Proof.
  intros T Hp. pose proof T as (T1 & T2 & T3 & T4).
  destruct (find_open_spec w (sector i) (open_inodes w)) as (r & Hr & Hspec).
  { intros q. apply T3. }
  unfold inode_open. unfold bind at 1. unfold bind at 1. rewrite Hr.
  destruct r as [q|].
  - destruct Hspec as (_ & j & Hq & Hs).
    assert (q = p) by (eapply T4; eauto). subst q.
    apply inode_reopen_live; [|assumption].
    assert (inodes w p <> None) as Hl by congruence. apply T2 in Hl. lia.
  - exfalso. apply (Hspec p i); auto. apply T3. congruence.
Qed.

(** What [inode_open] can do to a well-formed table. *)
Lemma inode_open_cases (w w' : world) (sec : block_sector_t) (r : Z) :
  table_ok w -> inode_open inode_disk_load sec w = Ok r w' ->
  (exists i, inodes w r = Some i /\ sector i = sec /\
             w' = with_inodes w
                    (upd (inodes w) r (Some (set_open_cnt i (open_cnt i + 1)))))
  \/ (r = 0 /\ w' = w)
  \/ (r = next_ptr w /\
      (forall p j, inodes w p = Some j -> sector j <> sec) /\
      next_ptr w' = next_ptr w + 1 /\
      open_inodes w' = next_ptr w :: open_inodes w /\
      exists i, sector i = sec /\ open_cnt i = 1 /\
                inodes w' = upd (inodes w) (next_ptr w) (Some i)).
Proof.
  intros T H. pose proof T as (T1 & T2 & T3 & T4).
  destruct (find_open_spec w sec (open_inodes w)) as (f & Hf & Hspec).
  { intros q. apply T3. }
  unfold inode_open in H. unfold bind at 1 in H. unfold bind at 1 in H.
  rewrite Hf in H. destruct f as [q|].
  - destruct Hspec as (_ & j & Hq & Hs). subst sec.
    assert (Hq0 : q <> 0).
    { assert (inodes w q <> None) as Hl by congruence. apply T2 in Hl. lia. }
    rewrite (inode_reopen_live w q j Hq0 Hq) in H.
    left. exists j. inversion H; subst. auto.
  - unfold bind, malloc_inode in H.
    destruct (heap_left w) as [|n] eqn:Hh.
    + cbn in H. inversion H; subst. right. left. auto.
    + assert (Hnz : (next_ptr w =? 0) = false) by (apply Z.eqb_neq; lia).
      cbn in H. rewrite Hnz in H. cbn in H. inversion H; subst.
      right. right. repeat split.
      * intros p j Hp. apply (Hspec p j); [|assumption].
        apply T3. congruence.
      * eexists. repeat split; reflexivity.
Qed.


Lemma inode_dealloc_same_table (d : inode_disk) :
  preserves same_table (inode_dealloc NUM_DIRECT_BLOCKS d).
Proof.
  exact (preserves_inode_dealloc same_table same_table_refl same_table_trans
           (fun w _ => same_table_refl w) (fun w _ => same_table_refl w)
           NUM_DIRECT_BLOCKS d).
Qed.

(** What [inode_close] does to the table. *)
Lemma inode_close_cases (w w' : world) (p : Z) (u : unit) :
  p <> 0 -> inode_close NUM_DIRECT_BLOCKS p w = Ok u w' ->
  exists i, inodes w p = Some i /\
    ((open_cnt i - 1 <> 0 /\
      w' = with_inodes w
             (upd (inodes w) p (Some (set_open_cnt i (open_cnt i - 1)))))
     \/ (open_cnt i - 1 = 0 /\
         next_ptr w' = next_ptr w /\
         open_inodes w' = remove Z.eq_dec p (open_inodes w) /\
         forall q, inodes w' q = if q =? p then None else inodes w q)).
Proof.
  intros Hp H. apply Z.eqb_neq in Hp.
  unfold inode_close in H. rewrite Hp in H.
  apply bind_inv in H. destruct H as (u1 & w1 & E1 & H).
  apply update_inv in E1. destruct E1 as (i & Hi & ->).
  exists i. split; [assumption|].
  unfold bind at 1 in H. unfold deref in H. cbn [inodes with_inodes] in H.
  rewrite upd_same in H. cbn [open_cnt set_open_cnt] in H.
  destruct (open_cnt i - 1 =? 0) eqn:E0.
  - apply Z.eqb_eq in E0. right. split; [assumption|].
    apply bind_inv in H. destruct H as (u2 & w2 & E2 & H).
    inversion E2; subst w2; clear E2.
    apply bind_inv in H. destruct H as (u3 & w3 & E3 & H).
    assert (S3 : same_table
                   (with_open_inodes
                      (with_inodes w
                         (upd (inodes w) p
                            (Some (set_open_cnt i (open_cnt i - 1)))))
                      (remove Z.eq_dec p (open_inodes w))) w3).
    { destruct (removed (set_open_cnt i (open_cnt i - 1))).
      - apply bind_inv in E3. destruct E3 as (u4 & w4 & E4 & E3).
        inversion E4; subst w4; clear E4.
        apply bind_inv in E3. destruct E3 as (b5 & w5 & E5 & E3).
        apply inode_dealloc_same_table in E5.
        apply ret_inv in E3. destruct E3 as [_ ->].
        eapply same_table_trans; [|exact E5]. repeat split.
      - apply ret_inv in E3. destruct E3 as [_ ->]. apply same_table_refl. }
    destruct S3 as (S1 & S2 & S3). cbn in S1, S2, S3.
    unfold free_inode in H. rewrite S1 in H. rewrite upd_same in H.
    inversion H; subst w'; clear H. cbn.
    repeat split; try assumption.
    intros q. unfold upd. destruct (q =? p); reflexivity.
  - apply Z.eqb_neq in E0. left. split; [assumption|].
    apply ret_inv in H. now destruct H.
Qed.

Lemma same_disk_refl (w : world) : same_disk w w.
Proof. reflexivity. Qed.

Lemma same_disk_trans (a b c : world) :
  same_disk a b -> same_disk b c -> same_disk a c.
Proof. unfold same_disk. congruence. Qed.

(** No call of the interface other than [inode_create] and
    [inode_write_at] writes a sector. *)
Lemma do_call_same_disk (c : call) (w w' : world) (r : Z) :
  leaves_device c = true ->
  do_call NUM_DIRECT_BLOCKS inode_disk_image inode_disk_load c w = Ok r w' ->
  disk w' = disk w.
Proof.
  intros Hc H.
  assert (P : forall A (m : M A) a w1,
             preserves same_disk m -> (m ;;; ret 0) w = Ok a w1 ->
             disk w1 = disk w).
  { intros A m a w1 Hm Hb. apply bind_inv in Hb.
    destruct Hb as (x & w2 & E & Hb). apply ret_inv in Hb.
    destruct Hb as [_ ->]. exact (Hm _ _ _ E). }
  destruct c; cbn [leaves_device] in Hc; try discriminate;
    cbn [do_call] in H.
  - exact (table_inode_open same_disk same_disk_refl same_disk_trans
             (fun w _ => same_disk_refl w) (fun w _ => same_disk_refl w)
             (fun w _ => same_disk_refl w) (fun w _ => same_disk_refl w)
             (fun w _ => same_disk_refl w) inode_disk_load sec _ _ _ H).
  - exact (table_inode_reopen same_disk same_disk_refl same_disk_trans
             (fun w _ => same_disk_refl w) p _ _ _ H).
  - apply (P _ _ _ _
             (table_inode_close same_disk same_disk_refl same_disk_trans
                (fun w _ => same_disk_refl w) (fun w _ => same_disk_refl w)
                (fun w _ => same_disk_refl w) (fun w _ => same_disk_refl w)
                (fun w _ => same_disk_refl w) NUM_DIRECT_BLOCKS p) H).
  - apply (P _ _ _ _
             (table_inode_remove same_disk same_disk_refl same_disk_trans
                (fun w _ => same_disk_refl w) p) H).
  - apply (P _ _ _ _
             (preserves_inode_read_at same_disk same_disk_refl
                same_disk_trans (fun w _ => same_disk_refl w)
                (fun w _ => same_disk_refl w) NUM_DIRECT_BLOCKS p size offset)
             H).
  - apply (P _ _ _ _
             (table_inode_deny_write same_disk same_disk_refl same_disk_trans
                (fun w _ => same_disk_refl w) p) H).
  - apply (P _ _ _ _
             (table_inode_allow_write same_disk same_disk_refl
                same_disk_trans (fun w _ => same_disk_refl w) p) H).
Qed.

(** C10: closing a handle that is not marked removed writes no sector and
    releases none, whether or not it is the last close; the device, the free
    map and the event log are exactly as before.  On the last close the
    handle, and with it the in-memory record, is gone.  No call of the
    interface other than [inode_create] and [inode_write_at] changes the
    device at all, so nothing else writes the record's sector. *)
Theorem inode_close_not_removed_leaves_device
    (w : world) (p : Z) (i : inode) :
  p <> 0 -> inodes w p = Some i -> removed i = false ->
  (exists w',
     inode_close NUM_DIRECT_BLOCKS p w = Ok tt w' /\
     disk w' = disk w /\ free_map w' = free_map w /\ trace w' = trace w /\
     (open_cnt i = 1 ->
      inodes w' p = None /\
      open_inodes w' = remove Z.eq_dec p (open_inodes w)) /\
     (open_cnt i <> 1 ->
      inodes w' p = Some (set_open_cnt i (open_cnt i - 1)) /\
      open_inodes w' = open_inodes w)) /\
  (forall c r w1,
     leaves_device c = true ->
     do_call NUM_DIRECT_BLOCKS inode_disk_image inode_disk_load c w = Ok r w1 ->
     disk w1 = disk w).
Proof.
  intros Hp Hi Hr. split; [|intros c r w1; apply do_call_same_disk].
  apply Z.eqb_neq in Hp.
  unfold inode_close. rewrite Hp.
  unfold bind at 1. unfold update. rewrite Hi.
  unfold bind at 1. unfold deref. cbn [inodes with_inodes].
  rewrite upd_same. cbn [open_cnt set_open_cnt removed].
  destruct (open_cnt i - 1 =? 0) eqn:E0.
  - apply Z.eqb_eq in E0. rewrite Hr.
    unfold bind, list_remove, ret, free_inode. cbn. rewrite upd_same.
    eexists. split; [reflexivity|]. cbn. rewrite upd_same.
    repeat split; intros; lia.
  - apply Z.eqb_neq in E0.
    eexists. split; [reflexivity|]. cbn. rewrite upd_same.
    repeat split; intros; lia.
Qed.


Lemma same_opens_update (w : world) (p : Z) (i : inode) (f : inode -> inode) :
  keeps_opens f -> inodes w p = Some i ->
  same_opens w (with_inodes w (upd (inodes w) p (Some (f i)))).
Proof.
  intros Hf Hi. destruct (Hf i). now apply same_opens_store with (i := i).
Qed.

Lemma keeps_opens_set_data (g : inode -> inode_disk) :
  keeps_opens (fun i => set_data i (g i)).
Proof. intros i. split; reflexivity. Qed.

Lemma update_same_opens (p : Z) (f : inode -> inode) :
  keeps_opens f -> preserves same_opens (update p f).
Proof.
  intros Hf w a w' H. apply update_inv in H. destruct H as (i & Hi & ->).
  now apply same_opens_update.
Qed.

Lemma inode_create_same_opens sec len is_dir :
  preserves same_opens
    (inode_create NUM_DIRECT_BLOCKS inode_disk_image sec len is_dir).
Proof.
  exact (preserves_inode_create same_opens same_opens_refl same_opens_trans
           same_opens_log same_opens_disk same_opens_free_map
           same_opens_heap_left NUM_DIRECT_BLOCKS inode_disk_image
           sec len is_dir).
Qed.

Lemma inode_read_at_same_opens p size offset :
  preserves same_opens (inode_read_at NUM_DIRECT_BLOCKS p size offset).
Proof.
  exact (preserves_inode_read_at same_opens same_opens_refl same_opens_trans
           same_opens_log same_opens_heap_left NUM_DIRECT_BLOCKS
           p size offset).
Qed.

Lemma inode_write_at_same_opens p buffer size offset :
  preserves same_opens
    (inode_write_at NUM_DIRECT_BLOCKS inode_disk_image p buffer size offset).
Proof.
  exact (preserves_inode_write_at same_opens same_opens_refl same_opens_trans
           same_opens_log same_opens_disk same_opens_free_map
           same_opens_heap_left NUM_DIRECT_BLOCKS inode_disk_image
           keeps_opens same_opens_update keeps_opens_set_data
           p buffer size offset).
Qed.

Lemma inode_remove_same_opens p : preserves same_opens (inode_remove p).
Proof.
  intros w a w' H. unfold inode_remove in H. minv.
  apply update_same_opens in H; [assumption|]. intros i. split; reflexivity.
Qed.

Lemma inode_deny_write_same_opens p :
  preserves same_opens (inode_deny_write p).
Proof.
  intros w a w' H. unfold inode_deny_write in H. minv.
  apply update_same_opens in E; [assumption|]. intros i. split; reflexivity.
Qed.

Lemma inode_allow_write_same_opens p :
  preserves same_opens (inode_allow_write p).
Proof.
  intros w a w' H. unfold inode_allow_write in H. minv.
  apply update_same_opens in H; [assumption|]. intros i. split; reflexivity.
Qed.

Lemma quiet_step (w w' : world) (h : list (call * Z)) (e : call * Z) :
  same_opens w w' -> (forall p, p <> 0 -> handle_delta p e = 0) ->
  table_ok w -> counts_ok w h ->
  table_ok w' /\ counts_ok w' (h ++ [e]).
Proof.
  intros S D T C. split.
  - eapply table_ok_same_opens; eauto.
  - eapply counts_ok_same_opens; eauto.
Qed.

(** Counting after a call that changed one handle's count by [delta p]. *)
Lemma counts_ok_bump (w : world) (h : list (call * Z)) (e : call * Z)
    (p : Z) (i : inode) (n : Z) :
  counts_ok w h -> inodes w p = Some i -> p <> 0 ->
  handle_delta p e = n ->
  (forall q, q <> p -> q <> 0 -> handle_delta q e = 0) ->
  counts_ok (with_inodes w (upd (inodes w) p
                              (Some (set_open_cnt i (open_cnt i + n)))))
    (h ++ [e]).
Proof.
  intros C Hi Hp Hd Ho q Hq. rewrite net_opens_app. simpl. cbn. unfold upd.
  pose proof (C q Hq) as Cq.
  destruct (q =? p) eqn:E.
  - apply Z.eqb_eq in E. subst q. rewrite Hi in Cq. cbn. lia.
  - apply Z.eqb_neq in E. rewrite (Ho q E Hq).
    destruct (inodes w q); lia.
Qed.

(** Every call keeps the table well formed and the counts in step with the
    history. *)
Lemma do_call_ok (c : call) (w w' : world) (r : Z) (h : list (call * Z)) :
  table_ok w -> counts_ok w h -> do_call NUM_DIRECT_BLOCKS inode_disk_image inode_disk_load c w = Ok r w' ->
  table_ok w' /\ counts_ok w' (h ++ [(c, r)]).
Proof.
  intros T C H. destruct c; cbn [do_call] in H.
  - (* Create *)
    minv. apply inode_create_same_opens in E.
    eapply quiet_step; [exact E | intros ? ?; reflexivity | assumption..].
  - (* Open *)
    destruct (inode_open_cases w w' sec r T H)
      as [(i & Hi & Hs & ->) | [[-> ->] | (-> & Hfresh & En & El & i & Hs & Hc & Ei)]].
    + assert (Hr : r <> 0).
      { destruct T as (_ & T2 & _).
        assert (inodes w r <> None) as Hl by congruence.
        apply T2 in Hl. lia. }
      split.
      * eapply table_ok_update; eauto.
      * apply counts_ok_bump; auto.
        -- cbn. now rewrite Z.eqb_refl.
        -- intros q Hq _. cbn. destruct (r =? q) eqn:E; [|reflexivity].
           apply Z.eqb_eq in E. congruence.
    + eapply quiet_step; [apply same_opens_refl | | eassumption..].
      intros p Hp. unfold handle_delta. destruct (0 =? p) eqn:E; [|reflexivity].
      apply Z.eqb_eq in E. congruence.
    + split.
      * eapply table_ok_new; eauto.
      * intros q Hq. rewrite net_opens_app. simpl. rewrite Ei. unfold upd.
        pose proof (C q Hq) as Cq.
        destruct (q =? next_ptr w) eqn:E.
        -- apply Z.eqb_eq in E. subst q.
           assert (Hnone : inodes w (next_ptr w) = None).
           { destruct T as (_ & T2 & _).
             destruct (inodes w (next_ptr w)) eqn:E; [|reflexivity].
             assert (inodes w (next_ptr w) <> None) as Hl by congruence.
             apply T2 in Hl. lia. }
           rewrite Hnone in Cq. rewrite Z.eqb_refl. lia.
        -- rewrite Z.eqb_sym, E. destruct (inodes w q); lia.
  - (* Reopen *)
    unfold inode_reopen in H. destruct (p =? 0) eqn:Ep.
    + cbn in H. inversion H; subst. apply Z.eqb_eq in Ep. subst r.
      eapply quiet_step; [apply same_opens_refl | | eassumption..].
      intros p Hp. unfold handle_delta. destruct (0 =? p) eqn:E; [|reflexivity].
      apply Z.eqb_eq in E. congruence.
    + cbn [negb] in H. minv. apply update_inv in E.
      destruct E as (i & Hi & ->). apply Z.eqb_neq in Ep. split.
      * eapply table_ok_update; eauto.
      * apply counts_ok_bump; auto.
        -- cbn. now rewrite Z.eqb_refl.
        -- intros q Hq _. cbn. destruct (p =? q) eqn:E; [|reflexivity].
           apply Z.eqb_eq in E. congruence.
  - (* Close *)
    apply bind_inv in H. destruct H as (a & w1 & E & H).
    apply ret_inv in H. destruct H as [-> <-].
    destruct (Z.eq_dec p 0) as [->|Hp].
    + unfold inode_close in E. cbn in E. inversion E; subst.
      eapply quiet_step; [apply same_opens_refl | | eassumption..].
      intros p Hp. unfold handle_delta. destruct (0 =? p) eqn:E'; [|reflexivity].
      apply Z.eqb_eq in E'. congruence.
    + destruct (inode_close_cases w w' p a Hp E)
        as (i & Hi & [[Hne ->] | (Hz & En & El & Ei)]).
      * split.
        -- eapply table_ok_update; eauto.
        -- replace (open_cnt i - 1) with (open_cnt i + -1) by lia.
           apply counts_ok_bump; auto.
           ++ cbn. now rewrite Z.eqb_refl.
           ++ intros q Hq _. cbn. destruct (p =? q) eqn:E'; [|reflexivity].
              apply Z.eqb_eq in E'. congruence.
      * split.
        -- eapply table_ok_free; eauto.
        -- intros q Hq. rewrite net_opens_app. simpl. rewrite Ei.
           pose proof (C q Hq) as Cq.
           destruct (q =? p) eqn:E'.
           ++ apply Z.eqb_eq in E'. subst q. rewrite Hi in Cq.
              rewrite Z.eqb_refl. lia.
           ++ rewrite Z.eqb_sym, E'. destruct (inodes w q); lia.
  - (* Remove *)
    minv. apply inode_remove_same_opens in E.
    eapply quiet_step; [exact E | intros ? ?; reflexivity | assumption..].
  - (* ReadAt *)
    minv. apply inode_read_at_same_opens in E.
    eapply quiet_step; [exact E | intros ? ?; reflexivity | assumption..].
  - (* WriteAt *)
    minv. apply inode_write_at_same_opens in E.
    eapply quiet_step; [exact E | intros ? ?; reflexivity | assumption..].
  - (* DenyWrite *)
    minv. apply inode_deny_write_same_opens in E.
    eapply quiet_step; [exact E | intros ? ?; reflexivity | assumption..].
  - (* AllowWrite *)
    minv. apply inode_allow_write_same_opens in E.
    eapply quiet_step; [exact E | intros ? ?; reflexivity | assumption..].
Qed.


Lemma run_ok (cs : list call) :
  forall (w w' : world) (h0 h : list (call * Z)),
    table_ok w -> counts_ok w h0 -> run NUM_DIRECT_BLOCKS inode_disk_image inode_disk_load cs w = Ok h w' ->
    table_ok w' /\ counts_ok w' (h0 ++ h).
Proof.
  induction cs as [|c cs IH]; intros w w' h0 h T C H.
  - apply ret_inv in H. destruct H as [-> ->]. now rewrite app_nil_r.
  - cbn [run] in H.
    apply bind_inv in H. destruct H as (r & w1 & E1 & H).
    apply bind_inv in H. destruct H as (h1 & w2 & E2 & H).
    apply ret_inv in H. destruct H as [-> ->].
    destruct (do_call_ok c w w1 r h0 T C E1) as [T1 C1].
    destruct (IH w1 w2 (h0 ++ [(c, r)]) h1 T1 C1 E2) as [T2 C2].
    split; [assumption|]. now rewrite <- app_assoc in C2.
Qed.

(** C9: in every state the module reaches from an empty table by calls of
    its interface, (1) opening the sector of a live handle returns that very
    handle with its open count raised by one and changes nothing else, so
    the device is not read; (2) a deny-write made through the pointer the
    second open returned shows in the handle the first pointer designates;
    (3) each handle's open count is the number of opens and reopens that
    returned it minus the number of closes made on it. *)
Theorem shared_handle_identity
    (cs : list call) (w0 w : world) (h : list (call * Z)) :
  (forall p, inodes w0 p = None) -> open_inodes w0 = [] -> 0 < next_ptr w0 ->
  run NUM_DIRECT_BLOCKS inode_disk_image inode_disk_load cs w0 = Ok h w ->
  (forall p i, inodes w p = Some i ->
     inode_open inode_disk_load (sector i) w
     = Ok p (with_inodes w
               (upd (inodes w) p (Some (set_open_cnt i (open_cnt i + 1)))))) /\
  (forall p i q w1 u w2,
     inodes w p = Some i ->
     inode_open inode_disk_load (sector i) w = Ok q w1 ->
     inode_deny_write q w1 = Ok u w2 ->
     q = p /\
     exists i', inodes w2 p = Some i' /\
                deny_write_cnt i' = deny_write_cnt i + 1) /\
  (forall p, p <> 0 ->
     match inodes w p with
     | Some i => open_cnt i = net_opens p h
     | None => net_opens p h = 0
     end).
Proof.
  intros Hnone Hlist Hnext Hrun.
  assert (T0 : table_ok w0).
  { repeat split.
    - assumption.
    - rewrite Hnone in H. congruence.
    - rewrite Hnone in H. congruence.
    - rewrite Hlist. intros [].
    - rewrite Hnone. congruence.
    - intros p q i j Hp. rewrite Hnone in Hp. discriminate. }
  assert (C0 : counts_ok w0 []).
  { intros p _. now rewrite Hnone. }
  destruct (run_ok cs w0 w [] h T0 C0 Hrun) as [T C].
  split; [|split].
  - intros p i Hi. now apply inode_open_existing.
  - intros p i q w1 u w2 Hi Ho Hd.
    rewrite (inode_open_existing w p i T Hi) in Ho.
    inversion Ho; subst q w1; clear Ho. split; [reflexivity|].
    unfold inode_deny_write in Hd.
    apply bind_inv in Hd. destruct Hd as (u1 & w3 & E & Hd).
    apply update_inv in E. destruct E as (i1 & Hi1 & ->).
    cbn [inodes with_inodes] in Hi1. rewrite upd_same in Hi1.
    inversion Hi1; subst i1; clear Hi1.
    apply bind_inv in Hd. destruct Hd as (i2 & w4 & E & Hd).
    apply deref_inv in E. destruct E as [E ->].
    apply ASSERT_inv in Hd. destruct Hd as [_ ->].
    cbn [inodes with_inodes] in *. rewrite upd_same in E.
    rewrite upd_same. eexists. split; [reflexivity|]. reflexivity.
  - exact C.
Qed.

End Lifecycle.

Lemma shared_handle_identity_witness :
  exists h w,
    run 123 example_image example_load example_calls example_world = Ok h w /\
    (forall p i, inodes w p = Some i ->
       inode_open example_load (sector i) w
       = Ok p (with_inodes w
                 (upd (inodes w) p (Some (set_open_cnt i (open_cnt i + 1)))))) /\
    (forall p i q w1 u w2,
       inodes w p = Some i ->
       inode_open example_load (sector i) w = Ok q w1 ->
       inode_deny_write q w1 = Ok u w2 ->
       q = p /\
       exists i', inodes w2 p = Some i' /\
                  deny_write_cnt i' = deny_write_cnt i + 1) /\
    (forall p, p <> 0 ->
       match inodes w p with
       | Some i => open_cnt i = net_opens p h
       | None => net_opens p h = 0
       end).
Proof.
  eexists. eexists. split.
  - vm_compute. reflexivity.
  - apply (shared_handle_identity 123 example_image example_load
             example_calls example_world).
    + reflexivity.
    + reflexivity.
    + reflexivity.
    + vm_compute. reflexivity.
Defined.

Lemma inode_close_not_removed_leaves_device_witness :
  (exists w',
     inode_close 123 1 example_big_world = Ok tt w' /\
     disk w' = disk example_big_world /\
     free_map w' = free_map example_big_world /\
     trace w' = trace example_big_world /\
     (open_cnt example_big_inode = 1 ->
      inodes w' 1 = None /\
      open_inodes w' = remove Z.eq_dec 1 (open_inodes example_big_world)) /\
     (open_cnt example_big_inode <> 1 ->
      inodes w' 1 = Some (set_open_cnt example_big_inode
                            (open_cnt example_big_inode - 1)) /\
      open_inodes w' = open_inodes example_big_world)) /\
  (forall c r w1,
     leaves_device c = true ->
     do_call 123 example_image example_load c example_big_world = Ok r w1 ->
     disk w1 = disk example_big_world).
Proof.
  apply (inode_close_not_removed_leaves_device 123 example_image example_load
           example_big_world 1 example_big_inode).
  - lia.
  - reflexivity.
  - reflexivity.
Defined.

(** ** Reading *)

Lemma reads_only_refl (w : world) : reads_only w w.
Proof. split; reflexivity. Qed.

Lemma reads_only_trans (a b c : world) :
  reads_only a b -> reads_only b c -> reads_only a c.
Proof. intros [H1 H2] [K1 K2]. split; congruence. Qed.

Lemma chunk_size_at_bounds (len size offset : off_t) :
  0 < chunk_size_at len size offset ->
  chunk_size_at len size offset <= size /\
  offset + chunk_size_at len size offset <= len.
Proof.
  unfold chunk_size_at.
  destruct (len - offset <? BLOCK_SECTOR_SIZE - Z.rem offset BLOCK_SECTOR_SIZE)
    eqn:E1;
    [apply Z.ltb_lt in E1 | apply Z.ltb_ge in E1].
  - destruct (size <? len - offset) eqn:E2;
      [apply Z.ltb_lt in E2 | apply Z.ltb_ge in E2]; lia.
  - destruct (size <? BLOCK_SECTOR_SIZE - Z.rem offset BLOCK_SECTOR_SIZE) eqn:E2;
      [apply Z.ltb_lt in E2 | apply Z.ltb_ge in E2]; lia.
Qed.

Lemma slice_length (a : list Z) (from len : Z) (w w' : world) (r : list Z) :
  slice a from len w = Ok r w' ->
  w' = w /\ Z.of_nat (List.length r) = len.
Proof.
  unfold slice.
  destruct ((0 <=? from) && (0 <=? len)
            && (from + len <=? Z.of_nat (List.length a))) eqn:E;
    intros H; inversion H; subst. split; [reflexivity|].
  apply andb_prop in E. destruct E as [E E3].
  apply andb_prop in E. destruct E as [E1 E2].
  apply Z.leb_le in E1, E2, E3.
  rewrite length_firstn, length_skipn. lia.
Qed.

Lemma deref_live (w : world) (p : Z) (i : inode) :
  inodes w p = Some i -> deref p w = Ok i w.
Proof. intros H. unfold deref. now rewrite H. Qed.

Lemma inode_length_live (w : world) (p : Z) (i : inode) :
  inodes w p = Some i -> inode_length p w = Ok (length (data i)) w.
Proof. intros H. unfold inode_length, bind, deref. now rewrite H. Qed.

Lemma update_live (w : world) (p : Z) (i : inode) (f : inode -> inode) :
  inodes w p = Some i ->
  update p f w = Ok tt (with_inodes w (upd (inodes w) p (Some (f i)))).
Proof. intros H. unfold update. now rewrite H. Qed.

Section Reading.

Variable NUM_DIRECT_BLOCKS : Z.

Lemma byte_to_sector_reads_only p pos :
  preserves reads_only (byte_to_sector NUM_DIRECT_BLOCKS p pos).
Proof.
  exact (preserves_byte_to_sector reads_only reads_only_refl reads_only_trans
           (fun w _ => reads_only_refl w) (fun w _ => reads_only_refl w)
           NUM_DIRECT_BLOCKS p pos).
Qed.

(** The copy loop of [inode_read_at], from any point on: what it moves is
    what the cursor advances by, it never moves more than was asked for, and
    once it has moved anything the cursor is not past the end of the data.
    The loop reads only. *)
Lemma read_loop_spec (p : Z) (i : inode) (fuel : nat) :
  forall (c c' : cursor) (buffer buffer' : list Z) (w w' : world),
    inodes w p = Some i ->
    read_loop NUM_DIRECT_BLOCKS fuel p c buffer w = Ok (c', buffer') w' ->
    let moved := c_moved c' - c_moved c in
    0 <= moved /\
    c_offset c' = c_offset c + moved /\
    c_size c' = c_size c - moved /\
    (0 < moved -> c_offset c' <= length (data i) /\ moved <= c_size c) /\
    reads_only w w' /\
    ((forall s, List.length (disk w s) = 512%nat) ->
     Z.of_nat (List.length buffer')
     = Z.of_nat (List.length buffer) + moved).
Proof.
  induction fuel as [|fuel IH]; intros c c' buffer buffer' w w' Hi H moved;
    subst moved; cbn [read_loop] in H.
  - destruct (c_size c <=? 0); apply ret_inv in H; destruct H as [H ->];
      inversion H; subst;
      (split; [lia|]; split; [lia|]; split; [lia|]; split; [lia|];
       split; [apply reads_only_refl | intros; lia]).
  - destruct (c_size c <=? 0) eqn:Es.
    { apply ret_inv in H; destruct H as [H ->];
        inversion H; subst;
        (split; [lia|]; split; [lia|]; split; [lia|]; split; [lia|];
         split; [apply reads_only_refl | intros; lia]). }
    apply bind_inv in H. destruct H as (sector_idx & w1 & E1 & H).
    apply byte_to_sector_reads_only in E1. destruct E1 as [D1 I1].
    apply bind_inv in H. destruct H as (len & w2 & E2 & H).
    unfold inode_length in E2.
    apply bind_inv in E2. destruct E2 as (i2 & w3 & E2 & E3).
    apply deref_inv in E2. destruct E2 as [E2 ->].
    apply ret_inv in E3. destruct E3 as [-> ->].
    rewrite I1, Hi in E2. inversion E2; subst i2; clear E2.
    set (chunk := chunk_size_at (length (data i)) (c_size c) (c_offset c)) in *.
    destruct (chunk <=? 0) eqn:Ec.
    { apply ret_inv in H; destruct H as [H ->];
        inversion H; subst;
        (split; [lia|]; split; [lia|]; split; [lia|]; split; [lia|];
         split; [split; assumption | intros; lia]). }
    apply Z.leb_gt in Ec.
    destruct (chunk_size_at_bounds _ _ _ Ec) as [B1 B2]. fold chunk in B1, B2.
    destruct ((Z.rem (c_offset c) BLOCK_SECTOR_SIZE =? 0)
              && (chunk =? BLOCK_SECTOR_SIZE)) eqn:Efull.
    + apply andb_prop in Efull. destruct Efull as [_ Efull].
      apply Z.eqb_eq in Efull.
      apply bind_inv in H. destruct H as (img & w4 & E4 & H).
      inversion E4; subst img w4; clear E4.
      apply IH in H; [|cbn; now rewrite I1].
      cbn [c_moved c_offset c_size] in H.
      destruct H as (M0 & M1 & M2 & M3 & [D2 I2] & ML).
      split; [lia|]. split; [lia|]. split; [lia|]. split; [lia|].
      split; [split; cbn in D2, I2; congruence|].
      intros Hd. rewrite ML.
      * rewrite length_app, D1, Hd. unfold BLOCK_SECTOR_SIZE in Efull. lia.
      * intros s. cbn. rewrite D1. apply Hd.
    + apply bind_inv in H. destruct H as (got & w4 & E4 & H).
      assert (R4 : reads_only w1 w4).
      { destruct (c_bounce c).
        - apply ret_inv in E4. destruct E4 as [_ ->]. apply reads_only_refl.
        - unfold malloc_buf in E4. destruct (heap_left w1);
            inversion E4; subst; split; reflexivity. }
      destruct R4 as [D4 I4].
      destruct got; cbn [negb] in H.
      2:{ apply ret_inv in H; destruct H as [H ->];
          inversion H; subst;
          (split; [lia|]; split; [lia|]; split; [lia|]; split; [lia|];
           split; [split; congruence | intros; lia]). }
      apply bind_inv in H. destruct H as (bounce & w5 & E5 & H).
      inversion E5; subst bounce w5; clear E5.
      apply bind_inv in H. destruct H as (piece & w6 & E6 & H).
      apply slice_length in E6. destruct E6 as [-> L6].
      apply IH in H; [|cbn; congruence].
      cbn [c_moved c_offset c_size] in H.
      destruct H as (M0 & M1 & M2 & M3 & [D2 I2] & ML).
      split; [lia|]. split; [lia|]. split; [lia|]. split; [lia|].
      split; [split; cbn in D2, I2; congruence|].
      intros Hd. rewrite ML.
      * rewrite length_app. lia.
      * intros s. cbn. rewrite D4, D1. apply Hd.
Qed.

(** The loop needs no more turns than [size]: with any number of turns from
    [size] up it computes the same thing, so it never stops for want of
    turns. *)
Lemma read_loop_fuel_enough (p : Z) (f1 : nat) :
  forall (f2 : nat) (c : cursor) (buffer : list Z) (w : world),
    (Z.to_nat (c_size c) <= f1)%nat -> (Z.to_nat (c_size c) <= f2)%nat ->
    read_loop NUM_DIRECT_BLOCKS f1 p c buffer w
    = read_loop NUM_DIRECT_BLOCKS f2 p c buffer w.
Proof.
  induction f1 as [|f1 IH]; intros f2 c buffer w H1 H2.
  - cbn [read_loop]. destruct f2; cbn [read_loop]; [reflexivity|].
    destruct (c_size c <=? 0) eqn:Es; [reflexivity|].
    apply Z.leb_gt in Es. lia.
  - destruct f2 as [|f2]; cbn [read_loop];
      destruct (c_size c <=? 0) eqn:Es; try reflexivity.
    + apply Z.leb_gt in Es. lia.
    + apply Z.leb_gt in Es. unfold bind.
      destruct (byte_to_sector NUM_DIRECT_BLOCKS p (c_offset c) w)
        as [sector_idx w1|]; [|reflexivity].
      destruct (inode_length p w1) as [len w2|]; [|reflexivity].
      destruct (chunk_size_at len (c_size c) (c_offset c) <=? 0) eqn:Ec;
        [reflexivity|].
      apply Z.leb_gt in Ec.
      destruct ((Z.rem (c_offset c) BLOCK_SECTOR_SIZE =? 0)
                && (chunk_size_at len (c_size c) (c_offset c)
                    =? BLOCK_SECTOR_SIZE)).
      * cbn [block_read]. apply IH; cbn [c_size]; lia.
      * destruct ((if c_bounce c then ret true else malloc_buf) w2)
          as [got w3|]; [|reflexivity].
        destruct (negb got); [reflexivity|].
        cbn [block_read].
        destruct (slice (disk w3 sector_idx)
                    (Z.rem (c_offset c) BLOCK_SECTOR_SIZE)
                    (chunk_size_at len (c_size c) (c_offset c))
                    (log (EvRead sector_idx) w3)); [|reflexivity].
        apply IH; cbn [c_size]; lia.
Qed.

(** Inside the direct and single-indirect ranges the translation returns,
    reading only and giving back the scratch block it took. *)
Lemma byte_to_sector_returns (w : world) (p : Z) (i : inode) (pos : off_t) :
  0 <= NUM_DIRECT_BLOCKS -> p <> 0 -> inodes w p = Some i ->
  List.length (direct_blocks (data i)) = Z.to_nat NUM_DIRECT_BLOCKS ->
  length (data i) <= (NUM_DIRECT_BLOCKS + NUM_INDIRECT_PTRS) * BLOCK_SECTOR_SIZE ->
  0 <= pos -> (1 <= heap_left w)%nat ->
  exists s w',
    byte_to_sector NUM_DIRECT_BLOCKS p pos w = Ok s w' /\
    reads_only w w' /\ heap_left w' = heap_left w.
Proof.
  intros HN Hp Hi Hdir Hlen Hpos Hheap.
  unfold byte_to_sector, bind, ASSERT, deref.
  apply Z.eqb_neq in Hp. rewrite Hp. cbn -[Z.quot Z.rem]. rewrite Hi.
  destruct (pos <? length (data i)) eqn:E.
  2:{ eexists. eexists. split; [reflexivity|]. split;
      [apply reads_only_refl | reflexivity]. }
  apply Z.ltb_lt in E.
  assert (Hq0 : 0 <= Z.quot pos BLOCK_SECTOR_SIZE)
    by (apply Z.quot_pos; unfold BLOCK_SECTOR_SIZE; lia).
  assert (Hq1 : Z.quot pos BLOCK_SECTOR_SIZE
                < NUM_DIRECT_BLOCKS + NUM_INDIRECT_PTRS).
  { apply Z.quot_lt_upper_bound;
      unfold BLOCK_SECTOR_SIZE, NUM_INDIRECT_PTRS in *; lia. }
  destruct (Z.quot pos BLOCK_SECTOR_SIZE <? NUM_DIRECT_BLOCKS) eqn:E1.
  - apply Z.ltb_lt in E1.
    eexists. eexists. split; [|split].
    + apply array_get_in_range. rewrite Hdir. lia.
    + apply reads_only_refl.
    + reflexivity.
  - apply Z.ltb_ge in E1. unfold malloc_buf.
    destruct (heap_left w) as [|n] eqn:Eh; [lia|].
    apply Z.ltb_lt in Hq1. rewrite Hq1. apply Z.ltb_lt in Hq1.
    unfold block_read_ptrs, block_read, bind, ret.
    rewrite array_get_in_range
      by (rewrite block_ptrs_of_image_length;
          unfold NUM_INDIRECT_PTRS in *; lia).
    cbn. eexists. eexists. split; [reflexivity|]. split.
    + split; reflexivity.
    + reflexivity.
Qed.

Lemma slice_in_range (a : list Z) (from len : Z) (w : world) :
  0 <= from -> 0 <= len -> from + len <= Z.of_nat (List.length a) ->
  slice a from len w
  = Ok (firstn (Z.to_nat len) (skipn (Z.to_nat from) a)) w.
Proof.
  intros H1 H2 H3. unfold slice.
  apply Z.leb_le in H1, H2, H3. now rewrite H1, H2, H3.
Qed.

Lemma chunk_size_at_within_sector (len size offset : off_t) :
  0 <= offset ->
  0 <= Z.rem offset BLOCK_SECTOR_SIZE /\
  Z.rem offset BLOCK_SECTOR_SIZE + chunk_size_at len size offset
  <= BLOCK_SECTOR_SIZE.
Proof.
  intros H0.
  pose proof (Z.rem_bound_pos offset BLOCK_SECTOR_SIZE H0
                ltac:(unfold BLOCK_SECTOR_SIZE; lia)) as [R0 R1].
  split; [assumption|]. unfold chunk_size_at.
  destruct (len - offset <? BLOCK_SECTOR_SIZE - Z.rem offset BLOCK_SECTOR_SIZE)
    eqn:E1;
    [apply Z.ltb_lt in E1 | apply Z.ltb_ge in E1].
  - destruct (size <? len - offset) eqn:E2;
      [apply Z.ltb_lt in E2 | apply Z.ltb_ge in E2]; lia.
  - destruct (size <? BLOCK_SECTOR_SIZE - Z.rem offset BLOCK_SECTOR_SIZE) eqn:E2;
      [apply Z.ltb_lt in E2 | apply Z.ltb_ge in E2]; lia.
Qed.

(** A file that ends inside the single-indirect range, read from a
    non-negative offset on a device of 512-byte sectors with two scratch
    objects to spare: the copy loop returns. *)
Lemma read_loop_returns (p : Z) (i : inode) (fuel : nat) :
  0 <= NUM_DIRECT_BLOCKS -> p <> 0 ->
  List.length (direct_blocks (data i)) = Z.to_nat NUM_DIRECT_BLOCKS ->
  length (data i) <= (NUM_DIRECT_BLOCKS + NUM_INDIRECT_PTRS) * BLOCK_SECTOR_SIZE ->
  forall (c : cursor) (buffer : list Z) (w : world),
    inodes w p = Some i -> 0 <= c_offset c ->
    (forall s, List.length (disk w s) = 512%nat) ->
    (2 <= heap_left w + (if c_bounce c then 1 else 0))%nat ->
    exists r w', read_loop NUM_DIRECT_BLOCKS fuel p c buffer w = Ok r w'.
Proof.
  intros HN Hp Hdir Hlen.
  induction fuel as [|fuel IH]; intros c buffer w Hi Hoff Hdisk Hheap;
    cbn [read_loop].
  - destruct (c_size c <=? 0); eexists; eexists; reflexivity.
  - destruct (c_size c <=? 0); [eexists; eexists; reflexivity|].
    destruct (byte_to_sector_returns w p i (c_offset c))
      as (sector_idx & w1 & E1 & [D1 I1] & H1); try assumption.
    { destruct (c_bounce c); lia. }
    rewrite (bind_Ok _ _ w w1 sector_idx E1).
    rewrite (bind_Ok _ _ w1 w1 (length (data i)))
      by (apply inode_length_live; congruence).
    set (chunk := chunk_size_at (length (data i)) (c_size c) (c_offset c)).
    destruct (chunk <=? 0) eqn:Ec; [eexists; eexists; reflexivity|].
    apply Z.leb_gt in Ec.
    destruct ((Z.rem (c_offset c) BLOCK_SECTOR_SIZE =? 0)
              && (chunk =? BLOCK_SECTOR_SIZE)).
    + unfold bind at 1. cbn [block_read].
      apply IH; cbn;
        first [congruence | lia | intros s; rewrite D1; apply Hdisk].
    + destruct (c_bounce c) eqn:Eb.
      * unfold bind at 1. cbn [ret negb]. unfold bind at 1. cbn [block_read].
        destruct (chunk_size_at_within_sector (length (data i)) (c_size c)
                    (c_offset c) Hoff) as [S0 S1]. fold chunk in S1.
        erewrite bind_Ok.
        2:{ apply slice_in_range; [exact S0 | lia |].
            rewrite D1, Hdisk. unfold BLOCK_SECTOR_SIZE in *. lia. }
        apply IH; cbn;
          first [congruence | lia | intros s; rewrite D1; apply Hdisk].
      * unfold bind at 1. unfold malloc_buf.
        destruct (heap_left w1) as [|n] eqn:Eh; [lia|].
        cbn [negb]. unfold bind at 1. cbn [block_read].
        destruct (chunk_size_at_within_sector (length (data i)) (c_size c)
                    (c_offset c) Hoff) as [S0 S1]. fold chunk in S1.
        erewrite bind_Ok.
        2:{ apply slice_in_range; [exact S0 | lia |].
            cbn. rewrite D1, Hdisk. unfold BLOCK_SECTOR_SIZE in *. lia. }
        apply IH; cbn;
          first [congruence | lia | intros s; rewrite D1; apply Hdisk].
Qed.

(** Under the same conditions [inode_read_at] returns. *)
Lemma inode_read_at_returns (w : world) (p : Z) (i : inode)
    (size offset : off_t) :
  0 <= NUM_DIRECT_BLOCKS -> p <> 0 -> inodes w p = Some i ->
  List.length (direct_blocks (data i)) = Z.to_nat NUM_DIRECT_BLOCKS ->
  length (data i) <= (NUM_DIRECT_BLOCKS + NUM_INDIRECT_PTRS) * BLOCK_SECTOR_SIZE ->
  0 <= offset ->
  (forall s, List.length (disk w s) = 512%nat) ->
  (2 <= heap_left w)%nat ->
  exists n bytes w',
    inode_read_at NUM_DIRECT_BLOCKS p size offset w = Ok (n, bytes) w'.
Proof.
  intros HN Hp Hi Hdir Hlen Hoff Hdisk Hheap.
  destruct (read_loop_returns p i (Z.to_nat size) HN Hp Hdir Hlen
              (mk_cursor size offset 0 false) [] w Hi Hoff Hdisk)
    as ([c' buffer'] & w1 & E1).
  { cbn. lia. }
  unfold inode_read_at. rewrite (bind_Ok _ _ _ _ _ E1).
  unfold bind, free_buf, ret. cbn [fst snd].
  destruct (c_bounce c'); eexists; eexists; eexists; reflexivity.
Qed.

(** C7: a read returns at most [max (0, length - offset)] bytes, and no
    more than were asked for; at or past the end of the data it returns 0;
    when it returns [n > 0] bytes the last of them is at position
    [offset + n - 1], below [length]; the bytes put in the buffer are as many
    as the count returned. *)
Theorem inode_read_at_within_length
    (w w' : world) (p : Z) (i : inode) (size offset n : off_t)
    (bytes : list Z) :
  inodes w p = Some i ->
  inode_read_at NUM_DIRECT_BLOCKS p size offset w = Ok (n, bytes) w' ->
  0 <= n <= Z.max 0 (length (data i) - offset) /\
  n <= Z.max 0 size /\
  (length (data i) <= offset -> n = 0) /\
  (0 < n -> offset + n <= length (data i)) /\
  ((forall s, List.length (disk w s) = 512%nat) ->
   Z.of_nat (List.length bytes) = n).
Proof.
  intros Hi H. unfold inode_read_at in H.
  apply bind_inv in H. destruct H as ([c' buffer'] & w1 & E1 & H).
  apply bind_inv in H. destruct H as (u & w2 & _ & H).
  apply ret_inv in H. destruct H as [H _]. inversion H; subst n bytes; clear H.
  apply read_loop_spec with (i := i) in E1; [|assumption].
  cbn [c_moved c_offset c_size fst snd List.length] in *.
  destruct E1 as (M0 & M1 & M2 & M3 & _ & ML).
  rewrite Z.sub_0_r in *.
  assert (K : 0 < c_moved c' ->
              offset + c_moved c' <= length (data i) /\ c_moved c' <= size).
  { intros Hp. apply M3 in Hp. lia. }
  split; [lia|]. split; [lia|]. split; [lia|]. split; [lia|].
  intros Hd. rewrite (ML Hd). lia.
Qed.

End Reading.

Lemma inode_read_at_within_length_witness :
  exists bytes w',
    inode_read_at 123 1 2000 300 example_small_world = Ok (700, bytes) w' /\
    0 <= 700 <= Z.max 0 (length (data example_small_inode) - 300) /\
    700 <= Z.max 0 2000 /\
    (length (data example_small_inode) <= 300 -> 700 = 0) /\
    (0 < 700 -> 300 + 700 <= length (data example_small_inode)) /\
    ((forall s, List.length (disk example_small_world s) = 512%nat) ->
     Z.of_nat (List.length bytes) = 700).
Proof.
  eexists. eexists. split.
  - vm_compute. reflexivity.
  - eapply (inode_read_at_within_length 123 example_small_world _ 1
              example_small_inode 2000 300 700).
    + reflexivity.
    + vm_compute. reflexivity.
Defined.

(** ** Writing *)

Lemma trace_extends_refl (w : world) : trace_extends w w.
Proof. exists []. now rewrite app_nil_r. Qed.

Lemma trace_extends_trans (a b c : world) :
  trace_extends a b -> trace_extends b c -> trace_extends a c.
Proof.
  intros [t1 H1] [t2 H2]. exists (t1 ++ t2). now rewrite H2, H1, app_assoc.
Qed.

Lemma trace_extends_log (w : world) (e : event) : trace_extends w (log e w).
Proof. exists [e]. reflexivity. Qed.

Section Writing.

Variable NUM_DIRECT_BLOCKS : Z.
Variable inode_disk_image : inode_disk -> image.

Lemma write_loop_trace_extends fuel p buffer c :
  preserves trace_extends (write_loop NUM_DIRECT_BLOCKS fuel p buffer c).
Proof.
  exact (preserves_write_loop trace_extends trace_extends_refl
           trace_extends_trans trace_extends_log
           (fun w _ => trace_extends_refl w) (fun w _ => trace_extends_refl w)
           NUM_DIRECT_BLOCKS fuel p buffer c).
Qed.

Lemma inode_alloc_same_table d len :
  preserves same_table (inode_alloc NUM_DIRECT_BLOCKS d len).
Proof.
  exact (preserves_inode_alloc same_table same_table_refl same_table_trans
           (fun w _ => same_table_refl w) (fun w _ => same_table_refl w)
           (fun w _ => same_table_refl w) NUM_DIRECT_BLOCKS d len).
Qed.

(** As for reading, [size] turns are enough for the copy loop. *)
Lemma write_loop_fuel_enough (p : Z) (buffer : list Z) (f1 : nat) :
  forall (f2 : nat) (c : cursor) (w : world),
    (Z.to_nat (c_size c) <= f1)%nat -> (Z.to_nat (c_size c) <= f2)%nat ->
    write_loop NUM_DIRECT_BLOCKS f1 p buffer c w
    = write_loop NUM_DIRECT_BLOCKS f2 p buffer c w.
Proof.
  induction f1 as [|f1 IH]; intros f2 c w H1 H2.
  - cbn [write_loop]. destruct f2; cbn [write_loop]; [reflexivity|].
    destruct (c_size c <=? 0) eqn:Es; [reflexivity|].
    apply Z.leb_gt in Es. lia.
  - destruct f2 as [|f2]; cbn [write_loop];
      destruct (c_size c <=? 0) eqn:Es; try reflexivity.
    + apply Z.leb_gt in Es. lia.
    + apply Z.leb_gt in Es. unfold bind.
      destruct (byte_to_sector NUM_DIRECT_BLOCKS p (c_offset c) w)
        as [sector_idx w1|]; [|reflexivity].
      destruct (inode_length p w1) as [len w2|]; [|reflexivity].
      destruct (chunk_size_at len (c_size c) (c_offset c) <=? 0) eqn:Ec;
        [reflexivity|].
      apply Z.leb_gt in Ec.
      destruct ((Z.rem (c_offset c) BLOCK_SECTOR_SIZE =? 0)
                && (chunk_size_at len (c_size c) (c_offset c)
                    =? BLOCK_SECTOR_SIZE)).
      * destruct (slice buffer (c_moved c) BLOCK_SECTOR_SIZE w2);
          [|reflexivity].
        cbn [block_write]. apply IH; cbn [c_size]; lia.
      * destruct ((if c_bounce c then ret true else malloc_buf) w2)
          as [got w3|]; [|reflexivity].
        destruct (negb got); [reflexivity|].
        match goal with
        | |- match ?m with _ => _ end = _ => destruct m; [|reflexivity]
        end.
        match goal with
        | |- match ?m with _ => _ end = _ => destruct m; [|reflexivity]
        end.
        match goal with
        | |- match ?m with _ => _ end = _ => destruct m; [|reflexivity]
        end.
        cbn [block_write]. apply IH; cbn [c_size]; lia.
Qed.

Lemma inode_write_at_after_growth
    (w w1 : world) (p : Z) (i : inode) (buffer : list Z) (size offset : off_t)
    (d : inode_disk) :
  inodes w p = Some i -> deny_write_cnt i = 0 ->
  length (data i) < offset + size ->
  inode_alloc NUM_DIRECT_BLOCKS (data i) (offset + size) w = Ok (true, d) w1 ->
  inode_write_at NUM_DIRECT_BLOCKS inode_disk_image p buffer size offset w
  = write_copy NUM_DIRECT_BLOCKS p buffer size offset (grown_world inode_disk_image w1 p i d (offset + size)).
Proof.
  intros Hi Hd Hlen Ha.
  pose proof (inode_alloc_same_table _ _ _ _ _ Ha) as (I1 & _ & _).
  apply Z.ltb_lt in Hlen.
  unfold inode_write_at. unfold bind at 1. unfold deref at 1.
  rewrite Hi, Hd. cbn [Z.eqb negb].
  unfold bind at 1.
  assert (Hg : write_grow NUM_DIRECT_BLOCKS inode_disk_image p size offset w
               = Ok None (grown_world inode_disk_image w1 p i d (offset + size))).
  { unfold write_grow.
    rewrite (bind_Ok _ _ w w (length (data i)))
      by now apply inode_length_live.
    rewrite Hlen.
    rewrite (bind_Ok _ _ w w i) by now apply deref_live.
    rewrite (bind_Ok _ _ w w1 (true, d)) by exact Ha.
    cbn [snd fst].
    erewrite bind_Ok
      by (apply update_live with (i := i); now rewrite I1).
    erewrite bind_Ok
      by (apply update_live with (i := set_data i d); cbn;
          now rewrite upd_same).
    erewrite bind_Ok
      by (apply deref_live; cbn; now rewrite upd_same).
    reflexivity. }
  rewrite Hg. reflexivity.
Qed.

(** C6: (1) with a nonzero deny-write count the write returns 0 and the
    world is untouched; (2) when the growth of the block map fails the write
    returns 0 and adds nothing to what [inode_alloc] did: no sector is
    written after it; (3) when growth succeeds the record, with
    [offset + size] as its length, is written to the inode's sector first,
    and the copy loop runs from the world in which that write has been
    made, so the write of the record precedes everything the loop does. *)
Theorem inode_write_at_growth_order
    (w : world) (p : Z) (i : inode) (buffer : list Z) (size offset : off_t) :
  inodes w p = Some i ->
  (deny_write_cnt i <> 0 ->
   inode_write_at NUM_DIRECT_BLOCKS inode_disk_image p buffer size offset w
   = Ok 0 w) /\
  (deny_write_cnt i = 0 -> length (data i) < offset + size ->
   forall d w1,
     inode_alloc NUM_DIRECT_BLOCKS (data i) (offset + size) w
     = Ok (false, d) w1 ->
     exists w',
       inode_write_at NUM_DIRECT_BLOCKS inode_disk_image p buffer size offset w
       = Ok 0 w' /\
       trace w' = trace w1 /\ disk w' = disk w1 /\
       free_map w' = free_map w1) /\
  (deny_write_cnt i = 0 -> length (data i) < offset + size ->
   forall d w1,
     inode_alloc NUM_DIRECT_BLOCKS (data i) (offset + size) w
     = Ok (true, d) w1 ->
     let record := set_length d (offset + size) in
     exists w2,
       inodes w2 p = Some (set_data i record) /\
       disk w2 (sector i) = inode_disk_image record /\
       trace w2 = trace w1 ++ [EvWrite (sector i) (inode_disk_image record)] /\
       inode_write_at NUM_DIRECT_BLOCKS inode_disk_image p buffer size offset w
       = write_copy NUM_DIRECT_BLOCKS p buffer size offset w2 /\
       forall n w',
         inode_write_at NUM_DIRECT_BLOCKS inode_disk_image p buffer size
           offset w = Ok n w' ->
         exists t,
           trace w' = trace w1
                      ++ EvWrite (sector i) (inode_disk_image record) :: t).
Proof.
  intros Hi. split; [|split].
  - intros Hd. apply Z.eqb_neq in Hd.
    unfold inode_write_at, bind, deref. rewrite Hi, Hd. reflexivity.
  - intros Hd Hlen d w1 Ha.
    pose proof (inode_alloc_same_table _ _ _ _ _ Ha) as (I1 & _ & _).
    apply Z.ltb_lt in Hlen.
    unfold inode_write_at. unfold bind at 1. unfold deref at 1.
    rewrite Hi, Hd. cbn [Z.eqb negb].
    unfold bind at 1. unfold write_grow.
    rewrite (bind_Ok _ _ w w (length (data i)))
      by now apply inode_length_live.
    rewrite Hlen.
    rewrite (bind_Ok _ _ w w i) by now apply deref_live.
    rewrite (bind_Ok _ _ w w1 (false, d)) by exact Ha.
    cbn [snd fst].
    erewrite bind_Ok
      by (apply update_live with (i := i); now rewrite I1).
    eexists. split; [reflexivity|]. cbn. auto.
  - intros Hd Hlen d w1 Ha record.
    pose proof (inode_alloc_same_table _ _ _ _ _ Ha) as (I1 & _ & _).
    apply Z.ltb_lt in Hlen.
    set (w2 := grown_world inode_disk_image w1 p i d (offset + size)).
    assert (Hw : inode_write_at NUM_DIRECT_BLOCKS inode_disk_image p buffer
                   size offset w = write_copy NUM_DIRECT_BLOCKS p buffer size offset w2).
    { apply Z.ltb_lt in Hlen.
      exact (inode_write_at_after_growth w w1 p i buffer size offset d
               Hi Hd Hlen Ha). }
    exists w2. split; [|split; [|split; [|split]]].
    + cbn. now rewrite upd_same.
    + cbn. now rewrite upd_same.
    + reflexivity.
    + exact Hw.
    + intros n w' Hr. rewrite Hw in Hr. unfold write_copy in Hr.
      apply bind_inv in Hr. destruct Hr as (c & w3 & E3 & Hr).
      apply write_loop_trace_extends in E3. destruct E3 as [t Ht].
      apply bind_inv in Hr. destruct Hr as (u & w4 & E4 & Hr).
      apply ret_inv in Hr. destruct Hr as [_ ->].
      assert (T4 : trace w4 = trace w3).
      { unfold free_buf in E4. destruct (c_bounce c); inversion E4; reflexivity. }
      exists t. rewrite T4, Ht. cbn. now rewrite <- app_assoc.
Qed.

End Writing.

Lemma inode_write_at_growth_order_witness :
  exists d w1 w2 w',
    deny_write_cnt example_small_inode = 0 /\
    length (data example_small_inode) < 700 + 600 /\
    inode_alloc 123 (data example_small_inode) (700 + 600) example_small_world
    = Ok (true, d) w1 /\
    inodes w2 1
    = Some (set_data example_small_inode (set_length d (700 + 600))) /\
    disk w2 (sector example_small_inode)
    = example_image (set_length d (700 + 600)) /\
    trace w2 = trace w1
               ++ [EvWrite (sector example_small_inode)
                     (example_image (set_length d (700 + 600)))] /\
    inode_write_at 123 example_image 1 (repeat 7 600) 600 700
      example_small_world
    = write_copy 123 1 (repeat 7 600) 600 700 w2 /\
    inode_write_at 123 example_image 1 (repeat 7 600) 600 700
      example_small_world
    = Ok 600 w' /\
    exists t,
      trace w' = trace w1
                 ++ EvWrite (sector example_small_inode)
                      (example_image (set_length d (700 + 600))) :: t.
Proof.
  destruct (inode_write_at_growth_order 123 example_image example_small_world
              1 example_small_inode (repeat 7 600%nat) 600 700 eq_refl)
    as (_ & _ & Hgrow).
  assert (Ha : exists d w1,
             inode_alloc 123 (data example_small_inode) (700 + 600)
               example_small_world = Ok (true, d) w1).
  { eexists. eexists. vm_compute. reflexivity. }
  destruct Ha as (d & w1 & Ha).
  assert (Hw : exists w',
             inode_write_at 123 example_image 1 (repeat 7 600) 600 700
               example_small_world = Ok 600 w').
  { eexists. vm_compute. reflexivity. }
  destruct Hw as (w' & Hw).
  destruct (Hgrow eq_refl ltac:(simpl; lia) d w1 Ha)
    as (w2 & H1 & H2 & H3 & H4 & H5).
  exists d, w1, w2, w'.
  repeat (split; [first [reflexivity | assumption | (simpl; lia)]|]).
  exact (H5 600 w' Hw).
Defined.

(** ** Growth into the double-indirect range *)

Section DoubleIndirect.

Variable NUM_DIRECT_BLOCKS : Z.
Variable inode_disk_image : inode_disk -> image.

(** C8, the code when the gap or the write reaches the double-indirect
    range.  (1) A read of a position of that range below [length] stops in
    the translation's access outside the inner block, so the bytes of the gap
    there are not delivered as zeros.  (2) A write at such a position whose
    growth reports success stops in the same way on its first chunk. *)
Theorem growth_gap_in_double_indirect_range_faults
    (w : world) (p : Z) (i : inode) (buffer : list Z) (size offset : off_t) :
  0 <= NUM_DIRECT_BLOCKS -> p <> 0 -> inodes w p = Some i -> 0 < size ->
  NUM_DIRECT_BLOCKS + NUM_INDIRECT_PTRS <= Z.quot offset BLOCK_SECTOR_SIZE
    < NUM_DIRECT_BLOCKS + NUM_INDIRECT_PTRS + NUM_DBL_INDIRECT_PTRS ->
  (offset < length (data i) ->
   inode_read_at NUM_DIRECT_BLOCKS p size offset w = Crash MemoryFault) /\
  (deny_write_cnt i = 0 -> length (data i) < offset + size ->
   forall d w1,
     inode_alloc NUM_DIRECT_BLOCKS (data i) (offset + size) w
     = Ok (true, d) w1 ->
     inode_write_at NUM_DIRECT_BLOCKS inode_disk_image p buffer size offset w
     = Crash MemoryFault).
Proof.
  intros HN Hp Hi Hsize Hrange.
  assert (Hfuel : exists f, Z.to_nat size = S f).
  { exists (Nat.pred (Z.to_nat size)). lia. }
  destruct Hfuel as [f Hf].
  assert (Hs : (size <=? 0) = false) by (apply Z.leb_gt; lia).
  split.
  - intros Hlen. unfold inode_read_at. rewrite Hf. cbn [read_loop c_size].
    rewrite Hs. cbn [c_offset].
    apply bind_Crash. apply bind_Crash.
    now apply byte_to_sector_inner_access_outside with (i := i).
  - intros Hd Hlen d w1 Ha.
    rewrite (inode_write_at_after_growth NUM_DIRECT_BLOCKS inode_disk_image
               w w1 p i buffer size offset d Hi Hd Hlen Ha).
    unfold write_copy. rewrite Hf. cbn [write_loop c_size].
    rewrite Hs. cbn [c_offset].
    apply bind_Crash. apply bind_Crash.
    apply byte_to_sector_inner_access_outside
      with (i := set_data i (set_length d (offset + size))).
    + assumption.
    + assumption.
    + cbn. now rewrite upd_same.
    + cbn. lia.
    + assumption.
Qed.

End DoubleIndirect.

Lemma growth_gap_in_double_indirect_range_faults_witness :
  inode_read_at 123 1 1 128512 example_big_world = Crash MemoryFault.
Proof.
  destruct (growth_gap_in_double_indirect_range_faults 123 example_image
              example_big_world 1 example_big_inode [7] 1 128512)
    as [Hread _].
  - lia.
  - lia.
  - reflexivity.
  - lia.
  - vm_compute. intuition discriminate.
  - apply Hread. simpl. lia.
Defined.

(** A file created empty and then written one byte at offset 128513, the
    second byte of the double-indirect range with 123 direct pointers:
    growth reports success and the write stops in the translation. *)
Example write_past_single_indirect_range_faults :
  (c <- inode_create 123 example_image 9 0 false ;;
   p <- inode_open example_load 9 ;;
   inode_write_at 123 example_image p [7] 1 128513) example_world
  = Crash MemoryFault.
Proof. vm_compute. reflexivity. Qed.

(** The same steps inside the direct range: one byte written at offset
    2000 of an empty file, then the gap read back; it is 2000 zero bytes. *)
Example gap_in_direct_range_reads_zero :
  (c <- inode_create 123 example_image 9 0 false ;;
   p <- inode_open example_load 9 ;;
   n <- inode_write_at 123 example_image p [7] 1 2000 ;;
   r <- inode_read_at 123 p 2000 0 ;;
   ret (n, r)) example_world
  = Ok (1, (2000, repeat 0 2000))
      (match (c <- inode_create 123 example_image 9 0 false ;;
              p <- inode_open example_load 9 ;;
              n <- inode_write_at 123 example_image p [7] 1 2000 ;;
              inode_read_at 123 p 2000 0) example_world
       with Ok _ w' => w' | Crash _ => example_world end).
Proof. vm_compute. reflexivity. Qed.

(** ** Facts about the worked inputs *)

Lemma example_world_table_ok : table_ok example_world.
Proof.
  repeat split; cbn; try lia; try contradiction; try congruence;
    intros; try congruence; try contradiction.
Qed.


(** ** Sector counts *)

Section SectorCount.

(** X1.  [bytes_to_sectors] counts the least number of sectors that hold
    [size] bytes: for a size that is not negative and to which 511 can be
    added within [off_t], the sectors counted hold at least [size] bytes and
    fewer than [size] + 512. *)
Theorem bytes_to_sectors_least_cover (size : off_t) :
  0 <= size -> size + BLOCK_SECTOR_SIZE - 1 <= 2147483647 ->
  size <= BLOCK_SECTOR_SIZE * bytes_to_sectors size < size + BLOCK_SECTOR_SIZE.
Proof.
  unfold bytes_to_sectors, to_size_t, BLOCK_SECTOR_SIZE. intros H0 H1.
  rewrite Z.quot_div_nonneg by lia.
  pose proof (Z.div_mod (size + 512 - 1) 512 ltac:(lia)) as E.
  pose proof (Z.mod_pos_bound (size + 512 - 1) 512 ltac:(lia)) as B.
  assert (Q : 0 <= (size + 512 - 1) / 512 < 4294967296).
  { split; [apply Z.div_pos; lia|]. apply Z.div_lt_upper_bound; lia. }
  rewrite Z.mod_small by lia. lia.
Qed.

End SectorCount.

Lemma bytes_to_sectors_least_cover_witness :
  1000 <= BLOCK_SECTOR_SIZE * bytes_to_sectors 1000 < 1000 + BLOCK_SECTOR_SIZE.
Proof.
  apply (bytes_to_sectors_least_cover 1000); unfold BLOCK_SECTOR_SIZE; lia.
Defined.

(** ** Address translation inside the direct and single-indirect ranges *)

Lemma heap_round_trip (w : world) (n : nat) (e : event) :
  heap_left w = S n ->
  with_heap_left (log e (with_heap_left w n)) (S n) = log e w.
Proof. intros H. destruct w. cbn in *. now subst. Qed.

Lemma heap_round_trip_quiet (w : world) (n : nat) :
  heap_left w = S n -> with_heap_left (with_heap_left w n) (S n) = w.
Proof. intros H. destruct w. cbn in *. now subst. Qed.

Lemma sector_index_bounds (pos k : Z) :
  0 <= pos -> 0 <= k ->
  (pos < k * BLOCK_SECTOR_SIZE <-> Z.quot pos BLOCK_SECTOR_SIZE < k) /\
  Z.quot pos BLOCK_SECTOR_SIZE = pos / BLOCK_SECTOR_SIZE /\
  0 <= pos / BLOCK_SECTOR_SIZE.
Proof.
  unfold BLOCK_SECTOR_SIZE. intros H0 Hk.
  rewrite Z.quot_div_nonneg by lia.
  pose proof (Z.div_mod pos 512 ltac:(lia)) as E.
  pose proof (Z.mod_pos_bound pos 512 ltac:(lia)) as B.
  assert (0 <= pos / 512) by (apply Z.div_pos; lia).
  split; [|split; [reflexivity | assumption]].
  split; intros H1; nia.
Qed.

Section TranslationRanges.

Variable NUM_DIRECT_BLOCKS : Z.
Hypothesis NUM_DIRECT_BLOCKS_nonneg : 0 <= NUM_DIRECT_BLOCKS.

Variables (w : world) (p : Z) (i : inode).
Hypothesis p_not_null : p <> 0.
Hypothesis p_live : inodes w p = Some i.

Lemma byte_to_sector_enter (pos : off_t) :
  pos < length (data i) ->
  byte_to_sector NUM_DIRECT_BLOCKS p pos w
  = (let pos := Z.quot pos BLOCK_SECTOR_SIZE in
     if pos <? NUM_DIRECT_BLOCKS then
       array_get (direct_blocks (data i)) pos
     else
       buf <- malloc_buf ;;
       if pos <? NUM_DIRECT_BLOCKS + NUM_INDIRECT_PTRS then
         ptrs <- block_read_ptrs buf (indirect_block (data i)) ;;
         r <- array_get ptrs (pos - NUM_DIRECT_BLOCKS) ;;
         free_buf buf ;;;
         ret r
       else if pos <? NUM_DIRECT_BLOCKS + NUM_INDIRECT_PTRS
                      + NUM_DBL_INDIRECT_PTRS then
         outer <- block_read_ptrs buf (doubly_indirect_block (data i)) ;;
         child <- array_get outer
                    (Z.quot (pos - (NUM_DIRECT_BLOCKS + NUM_INDIRECT_PTRS))
                       NUM_INDIRECT_PTRS) ;;
         inner <- block_read_ptrs buf child ;;
         r <- array_get inner
                (pos - Z.rem (NUM_DIRECT_BLOCKS + NUM_INDIRECT_PTRS)
                         NUM_INDIRECT_PTRS) ;;
         free_buf buf ;;;
         ret r
       else
         free_buf buf ;;;
         ret NOT_FOUND) w.
Proof.
  intros H. apply Z.ltb_lt in H. apply Z.eqb_neq in p_not_null.
  unfold byte_to_sector. unfold bind at 1. unfold ASSERT.
  rewrite p_not_null. cbn [negb ret]. unfold bind at 1. unfold deref.
  rewrite p_live, H. reflexivity.
Qed.

Lemma byte_to_sector_direct (pos : off_t) :
  List.length (direct_blocks (data i)) = Z.to_nat NUM_DIRECT_BLOCKS ->
  0 <= pos < length (data i) ->
  pos < NUM_DIRECT_BLOCKS * BLOCK_SECTOR_SIZE ->
  byte_to_sector NUM_DIRECT_BLOCKS p pos w
  = Ok (nth (Z.to_nat (pos / BLOCK_SECTOR_SIZE)) (direct_blocks (data i)) 0)
      w.
Proof.
  intros Hdir [H0 H1] H2.
  destruct (sector_index_bounds pos NUM_DIRECT_BLOCKS H0
              NUM_DIRECT_BLOCKS_nonneg) as (B & Q & Q0).
  rewrite byte_to_sector_enter by assumption. cbv zeta.
  apply B in H2. apply Z.ltb_lt in H2. rewrite H2. apply Z.ltb_lt in H2.
  rewrite array_get_in_range by (rewrite Hdir; lia).
  now rewrite Q.
Qed.

Lemma byte_to_sector_single_indirect (pos : off_t) :
  NUM_DIRECT_BLOCKS * BLOCK_SECTOR_SIZE <= pos < length (data i) ->
  pos < (NUM_DIRECT_BLOCKS + NUM_INDIRECT_PTRS) * BLOCK_SECTOR_SIZE ->
  (1 <= heap_left w)%nat ->
  byte_to_sector NUM_DIRECT_BLOCKS p pos w
  = Ok (nth (Z.to_nat (pos / BLOCK_SECTOR_SIZE - NUM_DIRECT_BLOCKS))
          (block_ptrs_of_image (disk w (indirect_block (data i)))) 0)
      (log (EvRead (indirect_block (data i))) w).
Proof.
  intros [H0 H1] H2 Hheap.
  assert (Hpos : 0 <= pos) by (unfold BLOCK_SECTOR_SIZE in *; lia).
  destruct (sector_index_bounds pos NUM_DIRECT_BLOCKS Hpos
              NUM_DIRECT_BLOCKS_nonneg) as (B1 & Q & Q0).
  destruct (sector_index_bounds pos (NUM_DIRECT_BLOCKS + NUM_INDIRECT_PTRS)
              Hpos ltac:(unfold NUM_INDIRECT_PTRS; lia)) as (B2 & _ & _).
  rewrite byte_to_sector_enter by assumption. cbv zeta.
  assert (E1 : (Z.quot pos BLOCK_SECTOR_SIZE <? NUM_DIRECT_BLOCKS) = false).
  { apply Z.ltb_ge. destruct B1 as [_ B1].
    destruct (Z_lt_le_dec (Z.quot pos BLOCK_SECTOR_SIZE) NUM_DIRECT_BLOCKS)
      as [L|L]; [apply B1 in L; lia | assumption]. }
  apply Z.ltb_ge in E1.
  assert (E2 : Z.quot pos BLOCK_SECTOR_SIZE
               < NUM_DIRECT_BLOCKS + NUM_INDIRECT_PTRS) by now apply B2.
  apply Z.ltb_ge in E1. apply Z.ltb_lt in E2. rewrite E1, E2.
  apply Z.ltb_ge in E1. apply Z.ltb_lt in E2.
  destruct (heap_left w) as [|n] eqn:Eh; [lia|].
  unfold bind at 1. unfold malloc_buf. rewrite Eh.
  unfold block_read_ptrs, block_read, bind, ret.
  rewrite array_get_in_range
    by (rewrite block_ptrs_of_image_length; unfold NUM_INDIRECT_PTRS in *;
        lia).
  unfold free_buf. cbn [heap_left log with_heap_left disk].
  rewrite heap_round_trip by assumption. now rewrite Q.
Qed.

(** X2.  Where the translation finds the sector of a position inside the
    file.  In the direct range it is the direct pointer at the sector index,
    and the device is not touched.  In the single-indirect range it is the
    entry of the indirection block at the sector index less the number of
    direct pointers; the block is read from the device by one request, into
    a scratch block that is given back. *)
Theorem byte_to_sector_finds_sector (pos : off_t) :
  List.length (direct_blocks (data i)) = Z.to_nat NUM_DIRECT_BLOCKS ->
  0 <= pos < length (data i) ->
  (pos < NUM_DIRECT_BLOCKS * BLOCK_SECTOR_SIZE ->
   byte_to_sector NUM_DIRECT_BLOCKS p pos w
   = Ok (nth (Z.to_nat (pos / BLOCK_SECTOR_SIZE)) (direct_blocks (data i)) 0)
       w) /\
  (NUM_DIRECT_BLOCKS * BLOCK_SECTOR_SIZE <= pos ->
   pos < (NUM_DIRECT_BLOCKS + NUM_INDIRECT_PTRS) * BLOCK_SECTOR_SIZE ->
   (1 <= heap_left w)%nat ->
   byte_to_sector NUM_DIRECT_BLOCKS p pos w
   = Ok (nth (Z.to_nat (pos / BLOCK_SECTOR_SIZE - NUM_DIRECT_BLOCKS))
           (block_ptrs_of_image (disk w (indirect_block (data i)))) 0)
       (log (EvRead (indirect_block (data i))) w)).
Proof.
  intros Hdir Hpos. split.
  - intros H. now apply byte_to_sector_direct.
  - intros H0 H1 Hheap. apply byte_to_sector_single_indirect; auto.
    split; [exact H0 | apply Hpos].
Qed.

(** X3.  Past the direct range the translation reads the indirection block
    into memory it has just asked for, without looking at what it was given:
    with no memory left the read goes through a null pointer. *)
Theorem byte_to_sector_without_scratch_block (pos : off_t) :
  NUM_DIRECT_BLOCKS * BLOCK_SECTOR_SIZE <= pos < length (data i) ->
  pos < (NUM_DIRECT_BLOCKS + NUM_INDIRECT_PTRS + NUM_DBL_INDIRECT_PTRS)
        * BLOCK_SECTOR_SIZE ->
  heap_left w = 0%nat ->
  byte_to_sector NUM_DIRECT_BLOCKS p pos w = Crash MemoryFault.
Proof.
  intros [H0 H1] H2 Hheap.
  assert (Hpos : 0 <= pos) by (unfold BLOCK_SECTOR_SIZE in *; lia).
  destruct (sector_index_bounds pos NUM_DIRECT_BLOCKS Hpos
              NUM_DIRECT_BLOCKS_nonneg) as (B1 & Q & Q0).
  destruct (sector_index_bounds pos
              (NUM_DIRECT_BLOCKS + NUM_INDIRECT_PTRS + NUM_DBL_INDIRECT_PTRS)
              Hpos
              ltac:(unfold NUM_INDIRECT_PTRS, NUM_DBL_INDIRECT_PTRS; lia))
    as (B2 & _ & _).
  rewrite byte_to_sector_enter by assumption. cbv zeta.
  assert (E1 : (Z.quot pos BLOCK_SECTOR_SIZE <? NUM_DIRECT_BLOCKS) = false).
  { apply Z.ltb_ge. destruct B1 as [_ B1].
    destruct (Z_lt_le_dec (Z.quot pos BLOCK_SECTOR_SIZE) NUM_DIRECT_BLOCKS)
      as [L|L]; [apply B1 in L; lia | assumption]. }
  apply B2 in H2. apply Z.ltb_lt in H2. rewrite E1, H2.
  unfold bind at 1. unfold malloc_buf. rewrite Hheap.
  destruct (Z.quot pos BLOCK_SECTOR_SIZE
            <? NUM_DIRECT_BLOCKS + NUM_INDIRECT_PTRS); reflexivity.
Qed.

(** X4.  A position inside the file but past all that the direct, the
    indirect and the doubly-indirect pointers can address is answered with
    NOT_FOUND, all bits set, and nothing is read. *)
Theorem byte_to_sector_beyond_capacity (pos : off_t) :
  (NUM_DIRECT_BLOCKS + NUM_INDIRECT_PTRS + NUM_DBL_INDIRECT_PTRS)
  * BLOCK_SECTOR_SIZE <= pos < length (data i) ->
  byte_to_sector NUM_DIRECT_BLOCKS p pos w = Ok NOT_FOUND w.
Proof.
  intros [H0 H1].
  assert (Hpos : 0 <= pos)
    by (unfold BLOCK_SECTOR_SIZE, NUM_INDIRECT_PTRS, NUM_DBL_INDIRECT_PTRS in *;
        lia).
  destruct (sector_index_bounds pos
              (NUM_DIRECT_BLOCKS + NUM_INDIRECT_PTRS + NUM_DBL_INDIRECT_PTRS)
              Hpos
              ltac:(unfold NUM_INDIRECT_PTRS, NUM_DBL_INDIRECT_PTRS; lia))
    as (B2 & _ & _).
  assert (L : NUM_DIRECT_BLOCKS + NUM_INDIRECT_PTRS + NUM_DBL_INDIRECT_PTRS
              <= Z.quot pos BLOCK_SECTOR_SIZE).
  { destruct B2 as [_ B2].
    destruct (Z_lt_le_dec (Z.quot pos BLOCK_SECTOR_SIZE)
                (NUM_DIRECT_BLOCKS + NUM_INDIRECT_PTRS
                 + NUM_DBL_INDIRECT_PTRS)) as [L|L];
      [apply B2 in L; lia | assumption]. }
  rewrite byte_to_sector_enter by assumption. cbv zeta.
  unfold NUM_INDIRECT_PTRS, NUM_DBL_INDIRECT_PTRS in *.
  assert (E1 : (Z.quot pos BLOCK_SECTOR_SIZE <? NUM_DIRECT_BLOCKS) = false)
    by (apply Z.ltb_ge; lia).
  assert (E2 : (Z.quot pos BLOCK_SECTOR_SIZE <? NUM_DIRECT_BLOCKS + 128)
               = false) by (apply Z.ltb_ge; lia).
  assert (E3 : (Z.quot pos BLOCK_SECTOR_SIZE
                <? NUM_DIRECT_BLOCKS + 128 + 16384) = false)
    by (apply Z.ltb_ge; lia).
  rewrite E1, E2, E3. unfold bind, malloc_buf, free_buf, ret.
  destruct (heap_left w) as [|n] eqn:Eh; [reflexivity|].
  cbn [heap_left with_heap_left]. now rewrite heap_round_trip_quiet.
Qed.

End TranslationRanges.

Lemma byte_to_sector_finds_sector_witness :
  byte_to_sector 123 1 1000 example_big_world = Ok 11 example_big_world /\
  byte_to_sector 123 1 63000 example_big_world
  = Ok 0 (log (EvRead 5) example_big_world).
Proof.
  split.
  - destruct (byte_to_sector_finds_sector 123 ltac:(lia) example_big_world 1
                example_big_inode ltac:(lia) eq_refl 1000 eq_refl)
      as [H _].
    + cbn. lia.
    + apply H. unfold BLOCK_SECTOR_SIZE. lia.
  - destruct (byte_to_sector_finds_sector 123 ltac:(lia) example_big_world 1
                example_big_inode ltac:(lia) eq_refl 63000 eq_refl)
      as [_ H].
    + cbn. lia.
    + apply H.
      * unfold BLOCK_SECTOR_SIZE. lia.
      * unfold BLOCK_SECTOR_SIZE, NUM_INDIRECT_PTRS. lia.
      * cbn. lia.
Defined.

Lemma byte_to_sector_without_scratch_block_witness :
  byte_to_sector 123 1 63000 (with_heap_left example_big_world 0)
  = Crash MemoryFault.
Proof.
  apply (byte_to_sector_without_scratch_block 123 ltac:(lia)
           (with_heap_left example_big_world 0) 1 example_big_inode
           ltac:(lia) eq_refl 63000).
  - cbn. unfold BLOCK_SECTOR_SIZE. lia.
  - unfold BLOCK_SECTOR_SIZE, NUM_INDIRECT_PTRS, NUM_DBL_INDIRECT_PTRS. lia.
  - reflexivity.
Defined.

Lemma byte_to_sector_beyond_capacity_witness :
  byte_to_sector 123 1 8517120 example_huge_world
  = Ok NOT_FOUND example_huge_world.
Proof.
  apply (byte_to_sector_beyond_capacity 123 ltac:(lia) example_huge_world 1
           (set_data example_big_inode
              (set_length (data example_big_inode) 9000000))
           ltac:(lia) eq_refl 8517120).
  cbn. unfold BLOCK_SECTOR_SIZE, NUM_INDIRECT_PTRS, NUM_DBL_INDIRECT_PTRS. lia.
Defined.

(** ** What a read delivers *)


Lemma only_logs_trans (a b c : world) :
  only_logs a b -> only_logs b c -> only_logs a c.
Proof.
  intros (A1 & A2 & A3 & A4 & A5 & A6) (B1 & B2 & B3 & B4 & B5 & B6).
  repeat split; congruence.
Qed.








Section ReadContents.

Variable NUM_DIRECT_BLOCKS : Z.
Hypothesis NUM_DIRECT_BLOCKS_nonneg : 0 <= NUM_DIRECT_BLOCKS.

Variables (p : Z) (i : inode).
Hypothesis p_not_null : p <> 0.
Hypothesis direct_blocks_length :
  List.length (direct_blocks (data i)) = Z.to_nat NUM_DIRECT_BLOCKS.
Hypothesis single_level :
  length (data i)
  <= (NUM_DIRECT_BLOCKS + NUM_INDIRECT_PTRS) * BLOCK_SECTOR_SIZE.



End ReadContents.

Section ReadContentsCall.

Variable NUM_DIRECT_BLOCKS : Z.



End ReadContentsCall.


(** ** What a write stores *)




Section WriteContents.

Variable NUM_DIRECT_BLOCKS : Z.
Hypothesis NUM_DIRECT_BLOCKS_nonneg : 0 <= NUM_DIRECT_BLOCKS.

Variables (p : Z) (i : inode) (buffer : list Z).
Hypothesis p_not_null : p <> 0.
Hypothesis direct_blocks_length :
  List.length (direct_blocks (data i)) = Z.to_nat NUM_DIRECT_BLOCKS.
Hypothesis single_level :
  length (data i)
  <= (NUM_DIRECT_BLOCKS + NUM_INDIRECT_PTRS) * BLOCK_SECTOR_SIZE.



End WriteContents.










Section WriteCall.

Variable NUM_DIRECT_BLOCKS : Z.
Variable inode_disk_image : inode_disk -> image.




End WriteCall.



(** ** Creating a file in the direct range *)

Lemma taken_cons (s : block_sector_t) (l : list block_sector_t) (w : world) :
  taken (s :: l) w
  = taken l (log (EvWrite s zeros)
               (with_disk (log (EvAllocate (Some s))
                             (with_free_map w (tl (free_map w))))
                  (upd (disk w) s zeros))).
Proof. reflexivity. Qed.

Lemma taken_free_map (l : list block_sector_t) :
  forall (w : world) (rest : list block_sector_t),
    free_map w = l ++ rest -> free_map (taken l w) = rest.
Proof.
  induction l as [|s l IH]; intros w rest H.
  - exact H.
  - rewrite taken_cons. apply IH. cbn. now rewrite H.
Qed.

Lemma taken_trace (l : list block_sector_t) :
  forall w : world,
    trace (taken l w)
    = trace w ++ flat_map (fun s => [EvAllocate (Some s); EvWrite s zeros]) l.
Proof.
  induction l as [|s l IH]; intros w.
  - cbn. now rewrite app_nil_r.
  - rewrite taken_cons, IH. cbn. now rewrite <- !app_assoc.
Qed.

Lemma taken_disk_out (l : list block_sector_t) :
  forall (w : world) (x : block_sector_t),
    ~ In x l -> disk (taken l w) x = disk w x.
Proof.
  induction l as [|s l IH]; intros w x H.
  - reflexivity.
  - rewrite taken_cons, IH by (intros K; apply H; now right).
    cbn. unfold upd. destruct (x =? s) eqn:E; [|reflexivity].
    apply Z.eqb_eq in E. exfalso. apply H. now left.
Qed.

Lemma taken_disk_in (l : list block_sector_t) :
  forall (w : world) (x : block_sector_t),
    In x l -> disk (taken l w) x = zeros.
Proof.
  induction l as [|s l IH]; intros w x H.
  - destruct H.
  - rewrite taken_cons. destruct (in_dec Z.eq_dec x l) as [Hin|Hout].
    + now apply IH.
    + rewrite taken_disk_out by exact Hout. cbn. unfold upd.
      destruct H as [->|H]; [now rewrite Z.eqb_refl | contradiction].
Qed.

Lemma taken_table (l : list block_sector_t) :
  forall w : world,
    heap_left (taken l w) = heap_left w /\ next_ptr (taken l w) = next_ptr w /\
    inodes (taken l w) = inodes w /\ open_inodes (taken l w) = open_inodes w.
Proof.
  induction l as [|s l IH]; intros w.
  - repeat split.
  - rewrite taken_cons.
    destruct (IH (log (EvWrite s zeros)
                    (with_disk (log (EvAllocate (Some s))
                                  (with_free_map w (tl (free_map w))))
                       (upd (disk w) s zeros)))) as (A & B & C & D).
    cbn in A, B, C, D. auto.
Qed.

Lemma taken_with_heap_left (l : list block_sector_t) :
  forall (w : world) (n : nat),
    taken l (with_heap_left w n) = with_heap_left (taken l w) n.
Proof.
  induction l as [|s l IH]; intros w n.
  - reflexivity.
  - rewrite !taken_cons, <- IH. reflexivity.
Qed.


(** The direct loop over empty slots with a sector in the free map for each:
    it takes the sectors in order, and returns true from inside the loop
    when the last of them was the last sector to place. *)
Lemma alloc_direct_takes (fs : list block_sector_t) :
  forall (done tl rest : list block_sector_t) (d : inode_disk) (ss : Z)
         (w : world),
    direct_blocks d = done ++ repeat 0 (List.length fs) ++ tl ->
    free_map w = fs ++ rest ->
    Z.of_nat (List.length fs) <= ss < 4294967296 ->
    alloc_direct (List.length fs) (Z.of_nat (List.length done)) d ss w
    = Ok (if (0 <? Z.of_nat (List.length fs))
             && (ss =? Z.of_nat (List.length fs))
          then Returned (true, set_direct_blocks d (done ++ fs ++ tl))
          else Fell (set_direct_blocks d (done ++ fs ++ tl),
                     ss - Z.of_nat (List.length fs)))
        (taken fs w).
Proof.
  induction fs as [|f fs IH]; intros done tl rest d ss w Hd Hf Hs.
  - cbn [List.length alloc_direct Z.of_nat Z.ltb Z.compare andb taken
         fold_left]. unfold ret. do 3 f_equal.
    + destruct d. cbn in Hd. subst. reflexivity.
    + lia.
  - cbn [List.length] in *. cbn [alloc_direct]. rewrite Hd.
    cbn [repeat app].
    rewrite (bind_Ok _ _ _ _ _
               (array_get_middle done (repeat 0 (List.length fs) ++ tl) 0 w)).
    cbn [Z.eqb].
    rewrite (bind_Ok _ _ _ _ _
               (free_map_allocate_some w f (fs ++ rest) Hf)).
    erewrite bind_Ok by apply array_set_middle.
    erewrite bind_Ok by reflexivity.
    rewrite size_sub_exact by lia.
    assert (Hw : log (EvWrite f zeros)
                   (with_disk (log (EvAllocate (Some f))
                                 (with_free_map w (fs ++ rest)))
                      (upd (disk (log (EvAllocate (Some f))
                                    (with_free_map w (fs ++ rest)))) f zeros))
                 = taken [f] w).
    { cbn. now rewrite Hf. }
    rewrite Hw. rewrite taken_cons.
    assert (E1 : (0 <? Z.of_nat (S (List.length fs))) = true)
      by (apply Z.ltb_lt; lia).
    rewrite E1. cbn [andb].
    destruct (ss - 1 <=? 0) eqn:E0.
    + apply Z.leb_le in E0.
      assert (List.length fs = 0%nat) by lia.
      destruct fs; [|discriminate].
      cbn [List.length] in *.
      assert (E2 : (ss =? Z.of_nat 1) = true) by (apply Z.eqb_eq; lia).
      rewrite E2. reflexivity.
    + apply Z.leb_gt in E0.
      replace (Z.of_nat (List.length done) + 1)
        with (Z.of_nat (List.length (done ++ [f])))
        by (rewrite length_app; cbn [List.length]; lia).
      rewrite (IH (done ++ [f]) tl rest).
      * cbn [direct_blocks set_direct_blocks].
        rewrite <- !app_assoc. cbn [app].
        assert (C : (0 <? Z.of_nat (List.length fs))
                    && (ss - 1 =? Z.of_nat (List.length fs))
                    = (ss =? Z.of_nat (S (List.length fs)))).
        { destruct (Z.ltb_spec 0 (Z.of_nat (List.length fs))),
            (Z.eqb_spec (ss - 1) (Z.of_nat (List.length fs))),
            (Z.eqb_spec ss (Z.of_nat (S (List.length fs))));
            cbn [andb]; try reflexivity; lia. }
        rewrite C.
        unfold set_direct_blocks.
        cbn [length magic dir direct_blocks indirect_block
             doubly_indirect_block].
        destruct (ss =? Z.of_nat (S (List.length fs))); [reflexivity|].
        do 3 f_equal. lia.
      * cbn. now rewrite <- app_assoc.
      * cbn. now rewrite Hf.
      * lia.
Qed.



Section CreateDirect.

Variable NUM_DIRECT_BLOCKS : Z.
Variable inode_disk_image : inode_disk -> image.

(** Growth of a record with no sector yet, to a length that the direct
    pointers cover, with the free map holding what it takes. *)
Lemma inode_alloc_fresh_direct (d : inode_disk) (len : off_t) (w : world)
    (fs rest : list block_sector_t) :
  0 <= NUM_DIRECT_BLOCKS ->
  direct_blocks d = repeat 0 (Z.to_nat NUM_DIRECT_BLOCKS) ->
  bytes_to_sectors len = Z.of_nat (List.length fs) ->
  Z.of_nat (List.length fs) <= NUM_DIRECT_BLOCKS ->
  free_map w = fs ++ rest ->
  inode_alloc NUM_DIRECT_BLOCKS d len w
  = Ok (true,
        set_direct_blocks d
          (fs ++ repeat 0 (Z.to_nat NUM_DIRECT_BLOCKS - List.length fs)))
      (taken fs w).
Proof.
  intros HN Hd HT Hle Hf.
  pose proof (bytes_to_sectors_range len) as HR. rewrite HT in HR.
  unfold inode_alloc. rewrite HT.
  assert (Hlimit : (if Z.of_nat (List.length fs) <? NUM_DIRECT_BLOCKS
                    then Z.of_nat (List.length fs) else NUM_DIRECT_BLOCKS)
                   = Z.of_nat (List.length fs)).
  { destruct (Z.ltb_spec (Z.of_nat (List.length fs)) NUM_DIRECT_BLOCKS);
      lia. }
  rewrite Hlimit, Nat2Z.id.
  pose proof (alloc_direct_takes fs []
                (repeat 0 (Z.to_nat NUM_DIRECT_BLOCKS - List.length fs))
                rest d (Z.of_nat (List.length fs)) w) as Hrun.
  cbn [List.length Z.of_nat app] in Hrun.
  rewrite (bind_Ok _ _ _ _ _ (Hrun ltac:(rewrite Hd, <- repeat_app; f_equal; lia)
                                Hf ltac:(lia))).
  rewrite Z.eqb_refl, andb_true_r.
  destruct (0 <? Z.of_nat (List.length fs)) eqn:E0; [reflexivity|].
  apply Z.ltb_ge in E0. rewrite Z.sub_diag.
  unfold NUM_INDIRECT_PTRS. cbn [Z.ltb Z.compare].
  unfold bind, ret. cbn [negb]. unfold size_sub, to_size_t.
  cbn [Z.sub Z.add Z.opp Z.modulo Z.div_eucl Z.leb Z.compare snd].
  reflexivity.
Qed.

(** Creating a file that the direct pointers cover, with the free map
    holding what it takes. *)
Lemma inode_create_direct (sec : block_sector_t) (len : off_t)
    (is_dir : bool) (w : world) (fs rest : list block_sector_t) :
  0 <= NUM_DIRECT_BLOCKS -> 0 <= len ->
  bytes_to_sectors len = Z.of_nat (List.length fs) ->
  Z.of_nat (List.length fs) <= NUM_DIRECT_BLOCKS ->
  free_map w = fs ++ rest -> (1 <= heap_left w)%nat ->
  let d := mk_inode_disk len INODE_MAGIC is_dir
             (fs ++ repeat 0 (Z.to_nat NUM_DIRECT_BLOCKS - List.length fs))
             0 0 in
  inode_create NUM_DIRECT_BLOCKS inode_disk_image sec len is_dir w
  = Ok true (log (EvWrite sec (inode_disk_image d))
               (with_disk (taken fs w)
                  (upd (disk (taken fs w)) sec (inode_disk_image d)))).
Proof.
  intros HN Hlen HT Hle Hf Hheap d.
  destruct (heap_left w) as [|n] eqn:Eh; [lia|].
  unfold inode_create.
  assert (E0 : (0 <=? len) = true) by now apply Z.leb_le.
  rewrite E0. unfold ASSERT. unfold bind at 1. cbn [ret].
  unfold bind at 1. unfold malloc_buf. rewrite Eh.
  erewrite bind_Ok.
  2:{ apply (inode_alloc_fresh_direct _ len _ fs rest HN); try assumption.
      reflexivity. }
  unfold bind, block_write, free_buf, ret.
  rewrite taken_with_heap_left.
  f_equal.
  destruct (taken_table fs w) as (Hh & _).
  cbn [heap_left log with_disk with_heap_left disk].
  unfold set_direct_blocks.
  cbn [length magic dir direct_blocks indirect_block doubly_indirect_block].
  fold d. rewrite Eh in Hh. destruct (taken fs w). cbn in *. now subst.
Qed.

(** X8.  Creating a file that the direct pointers cover.  With memory for
    the record and the sectors needed at the head of the free map,
    [inode_create] returns true: it takes those sectors in order, fills each
    with zeros as it is taken, and writes to [sec] the record that holds
    them in its first direct pointers, the other pointers 0. *)
Theorem inode_create_in_direct_range (sec : block_sector_t) (len : off_t)
    (is_dir : bool) (w : world) (fs rest : list block_sector_t) :
  0 <= NUM_DIRECT_BLOCKS -> 0 <= len ->
  bytes_to_sectors len = Z.of_nat (List.length fs) ->
  Z.of_nat (List.length fs) <= NUM_DIRECT_BLOCKS ->
  free_map w = fs ++ rest -> (1 <= heap_left w)%nat ->
  let d := mk_inode_disk len INODE_MAGIC is_dir
             (fs ++ repeat 0 (Z.to_nat NUM_DIRECT_BLOCKS - List.length fs))
             0 0 in
  let w1 := taken fs w in
  inode_create NUM_DIRECT_BLOCKS inode_disk_image sec len is_dir w
  = Ok true (log (EvWrite sec (inode_disk_image d))
               (with_disk w1 (upd (disk w1) sec (inode_disk_image d)))) /\
  free_map w1 = rest /\
  trace w1
  = trace w ++ flat_map (fun s => [EvAllocate (Some s); EvWrite s zeros]) fs /\
  (forall s, In s fs -> disk w1 s = zeros) /\
  (forall s, ~ In s fs -> disk w1 s = disk w s).
Proof.
  intros HN Hlen HT Hle Hf Hheap d w1.
  split; [now apply (inode_create_direct sec len is_dir w fs rest)|].
  split; [now apply taken_free_map|]. split; [apply taken_trace|]. split.
  - intros s Hs. now apply taken_disk_in.
  - intros s Hs. now apply taken_disk_out.
Qed.



End CreateDirect.

Lemma inode_create_in_direct_range_witness :
  exists w',
    inode_create 123 example_image 1 1000 false example_world = Ok true w' /\
    free_map w' = map Z.of_nat (seq 4 598) /\
    disk w' 2 = zeros /\ disk w' 3 = zeros.
Proof.
  destruct (inode_create_in_direct_range 123 example_image 1 1000 false
              example_world [2; 3] (map Z.of_nat (seq 4 598)))
    as (Hc & Hf & _ & Hz & _).
  - lia.
  - lia.
  - reflexivity.
  - cbn. lia.
  - reflexivity.
  - cbn. lia.
  - eexists. split; [exact Hc|]. split; [exact Hf|].
    cbn [disk log with_disk]. unfold upd.
    split; (cbn [Z.eqb Pos.eqb]; apply Hz; cbn; auto).
Defined.


(** ** Opening a sector for the first time *)

Section OpenFresh.

Variable inode_disk_load : image -> inode_disk.

(** A sector with no live handle: the handle [malloc] gives is put at the
    front of the list and filled from one read of the sector. *)
Lemma inode_open_first (w : world) (sec : block_sector_t) (n : nat) :
  table_ok w ->
  (forall p j, inodes w p = Some j -> sector j <> sec) ->
  heap_left w = S n ->
  inode_open inode_disk_load sec w
  = Ok (next_ptr w)
      (with_inodes
         (log (EvRead sec)
            (with_open_inodes
               (with_next_ptr (with_heap_left w n) (next_ptr w + 1))
               (next_ptr w :: open_inodes w)))
         (upd (inodes w) (next_ptr w)
            (Some (mk_inode sec 1 0 false (inode_disk_load (disk w sec)))))).
Proof.
  intros T Hfresh Hh. pose proof T as (T1 & T2 & T3 & T4).
  destruct (find_open_spec w sec (open_inodes w)) as (r & Hr & Hspec).
  { intros q. apply T3. }
  unfold inode_open. unfold bind at 1. unfold bind at 1. rewrite Hr.
  destruct r as [q|].
  { destruct Hspec as (_ & j & Hq & Hs). exfalso. now apply (Hfresh q j). }
  unfold bind at 1. unfold malloc_inode. rewrite Hh.
  assert (Hnz : (next_ptr w =? 0) = false) by (apply Z.eqb_neq; lia).
  rewrite Hnz. reflexivity.
Qed.

(** X10.  The first open of a sector.  With no memory for the handle,
    [inode_open] returns a null pointer and changes nothing.  Otherwise it
    returns a new handle, not null, at the head of the list, with open count
    1, deny count 0, not removed, and the record read from the sector by one
    request; the other handles, the device and the free map are as before
    and the table stays well formed. *)
Theorem inode_open_reads_sector (w : world) (sec : block_sector_t) :
  table_ok w ->
  (forall p j, inodes w p = Some j -> sector j <> sec) ->
  (heap_left w = 0%nat -> inode_open inode_disk_load sec w = Ok 0 w) /\
  ((1 <= heap_left w)%nat ->
   exists w',
     inode_open inode_disk_load sec w = Ok (next_ptr w) w' /\
     next_ptr w <> 0 /\
     inodes w' (next_ptr w)
     = Some (mk_inode sec 1 0 false (inode_disk_load (disk w sec))) /\
     (forall q, q <> next_ptr w -> inodes w' q = inodes w q) /\
     open_inodes w' = next_ptr w :: open_inodes w /\
     trace w' = trace w ++ [EvRead sec] /\
     disk w' = disk w /\ free_map w' = free_map w /\
     heap_left w = S (heap_left w') /\
     table_ok w').
Proof.
  intros T Hfresh. split.
  - intros Hh. pose proof T as (T1 & T2 & T3 & T4).
    destruct (find_open_spec w sec (open_inodes w)) as (r & Hr & Hspec).
    { intros q. apply T3. }
    unfold inode_open. unfold bind at 1. unfold bind at 1. rewrite Hr.
    destruct r as [q|].
    { destruct Hspec as (_ & j & Hq & Hs). exfalso. now apply (Hfresh q j). }
    unfold bind at 1. unfold malloc_inode. rewrite Hh. reflexivity.
  - intros Hh. destruct (heap_left w) as [|n] eqn:Eh; [lia|].
    eexists. split; [exact (inode_open_first w sec n T Hfresh Eh)|].
    cbn [inodes open_inodes trace disk free_map heap_left with_inodes log
         with_open_inodes with_next_ptr with_heap_left].
    split; [destruct T; lia|]. split; [apply upd_same|].
    split; [intros q Hq; now apply upd_other|].
    repeat (split; [reflexivity|]).
    eapply (table_ok_new w _ sec (mk_inode sec 1 0 false
                                    (inode_disk_load (disk w sec))));
      try eassumption; reflexivity.
Qed.

(** X11.  The handle [inode_open] returns, when it is not null, is for the
    sector asked for, whether the handle is new or shared:
    [inode_get_inumber] on it returns that sector. *)
Theorem inode_get_inumber_after_open (w w' : world) (sec : block_sector_t)
    (r : Z) :
  inode_open inode_disk_load sec w = Ok r w' -> r <> 0 ->
  inode_get_inumber r w' = Ok sec w'.
Proof.
  intros H Hr. unfold inode_open in H.
  apply bind_inv in H. destruct H as (l & w1 & E1 & H).
  inversion E1; subst l w1; clear E1.
  apply bind_inv in H. destruct H as (found & w1 & E1 & H).
  assert (Hfound : w1 = w /\
                   match found with
                   | Some q => exists j, inodes w q = Some j /\ sector j = sec
                   | None => True
                   end).
  { clear H. revert E1. generalize (open_inodes w) as l.
    induction l as [|q l IH]; cbn [find_open]; intros E1.
    - apply ret_inv in E1. destruct E1 as [E1 E2]. subst. auto.
    - apply bind_inv in E1. destruct E1 as (j & w2 & E2 & E1).
      apply deref_inv in E2. destruct E2 as [E2 ->].
      destruct (sector j =? sec) eqn:Es.
      + apply ret_inv in E1. destruct E1 as [E1 E3]. subst.
        apply Z.eqb_eq in Es. eauto.
      + now apply IH. }
  destruct Hfound as [-> Hfound].
  destruct found as [q|].
  - destruct Hfound as (j & Hq & Hs).
    unfold inode_reopen in H.
    apply bind_inv in H. destruct H as (u & w2 & E2 & H).
    apply ret_inv in H. destruct H as [H1 H2]. subst.
    apply Z.eqb_neq in Hr. rewrite Hr in E2. cbn [negb] in E2.
    apply update_inv in E2. destruct E2 as (j' & Hj' & ->).
    rewrite Hq in Hj'. inversion Hj'; subst j'; clear Hj'.
    unfold inode_get_inumber, bind, deref. cbn [inodes with_inodes].
    rewrite upd_same. reflexivity.
  - apply bind_inv in H. destruct H as (q & w2 & E2 & H).
    destruct (q =? 0) eqn:Eq.
    { apply ret_inv in H. destruct H as [H _]. apply Z.eqb_eq in Eq.
      congruence. }
    apply bind_inv in H. destruct H as (u1 & w3 & E3 & H).
    inversion E3; subst u1 w3; clear E3.
    apply bind_inv in H. destruct H as (img & w4 & E4 & H).
    inversion E4; subst img w4; clear E4.
    apply bind_inv in H. destruct H as (u2 & w5 & E5 & H).
    inversion E5; subst u2 w5; clear E5.
    apply ret_inv in H. destruct H as [H1 H2]. subst.
    unfold inode_get_inumber, bind, deref. cbn [inodes with_inodes].
    rewrite upd_same. reflexivity.
Qed.

End OpenFresh.

Lemma inode_open_reads_sector_witness :
  exists w',
    inode_open example_load 7 example_world = Ok 1 w' /\
    inodes w' 1 = Some (mk_inode 7 1 0 false (example_load zeros)) /\
    trace w' = [EvRead 7].
Proof.
  destruct (inode_open_reads_sector example_load example_world 7)
    as [_ H].
  - exact example_world_table_ok.
  - intros p j Hp. discriminate Hp.
  - destruct H as (w' & Ho & _ & Hi & _ & _ & Ht & _).
    + cbn. lia.
    + exists w'. split; [exact Ho|]. split; [exact Hi|]. exact Ht.
Defined.

Lemma inode_get_inumber_after_open_witness :
  exists w',
    inode_open example_load 7 example_world = Ok 1 w' /\
    inode_get_inumber 1 w' = Ok 7 w'.
Proof.
  eexists. split.
  - vm_compute. reflexivity.
  - apply (inode_get_inumber_after_open example_load example_world _ 7 1).
    + vm_compute. reflexivity.
    + lia.
Defined.

(** ** Closing a removed file, and the life of a file in the direct range *)

Lemma released_table (l : list block_sector_t) :
  forall w : world,
    heap_left (released l w) = heap_left w /\
    next_ptr (released l w) = next_ptr w /\
    inodes (released l w) = inodes w /\
    open_inodes (released l w) = open_inodes w.
Proof.
  induction l as [|s l IH]; intros w.
  - repeat split.
  - cbn [released fold_left].
    destruct (IH (log (EvRelease s) (with_free_map w (s :: free_map w))))
      as (A & B & C & D).
    cbn in A, B, C, D. auto.
Qed.

Section CloseRemoved.

Variable NUM_DIRECT_BLOCKS : Z.

(** Release of a record whose data the direct pointers cover. *)
Lemma inode_dealloc_direct_range (d : inode_disk) (w : world) :
  0 <= NUM_DIRECT_BLOCKS ->
  List.length (direct_blocks d) = Z.to_nat NUM_DIRECT_BLOCKS ->
  0 <= length d -> bytes_to_sectors (length d) <= NUM_DIRECT_BLOCKS ->
  inode_dealloc NUM_DIRECT_BLOCKS d w
  = Ok true
      (released
         (firstn (Z.to_nat (bytes_to_sectors (length d))) (direct_blocks d))
         w).
Proof.
  intros HN Hdir H0 Hle.
  pose proof (bytes_to_sectors_range (length d)) as HT.
  set (T := bytes_to_sectors (length d)) in *.
  set (todo := firstn (Z.to_nat T) (direct_blocks d)).
  assert (Htodo : List.length todo = Z.to_nat T).
  { unfold todo. rewrite length_firstn, Hdir. lia. }
  unfold inode_dealloc. fold T.
  assert (E0 : (length d <? 0) = false) by (apply Z.ltb_ge; lia).
  rewrite E0.
  assert (Hlimit : (if T <? NUM_DIRECT_BLOCKS then T else NUM_DIRECT_BLOCKS)
                   = T).
  { destruct (Z.ltb_spec T NUM_DIRECT_BLOCKS); lia. }
  rewrite Hlimit.
  pose proof (dealloc_direct_spec todo []
                (skipn (Z.to_nat T) (direct_blocks d)) d T w) as Hloop.
  rewrite Htodo in Hloop. cbn [app List.length Z.of_nat] in Hloop.
  rewrite (bind_Ok _ _ _ _ _
             (Hloop ltac:(unfold todo; now rewrite firstn_skipn)
                ltac:(lia))).
  rewrite Z2Nat.id, Z.sub_diag by lia.
  unfold NUM_INDIRECT_PTRS, NUM_DBL_INDIRECT_PTRS.
  cbn [Z.ltb Z.compare]. unfold bind at 1. cbn [ret].
  unfold size_sub, to_size_t.
  cbn [Z.sub Z.add Z.opp Z.modulo Z.div_eucl Z.ltb Z.compare snd].
  reflexivity.
Qed.

(** The last close of a removed file of that kind. *)
Lemma inode_close_last_removed (w : world) (p : Z) (i : inode) :
  0 <= NUM_DIRECT_BLOCKS -> p <> 0 -> inodes w p = Some i ->
  open_cnt i = 1 -> removed i = true ->
  List.length (direct_blocks (data i)) = Z.to_nat NUM_DIRECT_BLOCKS ->
  0 <= length (data i) ->
  bytes_to_sectors (length (data i)) <= NUM_DIRECT_BLOCKS ->
  let todo := firstn (Z.to_nat (bytes_to_sectors (length (data i))))
                (direct_blocks (data i)) in
  exists w',
    inode_close NUM_DIRECT_BLOCKS p w = Ok tt w' /\
    trace w' = trace w ++ EvRelease (sector i) :: map EvRelease todo /\
    free_map w' = rev todo ++ sector i :: free_map w /\
    inodes w' p = None /\
    (forall q, q <> p -> inodes w' q = inodes w q) /\
    open_inodes w' = remove Z.eq_dec p (open_inodes w) /\
    disk w' = disk w /\ heap_left w' = S (heap_left w) /\
    next_ptr w' = next_ptr w.
Proof.
  intros HN Hp Hi Hcnt Hrem Hdir H0 Hle todo.
  apply Z.eqb_neq in Hp.
  unfold inode_close. rewrite Hp.
  rewrite (bind_Ok _ _ _ _ _ (update_live w p i _ Hi)).
  erewrite bind_Ok by (apply deref_live; cbn; apply upd_same).
  cbn [open_cnt set_open_cnt removed]. rewrite Hcnt, Hrem.
  cbn [Z.sub Z.add Z.opp Z.eqb Z.pos_sub].
  unfold bind at 1. unfold list_remove.
  erewrite bind_Ok.
  2:{ unfold bind at 1. unfold free_map_release.
      erewrite bind_Ok by (apply inode_dealloc_direct_range; assumption).
      reflexivity. }
  cbn [data sector set_open_cnt open_inodes free_map with_inodes
       with_open_inodes].
  fold todo. unfold free_inode.
  match goal with
  | |- context [released todo ?W] =>
      destruct (released_table todo W) as (Rh & Rn & Ri & Ro);
      pose proof (released_trace todo W) as Rt;
      pose proof (released_free_map todo W) as Rf;
      pose proof (released_disk todo W) as Rd;
      set (w2 := released todo W) in *
  end.
  cbn in Rh, Rn, Ri, Ro, Rt, Rf, Rd.
  rewrite Ri, upd_same.
  eexists. split; [reflexivity|].
  cbn [trace free_map inodes open_inodes disk heap_left next_ptr
       with_heap_left with_inodes].
  rewrite Rt, Rf, Ro, Rd, Rh, Rn, <- app_assoc.
  split; [reflexivity|]. split; [reflexivity|].
  split; [apply upd_same|]. split; [|repeat split].
  intros q Hq. rewrite !upd_other by exact Hq. reflexivity.
Qed.

(** X12.  The last close of a removed file whose data the direct pointers
    cover.  [inode_close] releases the inode's sector and then the data
    sectors in order, so they are put back at the head of the free map; the
    handle leaves the table and its memory is given back; no sector is
    written. *)
Theorem inode_close_releases_removed_file (w : world) (p : Z) (i : inode) :
  0 <= NUM_DIRECT_BLOCKS -> p <> 0 -> inodes w p = Some i ->
  open_cnt i = 1 -> removed i = true ->
  List.length (direct_blocks (data i)) = Z.to_nat NUM_DIRECT_BLOCKS ->
  0 <= length (data i) ->
  bytes_to_sectors (length (data i)) <= NUM_DIRECT_BLOCKS ->
  let todo := firstn (Z.to_nat (bytes_to_sectors (length (data i))))
                (direct_blocks (data i)) in
  exists w',
    inode_close NUM_DIRECT_BLOCKS p w = Ok tt w' /\
    trace w' = trace w ++ EvRelease (sector i) :: map EvRelease todo /\
    free_map w' = rev todo ++ sector i :: free_map w /\
    inodes w' p = None /\
    (forall q, q <> p -> inodes w' q = inodes w q) /\
    open_inodes w' = remove Z.eq_dec p (open_inodes w) /\
    disk w' = disk w /\ heap_left w' = S (heap_left w) /\
    next_ptr w' = next_ptr w.
Proof. exact (inode_close_last_removed w p i). Qed.

(** X13.  Removal waits for the last close.  [inode_remove] and a close on
    a handle that is open more than once leave the handle in the table,
    marked removed and with one opener less; no sector is released and
    nothing is written. *)
Theorem inode_remove_waits_for_last_close (w : world) (p : Z) (i : inode) :
  p <> 0 -> inodes w p = Some i -> open_cnt i <> 1 ->
  exists w',
    (inode_remove p ;;; inode_close NUM_DIRECT_BLOCKS p) w = Ok tt w' /\
    inodes w' p
    = Some (mk_inode (sector i) (open_cnt i - 1) (deny_write_cnt i) true
              (data i)) /\
    (forall q, q <> p -> inodes w' q = inodes w q) /\
    open_inodes w' = open_inodes w /\
    trace w' = trace w /\ free_map w' = free_map w /\ disk w' = disk w /\
    heap_left w' = heap_left w.
Proof.
  intros Hp Hi Hcnt. apply Z.eqb_neq in Hp.
  unfold inode_remove, ASSERT. rewrite Hp. cbn [negb].
  unfold bind at 1. unfold bind at 1. cbn [ret].
  rewrite (update_live w p i _ Hi).
  unfold inode_close. rewrite Hp.
  erewrite bind_Ok by (apply update_live; cbn; apply upd_same).
  erewrite bind_Ok by (apply deref_live; cbn; apply upd_same).
  cbn [open_cnt set_open_cnt set_removed].
  assert (E : (open_cnt i - 1 =? 0) = false) by (apply Z.eqb_neq; lia).
  rewrite E. eexists. split; [reflexivity|].
  cbn [inodes with_inodes open_inodes trace free_map disk heap_left].
  split; [now rewrite upd_same|]. split; [|repeat split].
  intros q Hq. rewrite !upd_other by exact Hq. reflexivity.
Qed.

End CloseRemoved.

Lemma inode_close_releases_removed_file_witness :
  exists w',
    inode_close 123 1 example_removed_world = Ok tt w' /\
    trace w' = [EvRelease 1; EvRelease 10; EvRelease 11] /\
    free_map w' = 11 :: 10 :: 1 :: free_map example_removed_world /\
    inodes w' 1 = None.
Proof.
  destruct (inode_close_releases_removed_file 123 example_removed_world 1
              (set_removed example_small_inode true))
    as (w' & Hc & Ht & Hf & Hi & _).
  - lia.
  - lia.
  - reflexivity.
  - reflexivity.
  - reflexivity.
  - reflexivity.
  - cbn. lia.
  - vm_compute. discriminate.
  - exists w'. split; [exact Hc|]. split; [exact Ht|]. split; [exact Hf|].
    exact Hi.
Defined.

Lemma inode_remove_waits_for_last_close_witness :
  exists w',
    (inode_remove 1 ;;; inode_close 123 1) example_shared_world = Ok tt w' /\
    inodes w' 1 = Some (mk_inode 1 1 0 true (data example_small_inode)) /\
    trace w' = [] /\
    free_map w' = free_map example_shared_world.
Proof.
  destruct (inode_remove_waits_for_last_close 123 example_shared_world 1
              (set_open_cnt example_small_inode 2))
    as (w' & Hc & Hi & _ & _ & Ht & Hf & _).
  - lia.
  - reflexivity.
  - cbn. lia.
  - exists w'. split; [exact Hc|]. split; [exact Hi|]. split; [exact Ht|].
    exact Hf.
Defined.

Lemma table_ok_same_table (w w' : world) :
  inodes w' = inodes w -> open_inodes w' = open_inodes w ->
  next_ptr w' = next_ptr w -> table_ok w -> table_ok w'.
Proof.
  intros Hi Ho Hn T. unfold table_ok in *. now rewrite Hi, Ho, Hn.
Qed.



Section FileLife.

Variable NUM_DIRECT_BLOCKS : Z.
Variable inode_disk_image : inode_disk -> image.
Variable inode_disk_load : image -> inode_disk.

(** A file created in the direct range and opened for the first time. *)
Lemma file_created (sec : block_sector_t) (len : off_t) (is_dir : bool)
    (w : world) (fs rest : list block_sector_t) :
  table_ok w ->
  (forall p j, inodes w p = Some j -> sector j <> sec) ->
  0 <= NUM_DIRECT_BLOCKS -> 0 <= len ->
  bytes_to_sectors len = Z.of_nat (List.length fs) ->
  Z.of_nat (List.length fs) <= NUM_DIRECT_BLOCKS ->
  free_map w = fs ++ rest -> (1 <= heap_left w)%nat ->
  let d := mk_inode_disk len INODE_MAGIC is_dir
             (fs ++ repeat 0 (Z.to_nat NUM_DIRECT_BLOCKS - List.length fs))
             0 0 in
  inode_disk_load (inode_disk_image d) = d ->
  exists w2,
    (inode_create NUM_DIRECT_BLOCKS inode_disk_image sec len is_dir ;;;
     inode_open inode_disk_load sec) w = Ok (next_ptr w) w2 /\
    next_ptr w <> 0 /\
    inodes w (next_ptr w) = None /\ ~ In (next_ptr w) (open_inodes w) /\
    inodes w2 (next_ptr w) = Some (mk_inode sec 1 0 false d) /\
    (forall q, q <> next_ptr w -> inodes w2 q = inodes w q) /\
    open_inodes w2 = next_ptr w :: open_inodes w /\
    free_map w2 = rest /\ heap_left w = S (heap_left w2) /\
    disk w2 sec = inode_disk_image d /\
    (forall s, In s fs -> s <> sec -> disk w2 s = zeros) /\
    (forall s, ~ In s fs -> s <> sec -> disk w2 s = disk w s).
Proof.
  intros T Hfresh HN Hlen HT Hle Hf Hheap d Hload.
  pose proof (inode_create_direct NUM_DIRECT_BLOCKS inode_disk_image sec len
                is_dir w fs rest HN Hlen HT Hle Hf Hheap) as Hc.
  cbv zeta in Hc. fold d in Hc.
  destruct (taken_table fs w) as (Th & Tn & Ti & To).
  set (w1 := log (EvWrite sec (inode_disk_image d))
               (with_disk (taken fs w)
                  (upd (disk (taken fs w)) sec (inode_disk_image d)))) in *.
  assert (T1 : table_ok w1) by (apply (table_ok_same_table w); assumption).
  assert (F1 : forall p j, inodes w1 p = Some j -> sector j <> sec).
  { intros p j. cbn. rewrite Ti. apply Hfresh. }
  destruct (heap_left w) as [|n] eqn:Eh; [lia|].
  pose proof (inode_open_first inode_disk_load w1 sec n T1 F1
                ltac:(cbn; congruence)) as Ho.
  assert (Hnone : inodes w (next_ptr w) = None).
  { destruct T as (_ & T2 & _).
    destruct (inodes w (next_ptr w)) eqn:E; [|reflexivity].
    assert (inodes w (next_ptr w) <> None) as Hl by congruence.
    apply T2 in Hl. lia. }
  assert (Hn1 : next_ptr w1 = next_ptr w) by exact Tn.
  exists (with_inodes
            (log (EvRead sec)
               (with_open_inodes
                  (with_next_ptr (with_heap_left w1 n) (next_ptr w1 + 1))
                  (next_ptr w1 :: open_inodes w1)))
            (upd (inodes w1) (next_ptr w1)
               (Some (mk_inode sec 1 0 false
                        (inode_disk_load (disk w1 sec)))))).
  split.
  { rewrite (bind_Ok _ _ _ _ _ Hc). rewrite Ho. now rewrite Hn1. }
  unfold w1.
  cbn [inodes open_inodes free_map heap_left disk next_ptr with_inodes log
       with_open_inodes with_next_ptr with_heap_left with_disk].
  rewrite Tn, Ti, To, !upd_same, Hload.
  split; [destruct T; lia|]. split; [exact Hnone|]. split.
  { destruct T as (_ & _ & T3 & _). intros Hin. apply T3 in Hin. congruence. }
  split; [reflexivity|]. split.
  { intros q Hq. now apply upd_other. }
  split; [reflexivity|]. split; [now apply taken_free_map|].
  split; [reflexivity|]. split; [reflexivity|]. split.
  - intros s Hs Hne. rewrite upd_other by exact Hne. now apply taken_disk_in.
  - intros s Hs Hne. rewrite upd_other by exact Hne. now apply taken_disk_out.
Qed.


(** X15.  A file created, opened, removed and closed gives back what it
    took: the data sectors and the inode's sector are in the free map again
    (at its head, the data sectors in reverse order), and the table and the
    heap are as before the four calls. *)
Theorem created_file_is_given_back (sec : block_sector_t) (len : off_t)
    (is_dir : bool) (w : world) (fs rest : list block_sector_t) :
  table_ok w ->
  (forall p j, inodes w p = Some j -> sector j <> sec) ->
  0 <= NUM_DIRECT_BLOCKS -> 0 <= len ->
  bytes_to_sectors len = Z.of_nat (List.length fs) ->
  Z.of_nat (List.length fs) <= NUM_DIRECT_BLOCKS ->
  free_map w = fs ++ rest -> (1 <= heap_left w)%nat ->
  let d := mk_inode_disk len INODE_MAGIC is_dir
             (fs ++ repeat 0 (Z.to_nat NUM_DIRECT_BLOCKS - List.length fs))
             0 0 in
  inode_disk_load (inode_disk_image d) = d ->
  exists w',
    (inode_create NUM_DIRECT_BLOCKS inode_disk_image sec len is_dir ;;;
     p <- inode_open inode_disk_load sec ;;
     inode_remove p ;;; inode_close NUM_DIRECT_BLOCKS p) w = Ok tt w' /\
    free_map w' = rev fs ++ sec :: rest /\
    (forall q, inodes w' q = inodes w q) /\
    open_inodes w' = open_inodes w /\ heap_left w' = heap_left w.
Proof.
  intros T Hfresh HN Hlen HT Hle Hf Hheap d Hload.
  destruct (file_created sec len is_dir w fs rest T Hfresh HN Hlen HT Hle Hf
              Hheap Hload)
    as (w2 & Hrun & Hp & Hnone & Hnotin & Hi & Hother & Hopen & Hfree & Hh
        & _).
  fold d in Hi. set (p := next_ptr w) in *.
  set (i := mk_inode sec 1 0 false d) in *.
  set (w3 := with_inodes w2 (upd (inodes w2) p (Some (set_removed i true)))).
  assert (Hrem : inode_remove p w2 = Ok tt w3).
  { unfold inode_remove, ASSERT.
    assert (Hp' : (p =? 0) = false) by now apply Z.eqb_neq.
    rewrite Hp'. cbn [negb]. unfold bind at 1. cbn [ret].
    exact (update_live w2 p i (fun i => set_removed i true) Hi). }
  destruct (inode_close_last_removed NUM_DIRECT_BLOCKS w3 p
              (set_removed i true) HN Hp)
    as (w4 & Hclose & _ & F4 & I4 & O4 & L4 & _ & H4 & _).
  { cbn. apply upd_same. }
  { reflexivity. }
  { reflexivity. }
  { cbn. rewrite length_app, repeat_length. lia. }
  { exact Hlen. }
  { cbn [data set_removed i length d]. lia. }
  exists w4. split.
  { apply bind_inv in Hrun. destruct Hrun as (b & w1 & Hc & Ho).
    rewrite (bind_Ok _ _ _ _ _ Hc), (bind_Ok _ _ _ _ _ Ho).
    rewrite (bind_Ok _ _ _ _ _ Hrem). exact Hclose. }
  cbn [data set_removed i length d direct_blocks sector] in F4.
  rewrite HT, Nat2Z.id, firstn_app, firstn_all, Nat.sub_diag in F4.
  cbn [firstn] in F4. rewrite app_nil_r in F4.
  cbn [free_map with_inodes w3] in F4. rewrite Hfree in F4.
  split; [exact F4|]. split; [|split].
  - intros q. destruct (Z.eq_dec q p) as [->|Hq].
    + now rewrite I4, Hnone.
    + rewrite O4 by exact Hq. cbn [inodes with_inodes w3].
      rewrite upd_other by exact Hq. now apply Hother.
  - rewrite L4. cbn [open_inodes with_inodes w3]. rewrite Hopen.
    cbn [remove]. destruct (Z.eq_dec p p) as [_|Hne]; [|contradiction].
    now apply notin_remove.
  - rewrite H4. cbn [heap_left with_inodes w3]. now rewrite Hh.
Qed.

End FileLife.


Lemma created_file_is_given_back_witness :
  exists w',
    (inode_create 123 example_image 1 1000 false ;;;
     p <- inode_open example_load 1 ;;
     inode_remove p ;;;
     inode_close 123 p) example_world = Ok tt w' /\
    free_map w' = 3 :: 2 :: 1 :: map Z.of_nat (seq 4 598) /\
    open_inodes w' = [] /\
    heap_left w' = 8%nat.
Proof.
  destruct (created_file_is_given_back 123 example_image example_load 1 1000
              false example_world [2; 3] (map Z.of_nat (seq 4 598)))
    as (w' & Hc & Hf & _ & Ho & Hh).
  - exact example_world_table_ok.
  - intros p j Hp. discriminate Hp.
  - lia.
  - lia.
  - reflexivity.
  - cbn. lia.
  - reflexivity.
  - cbn. lia.
  - vm_compute. reflexivity.
  - exists w'. split; [exact Hc|]. split; [exact Hf|]. split; [exact Ho|].
    exact Hh.
Defined.

(** ** What growth leaves alone *)

Lemma list_set_length (a : list Z) (v : Z) :
  forall i, List.length (list_set a i v) = List.length a.
Proof.
  induction a as [|h a IH]; intros [|i]; cbn [list_set List.length];
    try reflexivity. now rewrite IH.
Qed.

Lemma list_set_other (a : list Z) (v : Z) :
  forall i k, k <> i -> nth k (list_set a i v) 0 = nth k a 0.
Proof.
  induction a as [|h a IH]; intros [|i] [|k] H; cbn [list_set nth];
    try reflexivity; try contradiction.
  apply IH. congruence.
Qed.

Lemma array_get_inv (a : list Z) (i : Z) (w w' : world) (x : Z) :
  array_get a i w = Ok x w' ->
  w' = w /\ 0 <= i < Z.of_nat (List.length a) /\ x = nth (Z.to_nat i) a 0.
Proof.
  unfold array_get.
  destruct ((0 <=? i) && (i <? Z.of_nat (List.length a))) eqn:E;
    intros H; inversion H; subst.
  apply andb_prop in E. destruct E as [E1 E2].
  apply Z.leb_le in E1. apply Z.ltb_lt in E2. auto.
Qed.

Lemma array_set_inv (a : list Z) (i v : Z) (w w' : world) (b : list Z) :
  array_set a i v w = Ok b w' ->
  w' = w /\ 0 <= i < Z.of_nat (List.length a) /\
  b = list_set a (Z.to_nat i) v.
Proof.
  unfold array_set.
  destruct ((0 <=? i) && (i <? Z.of_nat (List.length a))) eqn:E;
    intros H; inversion H; subst.
  apply andb_prop in E. destruct E as [E1 E2].
  apply Z.leb_le in E1. apply Z.ltb_lt in E2. auto.
Qed.

Lemma keeps_pointers_refl (d : inode_disk) : keeps_pointers d d.
Proof. repeat split. Qed.

Lemma keeps_pointers_trans (a b c : inode_disk) :
  keeps_pointers a b -> keeps_pointers b c -> keeps_pointers a c.
Proof.
  intros (A1 & A2 & A3 & A4 & A5 & A6 & A7) (B1 & B2 & B3 & B4 & B5 & B6 & B7).
  repeat split; try congruence.
  - intros k Hk. rewrite B5; [now apply A5|]. now rewrite A5.
  - intros H. rewrite B6; [now apply A6|]. now rewrite A6.
  - intros H. rewrite B7; [now apply A7|]. now rewrite A7.
Qed.

(** The slot of an indirection block that is set keeps its value. *)
Lemma alloc_iblock_while_keeps_slot (height : nat) :
  forall (unit_ slot sector_size : Z) (w w' : world) (b : bool)
         (s : block_sector_t),
    alloc_iblock_while height unit_ slot sector_size w = Ok (b, s) w' ->
    slot <> 0 -> s = slot.
Proof.
  induction height as [|h IH]; intros unit_ slot sector_size w w' b s H Hs;
    cbn [alloc_iblock_while] in H.
  - apply ret_inv in H. destruct H as [H _]. now inversion H.
  - apply Z.eqb_neq in Hs. rewrite Hs in H. apply Z.eqb_neq in Hs.
    apply bind_inv in H. destruct H as (slot' & w1 & E1 & H).
    apply ret_inv in E1. destruct E1 as [E1 _]. subst slot'.
    apply bind_inv in H. destruct H as (ptrs & w2 & E2 & H).
    apply bind_inv in H. destruct H as (r & w3 & E3 & H).
    destruct r as [b'|ss'].
    + apply ret_inv in H. destruct H as [H _]. now inversion H.
    + now apply IH in H.
Qed.

(** The direct loop keeps every pointer that is set. *)
Lemma alloc_direct_keeps (n : nat) :
  forall (index : Z) (d : inode_disk) (ss : Z) (w w' : world)
         (r : loop_exit (bool * inode_disk) (inode_disk * Z)),
    alloc_direct n index d ss w = Ok r w' ->
    keeps_pointers d
      (match r with Returned (_, d') => d' | Fell (d', _) => d' end).
Proof.
  induction n as [|n IH]; intros index d ss w w' r H; cbn [alloc_direct] in H.
  - apply ret_inv in H. destruct H as [H _]. subst r. apply keeps_pointers_refl.
  - apply bind_inv in H. destruct H as (cur & w1 & E1 & H).
    apply array_get_inv in E1. destruct E1 as (-> & Hidx & ->).
    destruct (nth (Z.to_nat index) (direct_blocks d) 0 =? 0) eqn:Ecur.
    2:{ now apply IH in H. }
    apply Z.eqb_eq in Ecur.
    apply bind_inv in H. destruct H as (got & w2 & E2 & H).
    destruct got as [s|].
    2:{ apply ret_inv in H. destruct H as [H _]. subst r. apply keeps_pointers_refl. }
    apply bind_inv in H. destruct H as (blocks & w3 & E3 & H).
    apply array_set_inv in E3. destruct E3 as (-> & _ & ->).
    assert (K : keeps_pointers d
                  (set_direct_blocks d
                     (list_set (direct_blocks d) (Z.to_nat index) s))).
    { repeat split; cbn; try reflexivity.
      - apply list_set_length.
      - intros k Hk. apply list_set_other. intros ->. contradiction. }
    apply bind_inv in H. destruct H as (u & w4 & E4 & H).
    destruct (size_sub ss 1 <=? 0).
    + apply ret_inv in H. destruct H as [H _]. subst r. exact K.
    + apply IH in H. eapply keeps_pointers_trans; eassumption.
Qed.

Section GrowthKeeps.

Variable NUM_DIRECT_BLOCKS : Z.

(** X16.  Growth never overwrites a pointer that is set.  Whatever
    [inode_alloc] returns, success or failure, the record it leaves has the
    length, magic and directory flag it had, as many direct pointers, and
    every direct, indirect and doubly-indirect pointer that was not 0
    unchanged. *)
Theorem inode_alloc_keeps_pointers (d d' : inode_disk) (len : off_t)
    (ok : bool) (w w' : world) :
  inode_alloc NUM_DIRECT_BLOCKS d len w = Ok (ok, d') w' ->
  keeps_pointers d d'.
Proof.
  intros H. unfold inode_alloc in H.
  apply bind_inv in H. destruct H as (r & w1 & E1 & H).
  apply alloc_direct_keeps in E1.
  destruct r as [[b d1]|[d1 ss]].
  { apply ret_inv in H. destruct H as [H _]. inversion H; subst. exact E1. }
  apply bind_inv in H. destruct H as ([ok1 d2] & w2 & E2 & H).
  assert (K2 : keeps_pointers d1 d2).
  { destruct (0 <? (if ss <? NUM_INDIRECT_PTRS then ss else NUM_INDIRECT_PTRS)).
    - apply bind_inv in E2. destruct E2 as ([b s] & w3 & E3 & E2).
      apply ret_inv in E2. destruct E2 as [E2 _]. inversion E2; subst.
      cbn [snd]. repeat split; cbn; try reflexivity; auto.
      intros Hs. eapply alloc_iblock_while_keeps_slot; eassumption.
    - apply ret_inv in E2. destruct E2 as [E2 _]. inversion E2; subst.
      apply keeps_pointers_refl. }
  assert (K : keeps_pointers d d2)
    by (eapply keeps_pointers_trans; eassumption).
  destruct (negb ok1).
  { apply ret_inv in H. destruct H as [H _]. inversion H; subst. exact K. }
  match type of H with
  | (if ?c then _ else _) _ = _ => destruct c
  end.
  { apply ret_inv in H. destruct H as [H _]. inversion H; subst. exact K. }
  apply bind_inv in H. destruct H as ([ok3 d3] & w3 & E3 & H).
  assert (K3 : keeps_pointers d2 d3).
  { match type of E3 with
    | (if ?c then _ else _) _ = _ => destruct c
    end.
    - apply bind_inv in E3. destruct E3 as ([b s] & w4 & E4 & E3).
      apply ret_inv in E3. destruct E3 as [E3 _]. inversion E3; subst.
      cbn [snd]. repeat split; cbn; try reflexivity; auto.
      intros Hs. eapply alloc_iblock_while_keeps_slot; eassumption.
    - apply ret_inv in E3. destruct E3 as [E3 _]. inversion E3; subst.
      apply keeps_pointers_refl. }
  assert (K' : keeps_pointers d d3)
    by (eapply keeps_pointers_trans; eassumption).
  destruct (negb ok3);
    apply ret_inv in H; destruct H as [H _]; inversion H; subst; exact K'.
Qed.

End GrowthKeeps.

Lemma inode_alloc_keeps_pointers_witness :
  exists ok d' w',
    inode_alloc 123 (data example_small_inode) 2000 example_small_world
    = Ok (ok, d') w' /\
    keeps_pointers (data example_small_inode) d'.
Proof.
  assert (E : exists ok d' w',
                inode_alloc 123 (data example_small_inode) 2000
                  example_small_world = Ok (ok, d') w')
    by (eexists; eexists; eexists; vm_compute; reflexivity).
  destruct E as (ok & d' & w' & E).
  exists ok, d', w'. split; [exact E|].
  exact (inode_alloc_keeps_pointers 123 (data example_small_inode) d' 2000 ok
           example_small_world w' E).
Defined.

(** ** Zero-filling of the sectors growth takes *)

Lemma zero_filled_app (t1 t2 : list event) :
  zero_filled t1 -> zero_filled t2 -> zero_filled (t1 ++ t2).
Proof.
  induction t1 as [|e t1 IH]; intros H1 H2; [exact H2|].
  destruct e as [s|s img|[s|]|s]; cbn [zero_filled app] in *; auto.
  destruct H1 as [[rest' ->] H1]. split; [|now apply IH].
  exists (rest' ++ t2). reflexivity.
Qed.

(** [filling w w']: the log has grown by requests among which every
    sector obtained is zero-filled at once. *)
Lemma filling_refl (w : world) :
  exists t, trace w = trace w ++ t /\ zero_filled t.
Proof. exists []. split; [now rewrite app_nil_r | exact I]. Qed.

Lemma filling_trans (a b c : world) :
  (exists t, trace b = trace a ++ t /\ zero_filled t) ->
  (exists t, trace c = trace b ++ t /\ zero_filled t) ->
  exists t, trace c = trace a ++ t /\ zero_filled t.
Proof.
  intros (t1 & E1 & Z1) (t2 & E2 & Z2). exists (t1 ++ t2). split.
  - now rewrite E2, E1, app_assoc.
  - now apply zero_filled_app.
Qed.

(** A request to the free map followed by the zero-fill the source makes
    next: of the sector obtained, or of [fallback] where the result is not
    looked at. *)
Lemma allocate_then_fill (w w1 w2 : world) (got : option block_sector_t)
    (fallback : block_sector_t) (u : unit) :
  free_map_allocate w = Ok got w1 ->
  block_write (match got with Some s => s | None => fallback end) zeros w1
  = Ok u w2 ->
  exists t, trace w2 = trace w ++ t /\ zero_filled t.
Proof.
  unfold free_map_allocate, block_write. intros H1 H2.
  destruct (free_map w) as [|s rest]; inversion H1; subst; clear H1;
    inversion H2; subst; clear H2; cbn [trace log with_disk with_free_map].
  - exists [EvAllocate None; EvWrite fallback zeros].
    split; [now rewrite <- app_assoc | exact I].
  - exists [EvAllocate (Some s); EvWrite s zeros].
    split; [now rewrite <- app_assoc|]. cbn. eauto.
Qed.

Lemma allocate_none_filling (w w1 : world) :
  free_map_allocate w = Ok None w1 ->
  exists t, trace w1 = trace w ++ t /\ zero_filled t.
Proof.
  unfold free_map_allocate. intros H.
  destruct (free_map w) as [|s rest]; inversion H; subst.
  exists [EvAllocate None]. split; [reflexivity | exact I].
Qed.

Lemma block_write_filling (s : block_sector_t) (img : image) (w w1 : world)
    (u : unit) :
  block_write s img w = Ok u w1 ->
  exists t, trace w1 = trace w ++ t /\ zero_filled t.
Proof.
  intros H. inversion H; subst. exists [EvWrite s img].
  split; [reflexivity | exact I].
Qed.

Lemma block_read_ptrs_filling (s : block_sector_t) (w w1 : world)
    (ptrs : list block_sector_t) :
  block_read_ptrs true s w = Ok ptrs w1 ->
  exists t, trace w1 = trace w ++ t /\ zero_filled t.
Proof.
  intros H. inversion H; subst. exists [EvRead s].
  split; [reflexivity | exact I].
Qed.

Lemma alloc_direct_filling (n : nat) :
  forall (index : Z) (d : inode_disk) (ss : Z) (w w' : world)
         (r : loop_exit (bool * inode_disk) (inode_disk * Z)),
    alloc_direct n index d ss w = Ok r w' ->
    exists t, trace w' = trace w ++ t /\ zero_filled t.
Proof.
  induction n as [|n IH]; intros index d ss w w' r H; cbn [alloc_direct] in H.
  - apply ret_inv in H. destruct H as [_ H]. subst. apply filling_refl.
  - apply bind_inv in H. destruct H as (cur & w1 & E1 & H).
    apply array_get_inv in E1. destruct E1 as (-> & _ & _).
    destruct (cur =? 0); [|now apply IH in H].
    apply bind_inv in H. destruct H as (got & w2 & E2 & H).
    destruct got as [s|].
    2:{ apply ret_inv in H. destruct H as [_ H]. subst.
        now apply allocate_none_filling. }
    apply bind_inv in H. destruct H as (blocks & w3 & E3 & H).
    apply array_set_inv in E3. destruct E3 as (-> & _ & _).
    apply bind_inv in H. destruct H as (u & w4 & E4 & H).
    pose proof (allocate_then_fill w w2 w4 (Some s) 0 u E2 E4) as F.
    destruct (size_sub ss 1 <=? 0).
    + apply ret_inv in H. destruct H as [_ H]. subst. exact F.
    + apply IH in H. eapply filling_trans; eassumption.
Qed.

Lemma alloc_entries_filling
    (child : block_sector_t -> Z -> M (bool * block_sector_t))
    (height_is_1 : bool) (slot unit_ : Z) (n : nat) :
  (forall s c w w' r,
     child s c w = Ok r w' ->
     exists t, trace w' = trace w ++ t /\ zero_filled t) ->
  forall (index : Z) (ptrs : list block_sector_t) (ss : Z) (w w' : world)
         (r : loop_exit bool Z),
    alloc_entries child height_is_1 slot unit_ n index ptrs ss w = Ok r w' ->
    exists t, trace w' = trace w ++ t /\ zero_filled t.
Proof.
  intros Hchild.
  induction n as [|n IH]; intros index ptrs ss w w' r H;
    cbn [alloc_entries] in H.
  - apply ret_inv in H. destruct H as [_ H]. subst. apply filling_refl.
  - destruct height_is_1.
    + apply bind_inv in H. destruct H as (cur & w1 & E1 & H).
      apply array_get_inv in E1. destruct E1 as (-> & _ & _).
      destruct (cur =? 0).
      * apply bind_inv in H. destruct H as (got & w2 & E2 & H).
        destruct got as [s|].
        2:{ apply ret_inv in H. destruct H as [_ H]. subst.
            now apply allocate_none_filling. }
        apply bind_inv in H. destruct H as (ptrs' & w3 & E3 & H).
        apply array_set_inv in E3. destruct E3 as (-> & _ & _).
        apply bind_inv in H. destruct H as (u & w4 & E4 & H).
        pose proof (allocate_then_fill w w2 w4 (Some s) 0 u E2 E4) as F.
        apply bind_inv in H. destruct H as (u' & w5 & E5 & H).
        apply block_write_filling in E5. apply IH in H.
        eapply filling_trans; [exact F|].
        eapply filling_trans; eassumption.
      * apply bind_inv in H. destruct H as (u' & w5 & E5 & H).
        apply block_write_filling in E5. apply IH in H.
        eapply filling_trans; eassumption.
    + apply bind_inv in H. destruct H as (cur & w1 & E1 & H).
      apply array_get_inv in E1. destruct E1 as (-> & _ & _).
      apply bind_inv in H. destruct H as ([ok cur'] & w2 & E2 & H).
      apply Hchild in E2.
      destruct ok.
      2:{ apply ret_inv in H. destruct H as [_ H]. subst. exact E2. }
      apply bind_inv in H. destruct H as (ptrs' & w3 & E3 & H).
      apply array_set_inv in E3. destruct E3 as (-> & _ & _).
      apply bind_inv in H. destruct H as (u' & w5 & E5 & H).
      apply block_write_filling in E5. apply IH in H.
      eapply filling_trans; [exact E2|].
      eapply filling_trans; eassumption.
Qed.

Lemma alloc_iblock_while_filling (height : nat) :
  forall (unit_ slot ss : Z) (w w' : world) (r : bool * block_sector_t),
    alloc_iblock_while height unit_ slot ss w = Ok r w' ->
    exists t, trace w' = trace w ++ t /\ zero_filled t.
Proof.
  induction height as [|h IH]; intros unit_ slot ss w w' r H;
    cbn [alloc_iblock_while] in H.
  - apply ret_inv in H. destruct H as [_ H]. subst. apply filling_refl.
  - apply bind_inv in H. destruct H as (slot' & w1 & E1 & H).
    assert (F1 : exists t, trace w1 = trace w ++ t /\ zero_filled t).
    { destruct (slot =? 0).
      - apply bind_inv in E1. destruct E1 as (got & w2 & E2 & E1).
        apply bind_inv in E1. destruct E1 as (u & w3 & E3 & E1).
        apply ret_inv in E1. destruct E1 as [_ E1]. subst.
        eapply allocate_then_fill; eassumption.
      - apply ret_inv in E1. destruct E1 as [_ E1]. subst.
        apply filling_refl. }
    apply bind_inv in H. destruct H as (ptrs & w2 & E2 & H).
    apply block_read_ptrs_filling in E2.
    apply bind_inv in H. destruct H as (e & w3 & E3 & H).
    apply alloc_entries_filling in E3; [|intros; eapply IH; eassumption].
    assert (F3 : exists t, trace w3 = trace w ++ t /\ zero_filled t).
    { eapply filling_trans; [exact F1|].
      eapply filling_trans; eassumption. }
    destruct e as [b|ss'].
    + apply ret_inv in H. destruct H as [_ H]. subst. exact F3.
    + apply IH in H. eapply filling_trans; eassumption.
Qed.

Section GrowthFills.

Variable NUM_DIRECT_BLOCKS : Z.

(** X17.  Growth makes only requests at the end of the log, and every
    sector it obtains from the free map is filled with zeros by the very
    next request, before anything else is asked of the device. *)
Theorem inode_alloc_zero_fills (d : inode_disk) (len : off_t) (w w' : world)
    (r : bool * inode_disk) :
  inode_alloc NUM_DIRECT_BLOCKS d len w = Ok r w' ->
  exists t, trace w' = trace w ++ t /\ zero_filled t.
Proof.
  intros H. unfold inode_alloc in H.
  apply bind_inv in H. destruct H as (e & w1 & E1 & H).
  apply alloc_direct_filling in E1.
  destruct e as [res|[d1 ss]].
  { apply ret_inv in H. destruct H as [_ H]. subst. exact E1. }
  apply bind_inv in H. destruct H as ([ok1 d2] & w2 & E2 & H).
  assert (F2 : exists t, trace w2 = trace w ++ t /\ zero_filled t).
  { eapply filling_trans; [exact E1|].
    destruct (0 <? (if ss <? NUM_INDIRECT_PTRS then ss else NUM_INDIRECT_PTRS)).
    - apply bind_inv in E2. destruct E2 as (r2 & w3 & E3 & E2).
      apply ret_inv in E2. destruct E2 as [_ E2]. subst.
      eapply alloc_iblock_while_filling. exact E3.
    - apply ret_inv in E2. destruct E2 as [_ E2]. subst.
      apply filling_refl. }
  destruct (negb ok1).
  { apply ret_inv in H. destruct H as [_ H]. subst. exact F2. }
  match type of H with
  | (if ?c then _ else _) _ = _ => destruct c
  end.
  { apply ret_inv in H. destruct H as [_ H]. subst. exact F2. }
  apply bind_inv in H. destruct H as ([ok3 d3] & w3 & E3 & H).
  assert (F3 : exists t, trace w3 = trace w ++ t /\ zero_filled t).
  { eapply filling_trans; [exact F2|].
    match type of E3 with
    | (if ?c then _ else _) _ = _ => destruct c
    end.
    - apply bind_inv in E3. destruct E3 as (r3 & w4 & E4 & E3).
      apply ret_inv in E3. destruct E3 as [_ E3]. subst.
      eapply alloc_iblock_while_filling. exact E4.
    - apply ret_inv in E3. destruct E3 as [_ E3]. subst.
      apply filling_refl. }
  destruct (negb ok3);
    apply ret_inv in H; destruct H as [_ H]; subst; exact F3.
Qed.

End GrowthFills.

Lemma inode_alloc_zero_fills_witness :
  exists r w' t,
    inode_alloc 123 (data example_small_inode) 2000 example_small_world
    = Ok r w' /\
    trace w' = trace example_small_world ++ t /\ zero_filled t.
Proof.
  assert (E : exists r w',
                inode_alloc 123 (data example_small_inode) 2000
                  example_small_world = Ok r w')
    by (eexists; eexists; vm_compute; reflexivity).
  destruct E as (r & w' & E).
  destruct (inode_alloc_zero_fills 123 (data example_small_inode) 2000
              example_small_world w' r E) as (t & Ht & Hz).
  exists r, w', t. split; [exact E|]. split; [exact Ht | exact Hz].
Defined.

(** ** When growth reports failure *)

Lemma free_map_allocate_none (w w1 : world) :
  free_map_allocate w = Ok None w1 -> free_map w1 = [].
Proof.
  unfold free_map_allocate. intros H.
  destruct (free_map w) as [|s rest] eqn:E; inversion H; subst. exact E.
Qed.

Lemma alloc_direct_false (n : nat) :
  forall (index : Z) (d d' : inode_disk) (ss : Z) (w w' : world),
    alloc_direct n index d ss w = Ok (Returned (false, d')) w' ->
    free_map w' = [].
Proof.
  induction n as [|n IH]; intros index d d' ss w w' H; cbn [alloc_direct] in H.
  - apply ret_inv in H. destruct H as [H _]. discriminate.
  - apply bind_inv in H. destruct H as (cur & w1 & E1 & H).
    destruct (cur =? 0); [|now apply IH in H].
    apply bind_inv in H. destruct H as (got & w2 & E2 & H).
    destruct got as [s|].
    2:{ apply ret_inv in H. destruct H as [_ H]. subst.
        eapply free_map_allocate_none; eassumption. }
    apply bind_inv in H. destruct H as (blocks & w3 & E3 & H).
    apply bind_inv in H. destruct H as (u & w4 & E4 & H).
    destruct (size_sub ss 1 <=? 0).
    + apply ret_inv in H. destruct H as [H _]. discriminate.
    + now apply IH in H.
Qed.

(** What the direct loop leaves of [sector_size] when it falls through. *)
Lemma alloc_direct_fell_bound (n : nat) :
  forall (index : Z) (d d' : inode_disk) (ss ss' : Z) (w w' : world),
    Z.of_nat n <= ss < 4294967296 ->
    alloc_direct n index d ss w = Ok (Fell (d', ss')) w' ->
    0 <= ss' <= ss.
Proof.
  induction n as [|n IH]; intros index d d' ss ss' w w' Hs H;
    cbn [alloc_direct] in H.
  - apply ret_inv in H. destruct H as [H _]. inversion H; subst. lia.
  - apply bind_inv in H. destruct H as (cur & w1 & E1 & H).
    destruct (cur =? 0).
    2:{ apply IH in H; lia. }
    apply bind_inv in H. destruct H as (got & w2 & E2 & H).
    destruct got as [s|].
    2:{ apply ret_inv in H. destruct H as [H _]. discriminate. }
    apply bind_inv in H. destruct H as (blocks & w3 & E3 & H).
    apply bind_inv in H. destruct H as (u & w4 & E4 & H).
    rewrite size_sub_exact in H by lia.
    destruct (ss - 1 <=? 0).
    + apply ret_inv in H. destruct H as [H _]. discriminate.
    + apply IH in H; lia.
Qed.

Lemma alloc_entries_false
    (child : block_sector_t -> Z -> M (bool * block_sector_t))
    (height_is_1 : bool) (slot unit_ : Z) (n : nat) :
  (forall s c w w' s', child s c w = Ok (false, s') w' -> free_map w' = []) ->
  forall (index : Z) (ptrs : list block_sector_t) (ss : Z) (w w' : world),
    alloc_entries child height_is_1 slot unit_ n index ptrs ss w
    = Ok (Returned false) w' ->
    free_map w' = [].
Proof.
  intros Hchild.
  induction n as [|n IH]; intros index ptrs ss w w' H;
    cbn [alloc_entries] in H.
  - apply ret_inv in H. destruct H as [H _]. discriminate.
  - destruct height_is_1.
    + apply bind_inv in H. destruct H as (cur & w1 & E1 & H).
      destruct (cur =? 0).
      * apply bind_inv in H. destruct H as (got & w2 & E2 & H).
        destruct got as [s|].
        2:{ apply ret_inv in H. destruct H as [_ H]. subst.
            eapply free_map_allocate_none; eassumption. }
        apply bind_inv in H. destruct H as (ptrs' & w3 & E3 & H).
        apply bind_inv in H. destruct H as (u & w4 & E4 & H).
        apply bind_inv in H. destruct H as (u' & w5 & E5 & H).
        now apply IH in H.
      * apply bind_inv in H. destruct H as (u' & w5 & E5 & H).
        now apply IH in H.
    + apply bind_inv in H. destruct H as (cur & w1 & E1 & H).
      apply bind_inv in H. destruct H as ([ok cur'] & w2 & E2 & H).
      destruct ok.
      * apply bind_inv in H. destruct H as (ptrs' & w3 & E3 & H).
        apply bind_inv in H. destruct H as (u' & w5 & E5 & H).
        now apply IH in H.
      * apply ret_inv in H. destruct H as [_ H]. subst.
        now apply Hchild in E2.
Qed.

Lemma alloc_iblock_while_false (height : nat) :
  forall (unit_ slot ss : Z) (w w' : world) (s : block_sector_t),
    alloc_iblock_while height unit_ slot ss w = Ok (false, s) w' ->
    free_map w' = [].
Proof.
  induction height as [|h IH]; intros unit_ slot ss w w' s H;
    cbn [alloc_iblock_while] in H.
  - apply ret_inv in H. destruct H as [H _]. discriminate.
  - apply bind_inv in H. destruct H as (slot' & w1 & E1 & H).
    apply bind_inv in H. destruct H as (ptrs & w2 & E2 & H).
    apply bind_inv in H. destruct H as (e & w3 & E3 & H).
    destruct e as [b|ss'].
    + apply ret_inv in H. destruct H as [H1 H2]. inversion H1; subst.
      eapply alloc_entries_false; [|exact E3].
      intros. eapply IH. eassumption.
    + now apply IH in H.
Qed.

Section FailureCause.

Variable NUM_DIRECT_BLOCKS : Z.
Variable inode_disk_image : inode_disk -> image.

Lemma inode_alloc_false (d d' : inode_disk) (len : off_t) (w w' : world) :
  bytes_to_sectors len <= NUM_INDIRECT_PTRS + NUM_DBL_INDIRECT_PTRS ->
  inode_alloc NUM_DIRECT_BLOCKS d len w = Ok (false, d') w' ->
  free_map w' = [].
Proof.
  unfold NUM_INDIRECT_PTRS, NUM_DBL_INDIRECT_PTRS. intros Hcap H.
  pose proof (bytes_to_sectors_range len) as HT.
  unfold inode_alloc in H.
  set (T := bytes_to_sectors len) in *.
  set (limit := if T <? NUM_DIRECT_BLOCKS then T else NUM_DIRECT_BLOCKS) in *.
  assert (Hlimit : limit <= T).
  { unfold limit. destruct (Z.ltb_spec T NUM_DIRECT_BLOCKS); lia. }
  apply bind_inv in H. destruct H as (e & w1 & E1 & H).
  destruct e as [[b d1]|[d1 ss]].
  { apply ret_inv in H. destruct H as [H1 H2]. inversion H1; subst.
    eapply alloc_direct_false. exact E1. }
  apply alloc_direct_fell_bound in E1; [|lia].
  unfold NUM_INDIRECT_PTRS, NUM_DBL_INDIRECT_PTRS in H.
  set (il := if ss <? 128 then ss else 128) in *.
  assert (Hil : 0 <= il <= ss /\ (128 < ss -> il = 128)).
  { unfold il. destruct (Z.ltb_spec ss 128); lia. }
  apply bind_inv in H. destruct H as ([ok1 d2] & w2 & E2 & H).
  destruct ok1; cbn [negb] in H.
  2:{ apply ret_inv in H. destruct H as [_ H]. subst.
      destruct (0 <? il).
      - apply bind_inv in E2. destruct E2 as ([b s] & w3 & E3 & E2).
        apply ret_inv in E2. destruct E2 as [E2 E4]. inversion E2; subst.
        cbn [fst] in *.
        eapply alloc_iblock_while_false. exact E3.
      - apply ret_inv in E2. destruct E2 as [E2 _]. discriminate. }
  rewrite size_sub_exact in H by lia.
  destruct (ss - il <=? 0) eqn:E0.
  { apply ret_inv in H. destruct H as [H _]. discriminate. }
  apply Z.leb_gt in E0.
  set (dl := if ss - il <? 16384 then ss - il else 16384) in *.
  assert (Hdl : dl = ss - il).
  { unfold dl. destruct (Z.ltb_spec (ss - il) 16384); lia. }
  apply bind_inv in H. destruct H as ([ok3 d3] & w3 & E3 & H).
  destruct ok3; cbn [negb] in H.
  2:{ apply ret_inv in H. destruct H as [_ H]. subst.
      destruct (0 <? dl).
      - apply bind_inv in E3. destruct E3 as ([b s] & w4 & E4 & E3).
        apply ret_inv in E3. destruct E3 as [E3 E5]. inversion E3; subst.
        cbn [fst] in *.
        eapply alloc_iblock_while_false. exact E4.
      - apply ret_inv in E3. destruct E3 as [E3 _]. discriminate. }
  rewrite size_sub_exact in H by lia.
  apply ret_inv in H. destruct H as [H _]. inversion H.
  rewrite Hdl, Z.sub_diag in *. discriminate.
Qed.

(** X18.  Why allocation fails.  For a length of no more sectors than the
    indirect and the doubly-indirect level have pointers (128 + 16384),
    [inode_alloc] returns false only with the free map left empty, and
    [inode_create] returns false only if there was no memory for the record
    or the free map is left empty. *)
Theorem allocation_fails_only_when_exhausted (len : off_t) :
  bytes_to_sectors len <= NUM_INDIRECT_PTRS + NUM_DBL_INDIRECT_PTRS ->
  (forall d d' w w',
     inode_alloc NUM_DIRECT_BLOCKS d len w = Ok (false, d') w' ->
     free_map w' = []) /\
  (forall sec is_dir w w',
     inode_create NUM_DIRECT_BLOCKS inode_disk_image sec len is_dir w
     = Ok false w' ->
     heap_left w = 0%nat \/ free_map w' = []).
Proof.
  intros Hcap. split.
  - intros d d' w w'. now apply inode_alloc_false.
  - intros sec is_dir w w' H. unfold inode_create in H.
    apply bind_inv in H. destruct H as (u & w1 & E1 & H).
    apply ASSERT_inv in E1. destruct E1 as [_ E1]. subst w1.
    apply bind_inv in H. destruct H as (got & w2 & E2 & H).
    unfold malloc_buf in E2.
    destruct (heap_left w) as [|n] eqn:Eh; [now left|right].
    inversion E2; subst got w2; clear E2.
    apply bind_inv in H. destruct H as ([ok d1] & w3 & E3 & H).
    apply bind_inv in H. destruct H as (success & w4 & E4 & H).
    apply bind_inv in H. destruct H as (u5 & w5 & E5 & H).
    apply ret_inv in H. destruct H as [H1 H2]. subst.
    destruct ok.
    + apply bind_inv in E4. destruct E4 as (u6 & w6 & E6 & E4).
      apply ret_inv in E4. destruct E4 as [E4 _]. discriminate.
    + apply ret_inv in E4. destruct E4 as [_ E4]. subst.
      apply inode_alloc_false in E3; [|exact Hcap].
      unfold free_buf in E5. inversion E5; subst. exact E3.
Qed.

End FailureCause.

Lemma allocation_fails_only_when_exhausted_witness :
  exists w',
    inode_create 123 example_image 1 1000 false
      (with_free_map example_world [2]) = Ok false w' /\
    (heap_left (with_free_map example_world [2]) = 0%nat \/ free_map w' = []).
Proof.
  destruct (allocation_fails_only_when_exhausted 123 example_image 1000)
    as [_ H].
  - vm_compute. discriminate.
  - eexists. split.
    + vm_compute. reflexivity.
    + apply (H 1 false). vm_compute. reflexivity.
Defined.

(** ** Denying writes, and a write of no bytes past the end *)

Section DenyAndGrow.

Variable NUM_DIRECT_BLOCKS : Z.
Variable inode_disk_image : inode_disk -> image.

(** X19.  Between [inode_deny_write] and the matching
    [inode_allow_write] a write moves nothing: it returns 0 whatever the
    buffer, size and offset, and after the three calls the handle, the
    device, the free map, the log and the heap are all as before. *)
Theorem write_denied_until_allowed (w : world) (p : Z) (i : inode)
    (buffer : list Z) (size offset : off_t) :
  inodes w p = Some i -> 0 <= deny_write_cnt i < open_cnt i ->
  exists w',
    (inode_deny_write p ;;;
     n <- inode_write_at NUM_DIRECT_BLOCKS inode_disk_image p buffer size
            offset ;;
     inode_allow_write p ;;;
     ret n) w = Ok 0 w' /\
    inodes w' p = Some i /\
    (forall q, q <> p -> inodes w' q = inodes w q) /\
    disk w' = disk w /\ free_map w' = free_map w /\ trace w' = trace w /\
    heap_left w' = heap_left w /\ open_inodes w' = open_inodes w.
Proof.
  intros Hi [Hd0 Hd1].
  set (i1 := set_deny_write_cnt i (deny_write_cnt i + 1)).
  set (w1 := with_inodes w (upd (inodes w) p (Some i1))).
  assert (Hdeny : inode_deny_write p w = Ok tt w1).
  { unfold inode_deny_write.
    rewrite (bind_Ok _ _ _ _ _
               (update_live w p i
                  (fun i => set_deny_write_cnt i (deny_write_cnt i + 1)) Hi)).
    fold i1. fold w1.
    rewrite (bind_Ok _ _ w1 w1 i1) by (apply deref_live; cbn; apply upd_same).
    unfold ASSERT. cbn [deny_write_cnt open_cnt i1 set_deny_write_cnt].
    assert (E : (deny_write_cnt i + 1 <=? open_cnt i) = true)
      by (apply Z.leb_le; lia).
    now rewrite E. }
  assert (Hwrite : inode_write_at NUM_DIRECT_BLOCKS inode_disk_image p buffer
                     size offset w1 = Ok 0 w1).
  { unfold inode_write_at.
    rewrite (bind_Ok _ _ w1 w1 i1) by (apply deref_live; cbn; apply upd_same).
    cbn [deny_write_cnt i1 set_deny_write_cnt].
    assert (E : (deny_write_cnt i + 1 =? 0) = false)
      by (apply Z.eqb_neq; lia).
    now rewrite E. }
  set (w2 := with_inodes w1
               (upd (inodes w1) p
                  (Some (set_deny_write_cnt i1 (deny_write_cnt i1 - 1))))).
  assert (Hallow : inode_allow_write p w1 = Ok tt w2).
  { unfold inode_allow_write.
    rewrite (bind_Ok _ _ w1 w1 i1) by (apply deref_live; cbn; apply upd_same).
    unfold ASSERT. cbn [deny_write_cnt open_cnt i1 set_deny_write_cnt].
    assert (E1 : (0 <? deny_write_cnt i + 1) = true)
      by (apply Z.ltb_lt; lia).
    assert (E2 : (deny_write_cnt i + 1 <=? open_cnt i) = true)
      by (apply Z.leb_le; lia).
    rewrite E1, E2. unfold bind at 1. cbn [ret]. unfold bind at 1. cbn [ret].
    apply (update_live w1 p i1). cbn. apply upd_same. }
  exists w2. split.
  { rewrite (bind_Ok _ _ _ _ _ Hdeny), (bind_Ok _ _ _ _ _ Hwrite).
    now rewrite (bind_Ok _ _ _ _ _ Hallow). }
  cbn [inodes disk free_map trace heap_left open_inodes with_inodes w2 w1].
  split.
  { rewrite upd_same. f_equal. destruct i. unfold i1, set_deny_write_cnt.
    cbn. f_equal. lia. }
  split; [|repeat split].
  intros q Hq. rewrite !upd_other by exact Hq. reflexivity.
Qed.

(** X20.  A write of no bytes at an offset past the end of the file still
    extends the file: when the growth to [offset] succeeds, [inode_write_at]
    returns 0, the length of the file is [offset] afterwards, and the grown
    record with that length is the last thing written, to the inode's
    sector. *)
Theorem inode_write_at_nothing_past_end (w w1 : world) (p : Z) (i : inode)
    (buffer : list Z) (offset : off_t) (d : inode_disk) :
  inodes w p = Some i -> deny_write_cnt i = 0 ->
  length (data i) < offset ->
  inode_alloc NUM_DIRECT_BLOCKS (data i) offset w = Ok (true, d) w1 ->
  exists w',
    inode_write_at NUM_DIRECT_BLOCKS inode_disk_image p buffer 0 offset w
    = Ok 0 w' /\
    inode_length p w' = Ok offset w' /\
    disk w' (sector i) = inode_disk_image (set_length d offset) /\
    trace w'
    = trace w1 ++ [EvWrite (sector i) (inode_disk_image (set_length d offset))].
Proof.
  intros Hi Hd Hlen Ha.
  pose proof (inode_write_at_after_growth NUM_DIRECT_BLOCKS inode_disk_image
                w w1 p i buffer 0 offset d Hi Hd) as Hw.
  rewrite Z.add_0_r in Hw. specialize (Hw Hlen Ha).
  exists (grown_world inode_disk_image w1 p i d offset). split.
  { rewrite Hw. reflexivity. }
  split; [|split].
  - unfold inode_length, bind, deref, grown_world.
    cbn [inodes with_inodes with_disk log]. rewrite upd_same. reflexivity.
  - unfold grown_world. cbn [disk with_disk log]. apply upd_same.
  - reflexivity.
Qed.

End DenyAndGrow.

Lemma write_denied_until_allowed_witness :
  exists w',
    (inode_deny_write 1 ;;;
     n <- inode_write_at 123 example_image 1 [1; 2; 3] 3 510 ;;
     inode_allow_write 1 ;;;
     ret n) example_small_world = Ok 0 w' /\
    inodes w' 1 = Some example_small_inode /\
    disk w' = disk example_small_world /\
    trace w' = [].
Proof.
  destruct (write_denied_until_allowed 123 example_image example_small_world 1
              example_small_inode [1; 2; 3] 3 510)
    as (w' & Hc & Hi & _ & Hd & _ & Ht & _).
  - reflexivity.
  - cbn. lia.
  - exists w'. split; [exact Hc|]. split; [exact Hi|]. split; [exact Hd|].
    exact Ht.
Defined.

Lemma inode_write_at_nothing_past_end_witness :
  exists w',
    inode_write_at 123 example_image 1 [] 0 2000 example_small_world
    = Ok 0 w' /\
    inode_length 1 w' = Ok 2000 w'.
Proof.
  assert (E : exists d w1,
                inode_alloc 123 (data example_small_inode) 2000
                  example_small_world = Ok (true, d) w1)
    by (eexists; eexists; vm_compute; reflexivity).
  destruct E as (d & w1 & E).
  destruct (inode_write_at_nothing_past_end 123 example_image
              example_small_world w1 1 example_small_inode [] 2000 d)
    as (w' & Hw & Hl & _).
  - reflexivity.
  - reflexivity.
  - cbn. lia.
  - exact E.
  - exists w'. split; [exact Hw | exact Hl].
Defined.

(** ** Scratch memory is given back *)

Lemma malloc_buf_heap (w w1 : world) (got : bool) :
  malloc_buf w = Ok got w1 ->
  (heap_left w1 + (if got then 1 else 0) = heap_left w)%nat /\
  disk w1 = disk w.
Proof.
  unfold malloc_buf. destruct (heap_left w) as [|n] eqn:E;
    intros H; inversion H; subst; cbn; split; try reflexivity; lia.
Qed.

Lemma free_buf_heap (w w1 : world) (b : bool) (u : unit) :
  free_buf b w = Ok u w1 ->
  (heap_left w1 = heap_left w + (if b then 1 else 0))%nat.
Proof.
  unfold free_buf. destruct b; intros H; inversion H; subst; cbn; lia.
Qed.

Lemma block_read_ptrs_heap (b : bool) (s : block_sector_t) (w w1 : world)
    (ptrs : list block_sector_t) :
  block_read_ptrs b s w = Ok ptrs w1 ->
  b = true /\ heap_left w1 = heap_left w.
Proof.
  unfold block_read_ptrs. destruct b; [|discriminate].
  intros H. inversion H; subst. auto.
Qed.

Section HeapBalance.

Variable NUM_DIRECT_BLOCKS : Z.
Variable inode_disk_image : inode_disk -> image.

Lemma byte_to_sector_heap (p : Z) (pos : off_t) (w w' : world)
    (s : block_sector_t) :
  byte_to_sector NUM_DIRECT_BLOCKS p pos w = Ok s w' ->
  heap_left w' = heap_left w.
Proof.
  unfold byte_to_sector. intros H.
  apply bind_inv in H. destruct H as (? & w1 & E1 & H).
  apply ASSERT_inv in E1. destruct E1 as [_ E1]. subst w1.
  apply bind_inv in H. destruct H as (i & w1 & E1 & H).
  apply deref_inv in E1. destruct E1 as [_ E1]. subst w1.
  destruct (pos <? length (data i)).
  2:{ apply ret_inv in H. destruct H as [_ H]. now subst. }
  destruct (Z.quot pos BLOCK_SECTOR_SIZE <? NUM_DIRECT_BLOCKS).
  { apply array_get_inv in H. destruct H as (-> & _). reflexivity. }
  apply bind_inv in H. destruct H as (buf & w1 & E1 & H).
  apply malloc_buf_heap in E1. destruct E1 as [E1 _].
  destruct (Z.quot pos BLOCK_SECTOR_SIZE
            <? NUM_DIRECT_BLOCKS + NUM_INDIRECT_PTRS).
  { apply bind_inv in H. destruct H as (ptrs & w2 & E2 & H).
    apply block_read_ptrs_heap in E2. destruct E2 as [-> E2].
    apply bind_inv in H. destruct H as (r & w3 & E3 & H).
    apply array_get_inv in E3. destruct E3 as (-> & _).
    apply bind_inv in H. destruct H as (? & w4 & E4 & H).
    apply free_buf_heap in E4.
    apply ret_inv in H. destruct H as [_ H]. subst. lia. }
  destruct (Z.quot pos BLOCK_SECTOR_SIZE
            <? NUM_DIRECT_BLOCKS + NUM_INDIRECT_PTRS + NUM_DBL_INDIRECT_PTRS).
  { apply bind_inv in H. destruct H as (outer & w2 & E2 & H).
    apply block_read_ptrs_heap in E2. destruct E2 as [-> E2].
    apply bind_inv in H. destruct H as (child & w3 & E3 & H).
    apply array_get_inv in E3. destruct E3 as (-> & _).
    apply bind_inv in H. destruct H as (inner & w4 & E4 & H).
    apply block_read_ptrs_heap in E4. destruct E4 as [_ E4].
    apply bind_inv in H. destruct H as (r & w5 & E5 & H).
    apply array_get_inv in E5. destruct E5 as (-> & _).
    apply bind_inv in H. destruct H as (? & w6 & E6 & H).
    apply free_buf_heap in E6.
    apply ret_inv in H. destruct H as [_ H]. subst. lia. }
  apply bind_inv in H. destruct H as (? & w2 & E2 & H).
  apply free_buf_heap in E2.
  apply ret_inv in H. destruct H as [_ H]. subst. lia.
Qed.

Lemma bounce_heap (b : bool) (w w1 : world) (got : bool) :
  (if b then ret true else malloc_buf) w = Ok got w1 ->
  (heap_left w1 + (if got then 1 else 0)
   = heap_left w + (if b then 1 else 0))%nat /\
  (got = false -> b = false).
Proof.
  destruct b; intros H.
  - apply ret_inv in H. destruct H as [H1 H2]. subst.
    split; [lia | discriminate].
  - apply malloc_buf_heap in H. destruct H as [H _]. split; [lia | auto].
Qed.

Lemma read_loop_heap (p : Z) (fuel : nat) :
  forall (c c' : cursor) (buffer buffer' : list Z) (w w' : world),
    read_loop NUM_DIRECT_BLOCKS fuel p c buffer w = Ok (c', buffer') w' ->
    (heap_left w' + (if c_bounce c' then 1 else 0)
     = heap_left w + (if c_bounce c then 1 else 0))%nat.
Proof.
  induction fuel as [|fuel IH]; intros c c' buffer buffer' w w' H;
    cbn [read_loop] in H.
  - destruct (c_size c <=? 0); apply ret_inv in H; destruct H as [H1 H2];
      inversion H1; subst; reflexivity.
  - destruct (c_size c <=? 0).
    { apply ret_inv in H. destruct H as [H1 H2]. inversion H1; now subst. }
    apply bind_inv in H. destruct H as (sector_idx & w1 & E1 & H).
    apply byte_to_sector_heap in E1.
    apply bind_inv in H. destruct H as (len & w2 & E2 & H).
    unfold inode_length in E2.
    apply bind_inv in E2. destruct E2 as (i & w3 & E2 & E3).
    apply deref_inv in E2. destruct E2 as [_ E2]. subst w3.
    apply ret_inv in E3. destruct E3 as [_ E3]. subst w2.
    destruct (chunk_size_at len (c_size c) (c_offset c) <=? 0).
    { apply ret_inv in H. destruct H as [H1 H2]. inversion H1; subst. lia. }
    destruct ((Z.rem (c_offset c) BLOCK_SECTOR_SIZE =? 0)
              && (chunk_size_at len (c_size c) (c_offset c)
                  =? BLOCK_SECTOR_SIZE)).
    + apply bind_inv in H. destruct H as (img & w4 & E4 & H).
      inversion E4; subst img w4; clear E4.
      apply IH in H. cbn in H. lia.
    + apply bind_inv in H. destruct H as (got & w4 & E4 & H).
      apply bounce_heap in E4. destruct E4 as [E4 E5].
      destruct got; cbn [negb] in H.
      2:{ apply ret_inv in H. destruct H as [H1 H2]. inversion H1; subst.
          rewrite (E5 eq_refl) in *. lia. }
      apply bind_inv in H. destruct H as (bounce & w5 & E6 & H).
      inversion E6; subst bounce w5; clear E6.
      apply bind_inv in H. destruct H as (piece & w6 & E7 & H).
      apply slice_length in E7. destruct E7 as [-> _].
      apply IH in H. cbn in H. lia.
Qed.

Lemma write_loop_heap (p : Z) (buffer : list Z) (fuel : nat) :
  forall (c c' : cursor) (w w' : world),
    write_loop NUM_DIRECT_BLOCKS fuel p buffer c w = Ok c' w' ->
    (heap_left w' + (if c_bounce c' then 1 else 0)
     = heap_left w + (if c_bounce c then 1 else 0))%nat.
Proof.
  induction fuel as [|fuel IH]; intros c c' w w' H; cbn [write_loop] in H.
  - destruct (c_size c <=? 0); apply ret_inv in H; destruct H as [H1 H2];
      subst; reflexivity.
  - destruct (c_size c <=? 0).
    { apply ret_inv in H. destruct H as [H1 H2]. now subst. }
    apply bind_inv in H. destruct H as (sector_idx & w1 & E1 & H).
    apply byte_to_sector_heap in E1.
    apply bind_inv in H. destruct H as (len & w2 & E2 & H).
    unfold inode_length in E2.
    apply bind_inv in E2. destruct E2 as (i & w3 & E2 & E3).
    apply deref_inv in E2. destruct E2 as [_ E2]. subst w3.
    apply ret_inv in E3. destruct E3 as [_ E3]. subst w2.
    destruct (chunk_size_at len (c_size c) (c_offset c) <=? 0).
    { apply ret_inv in H. destruct H as [H1 H2]. subst. lia. }
    destruct ((Z.rem (c_offset c) BLOCK_SECTOR_SIZE =? 0)
              && (chunk_size_at len (c_size c) (c_offset c)
                  =? BLOCK_SECTOR_SIZE)).
    + apply bind_inv in H. destruct H as (chunk & w4 & E4 & H).
      apply slice_length in E4. destruct E4 as [-> _].
      apply bind_inv in H. destruct H as (uw & w5 & E5 & H).
      inversion E5; subst uw w5; clear E5.
      apply IH in H. cbn in H. lia.
    + apply bind_inv in H. destruct H as (got & w4 & E4 & H).
      apply bounce_heap in E4. destruct E4 as [E4 E5].
      destruct got; cbn [negb] in H.
      2:{ apply ret_inv in H. destruct H as [H1 H2]. subst.
          rewrite (E5 eq_refl) in *. lia. }
      apply bind_inv in H. destruct H as (bounce & w5 & E6 & H).
      assert (H5 : heap_left w5 = heap_left w4).
      { match type of E6 with
        | (if ?b then _ else _) _ = _ => destruct b
        end.
        - inversion E6; subst. reflexivity.
        - apply ret_inv in E6. destruct E6 as [_ E6]. now subst. }
      apply bind_inv in H. destruct H as (chunk & w6 & E7 & H).
      apply slice_length in E7. destruct E7 as [-> _].
      apply bind_inv in H. destruct H as (bounce' & w7 & E8 & H).
      assert (w7 = w5).
      { unfold splice in E8.
        match type of E8 with
        | (if ?b then _ else _) _ = _ => destruct b
        end; inversion E8; reflexivity. }
      subst w7.
      apply bind_inv in H. destruct H as (uw & w8 & E9 & H).
      inversion E9; subst uw w8; clear E9.
      apply IH in H. cbn in H. lia.
Qed.

Lemma inode_alloc_heap (d : inode_disk) (len : off_t) (w w' : world)
    (r : bool * inode_disk) :
  inode_alloc NUM_DIRECT_BLOCKS d len w = Ok r w' ->
  heap_left w' = heap_left w.
Proof.
  exact (preserves_inode_alloc (fun w w' => heap_left w' = heap_left w)
           (fun w => eq_refl)
           (fun a b c H1 H2 => eq_trans H2 H1)
           (fun w e => eq_refl) (fun w d => eq_refl) (fun w f => eq_refl)
           NUM_DIRECT_BLOCKS d len w r w').
Qed.

Lemma update_heap (p : Z) (f : inode -> inode) (w w' : world) (u : unit) :
  update p f w = Ok u w' -> heap_left w' = heap_left w.
Proof.
  intros H. apply update_inv in H. destruct H as (i & _ & ->). reflexivity.
Qed.

(** X21.  The calls that take scratch memory give it back: whenever
    [inode_create], [inode_read_at] or [inode_write_at] returns, with any
    result, as much of the heap is available as before the call. *)
Theorem scratch_memory_is_given_back :
  (forall sec len is_dir w r w',
     inode_create NUM_DIRECT_BLOCKS inode_disk_image sec len is_dir w
     = Ok r w' ->
     heap_left w' = heap_left w) /\
  (forall p size offset w r w',
     inode_read_at NUM_DIRECT_BLOCKS p size offset w = Ok r w' ->
     heap_left w' = heap_left w) /\
  (forall p buffer size offset w r w',
     inode_write_at NUM_DIRECT_BLOCKS inode_disk_image p buffer size offset w
     = Ok r w' ->
     heap_left w' = heap_left w).
Proof.
  split; [|split].
  - intros sec len is_dir w r w' H. unfold inode_create in H.
    apply bind_inv in H. destruct H as (? & w1 & E1 & H).
    apply ASSERT_inv in E1. destruct E1 as [_ E1]. subst w1.
    apply bind_inv in H. destruct H as (got & w2 & E2 & H).
    apply malloc_buf_heap in E2. destruct E2 as [E2 _].
    destruct got.
    2:{ apply ret_inv in H. destruct H as [_ H]. subst. lia. }
    apply bind_inv in H. destruct H as ([ok d1] & w3 & E3 & H).
    apply inode_alloc_heap in E3.
    apply bind_inv in H. destruct H as (success & w4 & E4 & H).
    assert (H4 : heap_left w4 = heap_left w3).
    { destruct ok.
      - apply bind_inv in E4. destruct E4 as (u6 & w6 & E6 & E4).
        inversion E6; subst u6 w6; clear E6.
        apply ret_inv in E4. destruct E4 as [_ E4]. now subst.
      - apply ret_inv in E4. destruct E4 as [_ E4]. now subst. }
    apply bind_inv in H. destruct H as (u5 & w5 & E5 & H).
    apply free_buf_heap in E5.
    apply ret_inv in H. destruct H as [_ H]. subst. lia.
  - intros p size offset w r w' H. unfold inode_read_at in H.
    apply bind_inv in H. destruct H as ([c' buffer'] & w1 & E1 & H).
    apply read_loop_heap in E1. cbn [c_bounce fst] in *.
    apply bind_inv in H. destruct H as (? & w2 & E2 & H).
    apply free_buf_heap in E2.
    apply ret_inv in H. destruct H as [_ H]. subst. lia.
  - intros p buffer size offset w r w' H. unfold inode_write_at in H.
    apply bind_inv in H. destruct H as (i & w1 & E1 & H).
    apply deref_inv in E1. destruct E1 as [_ E1]. subst w1.
    destruct (negb (deny_write_cnt i =? 0)).
    { apply ret_inv in H. destruct H as [_ H]. now subst. }
    apply bind_inv in H. destruct H as (g & w1 & E1 & H).
    assert (H1 : heap_left w1 = heap_left w).
    { unfold write_grow in E1.
      apply bind_inv in E1. destruct E1 as (len & w2 & E2 & E1).
      unfold inode_length in E2.
      apply bind_inv in E2. destruct E2 as (i2 & w3 & E2 & E3).
      apply deref_inv in E2. destruct E2 as [_ E2]. subst w3.
      apply ret_inv in E3. destruct E3 as [_ E3]. subst w2.
      destruct (len <? offset + size).
      2:{ apply ret_inv in E1. destruct E1 as [_ E1]. now subst. }
      apply bind_inv in E1. destruct E1 as (i3 & w3 & E3 & E1).
      apply deref_inv in E3. destruct E3 as [_ E3]. subst w3.
      apply bind_inv in E1. destruct E1 as (ra & w4 & E4 & E1).
      apply inode_alloc_heap in E4.
      apply bind_inv in E1. destruct E1 as (u5 & w5 & E5 & E1).
      apply update_heap in E5.
      destruct (fst ra).
      2:{ apply ret_inv in E1. destruct E1 as [_ E1]. subst. congruence. }
      apply bind_inv in E1. destruct E1 as (u6 & w6 & E6 & E1).
      apply update_heap in E6.
      apply bind_inv in E1. destruct E1 as (i7 & w7 & E7 & E1).
      apply deref_inv in E7. destruct E7 as [_ E7]. subst w7.
      apply bind_inv in E1. destruct E1 as (u8 & w8 & E8 & E1).
      inversion E8; subst u8 w8; clear E8.
      apply ret_inv in E1. destruct E1 as [_ E1]. subst. cbn. congruence. }
    destruct g as [n|].
    { apply ret_inv in H. destruct H as [_ H]. subst. exact H1. }
    apply bind_inv in H. destruct H as (c & w2 & E2 & H).
    apply write_loop_heap in E2. cbn [c_bounce] in E2.
    apply bind_inv in H. destruct H as (? & w3 & E3 & H).
    apply free_buf_heap in E3.
    apply ret_inv in H. destruct H as [_ H]. subst. lia.
Qed.

End HeapBalance.

Lemma scratch_memory_is_given_back_witness :
  exists r w',
    inode_read_at 123 1 2000 300 example_small_world = Ok r w' /\
    heap_left w' = heap_left example_small_world.
Proof.
  destruct (scratch_memory_is_given_back 123 example_image) as (_ & H & _).
  assert (E : exists r w',
                inode_read_at 123 1 2000 300 example_small_world = Ok r w')
    by (eexists; eexists; vm_compute; reflexivity).
  destruct E as (r & w' & E).
  exists r, w'. split; [exact E|].
  exact (H 1 2000 300 example_small_world r w' E).
Defined.

(** ** The table in every state the module reaches *)

Lemma counts_sane_update (w : world) (p : Z) (i : inode) (f : inode -> inode) :
  counts_sane w -> inodes w p = Some i ->
  1 <= open_cnt (f i) -> 0 <= deny_write_cnt (f i) ->
  counts_sane (with_inodes w (upd (inodes w) p (Some (f i)))).
Proof.
  intros S Hi H1 H2 q j. cbn. unfold upd.
  destruct (q =? p); [|apply S]. intros E. inversion E; subst. auto.
Qed.

Section ReachableTable.

Variable NUM_DIRECT_BLOCKS : Z.
Variable inode_disk_image : inode_disk -> image.
Variable inode_disk_load : image -> inode_disk.

Lemma inode_open_no_memory (w : world) (sec : block_sector_t) :
  table_ok w ->
  (forall p j, inodes w p = Some j -> sector j <> sec) ->
  heap_left w = 0%nat -> inode_open inode_disk_load sec w = Ok 0 w.
Proof.
  intros T Hfresh Hh. pose proof T as (T1 & T2 & T3 & T4).
  destruct (find_open_spec w sec (open_inodes w)) as (r & Hr & Hspec).
  { intros q. apply T3. }
  unfold inode_open. unfold bind at 1. unfold bind at 1. rewrite Hr.
  destruct r as [q|].
  { destruct Hspec as (_ & j & Hq & Hs). exfalso. now apply (Hfresh q j). }
  unfold bind at 1. unfold malloc_inode. rewrite Hh. reflexivity.
Qed.

Lemma inode_open_sane (w w' : world) (sec : block_sector_t) (r : Z) :
  table_ok w -> counts_sane w ->
  inode_open inode_disk_load sec w = Ok r w' -> counts_sane w'.
Proof.
  intros T S H.
  destruct (inode_open_cases inode_disk_load w w' sec r T H)
    as [(i & Hi & Hs & ->) | [[-> ->] | (-> & Hfresh & _)]].
  - destruct (S r i Hi).
    apply (counts_sane_update w r i (fun i => set_open_cnt i (open_cnt i + 1)));
      cbn; auto; lia.
  - exact S.
  - destruct (heap_left w) as [|n] eqn:Eh.
    + rewrite (inode_open_no_memory w sec T Hfresh Eh) in H.
      inversion H; subst. exact S.
    + rewrite (inode_open_first inode_disk_load w sec n T Hfresh Eh) in H.
      inversion H; subst. intros q j. cbn. unfold upd.
      destruct (q =? next_ptr w); [|apply S].
      intros E. inversion E; subst. cbn. lia.
Qed.

Lemma do_call_sane (c : call) (w w' : world) (r : Z) :
  table_ok w -> counts_sane w ->
  do_call NUM_DIRECT_BLOCKS inode_disk_image inode_disk_load c w = Ok r w' ->
  counts_sane w'.
Proof.
  intros T S H. destruct c; cbn [do_call] in H.
  - (* Create *)
    apply bind_inv in H. destruct H as (b & w1 & E & H).
    apply ret_inv in H. destruct H as [_ H]. subst w1.
    pose proof (preserves_inode_create (fun w w' => inodes w' = inodes w)
                  (fun w => eq_refl) (fun a b c H1 H2 => eq_trans H2 H1)
                  (fun w e => eq_refl) (fun w d => eq_refl)
                  (fun w f => eq_refl) (fun w n => eq_refl)
                  NUM_DIRECT_BLOCKS inode_disk_image sec len is_dir w b w' E)
      as I.
    unfold counts_sane. now rewrite I.
  - (* Open *)
    eapply inode_open_sane; eassumption.
  - (* Reopen *)
    unfold inode_reopen in H. destruct (p =? 0).
    + cbn in H. inversion H; subst. exact S.
    + cbn [negb] in H. apply bind_inv in H. destruct H as (u & w1 & E & H).
      apply ret_inv in H. destruct H as [_ H]. subst w1.
      apply update_inv in E. destruct E as (i & Hi & ->).
      destruct (S p i Hi).
      apply (counts_sane_update w p i
               (fun i => set_open_cnt i (open_cnt i + 1))); cbn; auto; lia.
  - (* Close *)
    apply bind_inv in H. destruct H as (a & w1 & E & H).
    apply ret_inv in H. destruct H as [_ H]. subst w1.
    destruct (Z.eq_dec p 0) as [->|Hp].
    { unfold inode_close in E. cbn in E. inversion E; subst. exact S. }
    destruct (inode_close_cases NUM_DIRECT_BLOCKS w w' p a Hp E)
      as (i & Hi & [[Hne ->] | (Hz & _ & _ & Ei)]).
    + destruct (S p i Hi).
      apply (counts_sane_update w p i
               (fun i => set_open_cnt i (open_cnt i - 1))); cbn; auto; lia.
    + intros q j. rewrite Ei. destruct (q =? p); [discriminate|apply S].
  - (* Remove *)
    apply bind_inv in H. destruct H as (a & w1 & E & H).
    apply ret_inv in H. destruct H as [_ H]. subst w1.
    unfold inode_remove in E.
    apply bind_inv in E. destruct E as (u & w1 & E1 & E).
    apply ASSERT_inv in E1. destruct E1 as [_ E1]. subst w1.
    apply update_inv in E. destruct E as (i & Hi & ->).
    destruct (S p i Hi).
    apply (counts_sane_update w p i (fun i => set_removed i true));
      cbn; auto.
  - (* ReadAt *)
    apply bind_inv in H. destruct H as (b & w1 & E & H).
    apply ret_inv in H. destruct H as [_ H]. subst w1.
    pose proof (preserves_inode_read_at (fun w w' => inodes w' = inodes w)
                  (fun w => eq_refl) (fun a b c H1 H2 => eq_trans H2 H1)
                  (fun w e => eq_refl) (fun w n => eq_refl)
                  NUM_DIRECT_BLOCKS p size offset w b w' E) as I.
    unfold counts_sane. now rewrite I.
  - (* WriteAt *)
    apply bind_inv in H. destruct H as (b & w1 & E & H).
    apply ret_inv in H. destruct H as [_ H]. subst w1.
    pose proof (preserves_inode_write_at
                  (fun w w' =>
                     forall q j', inodes w' q = Some j' ->
                       exists j, inodes w q = Some j /\
                                 open_cnt j' = open_cnt j /\
                                 deny_write_cnt j' = deny_write_cnt j)) as P.
    specialize (P ltac:(intros v q j' Hq; eauto)).
    specialize (P ltac:(intros x y z H1 H2 q j' Hq;
                        destruct (H2 q j' Hq) as (j1 & Hj1 & A1 & A2);
                        destruct (H1 q j1 Hj1) as (j0 & Hj0 & B1 & B2);
                        exists j0; repeat split; congruence)).
    specialize (P ltac:(intros v e q j' Hq; eauto)).
    specialize (P ltac:(intros v e q j' Hq; eauto)).
    specialize (P ltac:(intros v e q j' Hq; eauto)).
    specialize (P ltac:(intros v e q j' Hq; eauto)).
    specialize (P NUM_DIRECT_BLOCKS inode_disk_image
                  (fun f => forall j, open_cnt (f j) = open_cnt j /\
                                      deny_write_cnt (f j) = deny_write_cnt j)).
    specialize (P ltac:(intros v q j f Hf Hq x j' Hx; cbn in Hx;
                        unfold upd in Hx; destruct (x =? q) eqn:Ex;
                        [ apply Z.eqb_eq in Ex; subst x; inversion Hx; subst;
                          exists j; destruct (Hf j); auto
                        | eauto ])).
    specialize (P ltac:(intros g j; split; reflexivity)).
    intros q j' Hq.
    destruct (P p buffer size offset w b w' E q j' Hq) as (j & Hj & A1 & A2).
    destruct (S q j Hj). lia.
  - (* DenyWrite *)
    apply bind_inv in H. destruct H as (a & w1 & E & H).
    apply ret_inv in H. destruct H as [_ H]. subst w1.
    unfold inode_deny_write in E.
    apply bind_inv in E. destruct E as (u & w1 & E1 & E).
    apply update_inv in E1. destruct E1 as (i & Hi & ->).
    apply bind_inv in E. destruct E as (i2 & w2 & E2 & E).
    apply deref_inv in E2. destruct E2 as [_ E2]. subst w2.
    apply ASSERT_inv in E. destruct E as [_ E]. subst w'.
    destruct (S p i Hi).
    apply (counts_sane_update w p i
             (fun i => set_deny_write_cnt i (deny_write_cnt i + 1)));
      cbn; auto; lia.
  - (* AllowWrite *)
    apply bind_inv in H. destruct H as (a & w1 & E & H).
    apply ret_inv in H. destruct H as [_ H]. subst w1.
    unfold inode_allow_write in E.
    apply bind_inv in E. destruct E as (i & w1 & E1 & E).
    apply deref_inv in E1. destruct E1 as [Hi E1]. subst w1.
    apply bind_inv in E. destruct E as (u & w1 & E1 & E).
    apply ASSERT_inv in E1. destruct E1 as [Hpos E1]. subst w1.
    apply bind_inv in E. destruct E as (u' & w1 & E1 & E).
    apply ASSERT_inv in E1. destruct E1 as [_ E1]. subst w1.
    apply update_inv in E. destruct E as (i' & Hi' & ->).
    rewrite Hi in Hi'. inversion Hi'; subst i'.
    apply Z.ltb_lt in Hpos. destruct (S p i Hi).
    apply (counts_sane_update w p i
             (fun i => set_deny_write_cnt i (deny_write_cnt i - 1)));
      cbn; auto; lia.
Qed.

Lemma run_sane (cs : list call) :
  forall (w w' : world) (h0 h : list (call * Z)),
    table_ok w -> counts_ok w h0 -> counts_sane w ->
    run NUM_DIRECT_BLOCKS inode_disk_image inode_disk_load cs w = Ok h w' ->
    table_ok w' /\ counts_sane w'.
Proof.
  induction cs as [|c cs IH]; intros w w' h0 h T C S H.
  - apply ret_inv in H. destruct H as [_ H]. subst. auto.
  - cbn [run] in H.
    apply bind_inv in H. destruct H as (r & w1 & E1 & H).
    apply bind_inv in H. destruct H as (h1 & w2 & E2 & H).
    apply ret_inv in H. destruct H as [_ H]. subst w2.
    destruct (do_call_ok NUM_DIRECT_BLOCKS inode_disk_image inode_disk_load
                c w w1 r h0 T C E1) as [T1 C1].
    pose proof (do_call_sane c w w1 r T S E1) as S1.
    exact (IH w1 w' (h0 ++ [(c, r)]) h1 T1 C1 S1 E2).
Qed.

(** X22.  The table in every state that calls can reach.  After
    [inode_init] on a heap with no handle in it and any sequence of calls
    that returns, the list holds exactly the live handles, no two live
    handles are for the same sector, and every live handle is not null, has
    an open count of at least 1 and a deny count that is not negative. *)
Theorem reachable_table_is_well_formed
    (cs : list call) (w0 w : world) (h : list (call * Z)) :
  (forall p, inodes w0 p = None) -> 0 < next_ptr w0 ->
  (inode_init ;;;
   run NUM_DIRECT_BLOCKS inode_disk_image inode_disk_load cs) w0 = Ok h w ->
  (forall p, In p (open_inodes w) <-> inodes w p <> None) /\
  (forall p q i j, inodes w p = Some i -> inodes w q = Some j ->
                   sector i = sector j -> p = q) /\
  (forall p i, inodes w p = Some i ->
               p <> 0 /\ 1 <= open_cnt i /\ 0 <= deny_write_cnt i).
Proof.
  intros Hnone Hnext Hrun.
  apply bind_inv in Hrun. destruct Hrun as (u & w1 & Einit & Hrun).
  inversion Einit; subst u w1; clear Einit.
  assert (T0 : table_ok (with_open_inodes w0 [])).
  { repeat split; cbn in *.
    - assumption.
    - rewrite Hnone in H. congruence.
    - rewrite Hnone in H. congruence.
    - intros [].
    - rewrite Hnone. congruence.
    - intros p q i j Hp. rewrite Hnone in Hp. discriminate. }
  assert (C0 : counts_ok (with_open_inodes w0 []) []).
  { intros p _. cbn. now rewrite Hnone. }
  assert (S0 : counts_sane (with_open_inodes w0 [])).
  { intros p i Hp. cbn in Hp. rewrite Hnone in Hp. discriminate. }
  destruct (run_sane cs _ w [] h T0 C0 S0 Hrun) as [(T1 & T2 & T3 & T4) S].
  split; [exact T3|]. split; [exact T4|].
  intros p i Hp. destruct (S p i Hp). split; [|auto].
  assert (inodes w p <> None) as Hl by congruence. apply T2 in Hl. lia.
Qed.

End ReachableTable.

Lemma reachable_table_is_well_formed_witness :
  exists h w,
    (inode_init ;;; run 123 example_image example_load example_calls)
      example_world = Ok h w /\
    (forall p, In p (open_inodes w) <-> inodes w p <> None) /\
    (forall p q i j, inodes w p = Some i -> inodes w q = Some j ->
                     sector i = sector j -> p = q) /\
    (forall p i, inodes w p = Some i ->
                 p <> 0 /\ 1 <= open_cnt i /\ 0 <= deny_write_cnt i).
Proof.
  assert (E : exists h w,
                (inode_init ;;;
                 run 123 example_image example_load example_calls)
                  example_world = Ok h w)
    by (eexists; eexists; vm_compute; reflexivity).
  destruct E as (h & w & E).
  exists h, w. split; [exact E|].
  apply (reachable_table_is_well_formed 123 example_image example_load
           example_calls example_world w h).
  - reflexivity.
  - reflexivity.
  - exact E.
Defined.

(** ** Growing an empty file by a write *)


Section GrowEmpty.

Variable NUM_DIRECT_BLOCKS : Z.
Variable inode_disk_image : inode_disk -> image.


End GrowEmpty.

